(** * capnp-stub-generator: the stub writer

    A shallow embedding of [capnp_stub_generator/writer.py] and
    [capnp_stub_generator/helper.py].  [Scope] objects live in a heap and
    are addressed by reference, because the writer mutates the line list
    of a scope through several aliases ([self.scope], the entries of
    [scopes_by_id], the [parent] of other scopes).  Every method of
    [Writer] is a state transformer that may raise; an exception carries
    the state reached when it was raised, so that [try ... except] keeps
    the mutations made before the raise, as in Python. *)

From Stdlib Require Import Ascii.
From stdpp Require Import gmap strings list sorting.

Open Scope Z_scope.

(** ** Strings as Python uses them *)

Module Str.

(** [s * n] *)
Fixpoint repeat (s : string) (n : nat) : string :=
  match n with
  | O => ""
  | S n' => s +:+ repeat s n'
  end.

(** [s[n:]] *)
Fixpoint drop (n : nat) (s : string) : string :=
  match n, s with
  | O, _ => s
  | S n', String _ s' => drop n' s'
  | S _, EmptyString => ""
  end.

(** [s.split(sep)] for a one-character separator. *)
Fixpoint split (sep : ascii) (s : string) : list string :=
  match s with
  | EmptyString => [""]
  | String c s' =>
      if Ascii.eqb c sep then "" :: split sep s'
      else match split sep s' with
           | [] => [String c ""]
           | x :: xs => String c x :: xs
           end
  end.

(** [sep.join(ls)] *)
Definition join (sep : string) (ls : list string) : string :=
  String.concat sep ls.

(** [s.startswith(p)] *)
Fixpoint startswith (p s : string) : bool :=
  match p, s with
  | EmptyString, _ => true
  | String a p', String b s' => Ascii.eqb a b && startswith p' s'
  | String _ _, EmptyString => false
  end.

(** [s.endswith(suffix)] *)
Definition endswith (s suffix : string) : bool :=
  (String.length suffix <=? String.length s)%nat
  && String.eqb (drop (String.length s - String.length suffix) s) suffix.

(** [s.replace(old, new)] for a non-empty [old]: the occurrences are
    replaced from left to right, without overlap.  [skip] counts the
    characters of a matched occurrence that are still to be dropped. *)
Fixpoint replace_from (old new : string) (skip : nat) (s : string) : string :=
  match s with
  | EmptyString => ""
  | String c s' =>
      match skip with
      | S k => replace_from old new k s'
      | O =>
          if startswith old s
          then new +:+ replace_from old new (String.length old - 1) s'
          else String c (replace_from old new 0 s')
      end
  end.

Definition replace (old new s : string) : string := replace_from old new 0 s.

(** [c.upper()] on an ASCII character. *)
Definition upper_char (c : ascii) : ascii :=
  let n := nat_of_ascii c in
  if ((97 <=? n) && (n <=? 122))%nat then ascii_of_nat (n - 32) else c.

(** [x in ls] for a list of strings. *)
Definition mem (x : string) (ls : list string) : bool :=
  existsb (String.eqb x) ls.

(** [a <= b]: strings are ordered character by character, by code. *)
Fixpoint leb (a b : string) : bool :=
  match a, b with
  | EmptyString, _ => true
  | String _ _, EmptyString => false
  | String x a', String y b' =>
      let nx := nat_of_ascii x in
      let ny := nat_of_ascii y in
      if (nx <? ny)%nat then true
      else if (nx =? ny)%nat then leb a' b' else false
  end.

(** [sorted(ls)] *)
Definition le (a b : string) : Prop := leb a b = true.

#[global] Instance le_dec a b : Decision (le a b).
Proof. unfold le. apply _. Defined.

Definition sorted (ls : list string) : list string := merge_sort le ls.

End Str.

(** ** helper.py *)

Definition replace_capnp_suffix (original : string) : string :=
  if Str.endswith original ".capnp"
  then Str.replace ".capnp" "_capnp" original
  else original.

Example replace_capnp_suffix_doc :
  replace_capnp_suffix "some_module.capnp" = "some_module_capnp".
Proof. reflexivity. Qed.

(** ** capnp_types.py *)

Definition CAPNP_TYPE_TO_PYTHON : list (string * string) :=
  [ ("void", "None"); ("bool", "bool");
    ("int8", "int"); ("int16", "int"); ("int32", "int"); ("int64", "int");
    ("uint8", "int"); ("uint16", "int"); ("uint32", "int"); ("uint64", "int");
    ("float32", "float"); ("float64", "float");
    ("text", "str"); ("data", "bytes") ].

(** [d[k]] and [k in d] for a dictionary given by its items. *)
Fixpoint dict_get {V} (k : string) (d : list (string * V)) : option V :=
  match d with
  | [] => None
  | (k', v) :: d' => if String.eqb k k' then Some v else dict_get k d'
  end.

Module CapnpFieldType.
Definition GROUP : string := "group".
Definition SLOT : string := "slot".
End CapnpFieldType.

Module CapnpSlotType.
Definition ANY_POINTER : string := "anyPointer".
Definition STRUCT : string := "struct".
Definition ENUM : string := "enum".
Definition LIST : string := "list".
End CapnpSlotType.

Module CapnpElementType.
Definition ENUM : string := "enum".
Definition STRUCT : string := "struct".
Definition CONST : string := "const".
End CapnpElementType.

(** [keyword.kwlist] of the Python standard library (CPython 3.7 and later). *)
Definition kwlist : list string :=
  [ "False"; "None"; "True"; "and"; "as"; "assert"; "async"; "await";
    "break"; "class"; "continue"; "def"; "del"; "elif"; "else"; "except";
    "finally"; "for"; "from"; "global"; "if"; "import"; "in"; "is";
    "lambda"; "nonlocal"; "not"; "or"; "pass"; "raise"; "return"; "try";
    "while"; "with"; "yield" ].

Definition INDENT_SPACES : nat := 4.

(** The double-quote character. *)
Definition quote : string := String "034"%char EmptyString.

(** ** The schema graph, as pycapnp exposes it

    Only the accessors that the writer reads are kept.  Nodes are
    addressed by their 64-bit identity; the schema object of a field's
    type ([raw_field.schema]) is found through the graph. *)

Inductive AnyPointer :=
| APUnconstrained
| APParameter (scopeId : Z) (parameterIndex : nat)
| APImplicitMethodParameter (parameterIndex : nat).

(** [schema.capnp], [Type], with the brand of a struct type. *)
Inductive Ty :=
| TVoid | TBool
| TInt8 | TInt16 | TInt32 | TInt64
| TUint8 | TUint16 | TUint32 | TUint64
| TFloat32 | TFloat64
| TText | TData
| TList (elementType : Ty)
| TEnum (typeId : Z)
| TStruct (typeId : Z) (brand : list BrandScope)
| TInterface (typeId : Z)
| TAnyPointer (anyPointer : AnyPointer)
with BrandScope :=
| BInherit (scopeId : Z)
| BBind (scopeId : Z) (bind : list Binding)
with Binding :=
| BUnbound
| BType (type : Ty).

(** [type.which()] *)
Definition which (t : Ty) : string :=
  match t with
  | TVoid => "void" | TBool => "bool"
  | TInt8 => "int8" | TInt16 => "int16" | TInt32 => "int32" | TInt64 => "int64"
  | TUint8 => "uint8" | TUint16 => "uint16" | TUint32 => "uint32"
  | TUint64 => "uint64"
  | TFloat32 => "float32" | TFloat64 => "float64"
  | TText => "text" | TData => "data"
  | TList _ => "list"
  | TEnum _ => "enum"
  | TStruct _ _ => "struct"
  | TInterface _ => "interface"
  | TAnyPointer _ => "anyPointer"
  end.

Definition anyPointer_which (a : AnyPointer) : string :=
  match a with
  | APUnconstrained => "unconstrained"
  | APParameter _ _ => "parameter"
  | APImplicitMethodParameter _ => "implicitMethodParameter"
  end.

Inductive FieldBody :=
| FSlot (type : Ty)
| FGroup (typeId : Z).

Module Field.
Record t := mk {
  name : string;
  discriminantValue : Z;
  body : FieldBody }.

Definition which (f : t) : string :=
  match body f with
  | FSlot _ => CapnpFieldType.SLOT
  | FGroup _ => CapnpFieldType.GROUP
  end.
End Field.

Inductive NodeBody :=
| NFile
| NStruct (fields : list Field.t) (discriminantCount : Z)
| NEnum (enumerants : list string)
| NInterface
| NConst (type : Ty)
| NAnnotation.

Module Node.
Record t := mk {
  id : Z;
  displayName : string;
  displayNamePrefixLength : nat;
  scopeId : Z;
  isGeneric : bool;
  parameters : list string;
  nestedNodes : list (string * Z);
  body : NodeBody }.

Definition which (n : t) : string :=
  match body n with
  | NFile => "file"
  | NStruct _ _ => "struct"
  | NEnum _ => "enum"
  | NInterface => "interface"
  | NConst _ => "const"
  | NAnnotation => "annotation"
  end.
End Node.

(** A loaded module: [module.__file__] and [module.schema.node]. *)
Module Module_.
Record t := mk {
  file : option string;
  schema : Node.t }.
End Module_.

(** [ModuleRegistryType]: a dictionary, in insertion order, from the
    identity of a module's root node to its path and the module. *)
Definition ModuleRegistryType : Type := list (Z * (string * Module_.t)).

(** ** Paths

    [pathlib.PurePosixPath] in its parsed form: the root of the path
    (none, [/] or [//]), and its parts without the root. *)

Module Path.
Record t := mk {
  root : string;
  parts : list string }.

(** [p.is_absolute()]: the path has a root. *)
Definition is_absolute (p : t) : bool := negb (String.eqb (root p) "").

(** [pathlib.Path(s)]: exactly two leading slashes are a root of their
    own, any other number of them is the root [/]; empty and [.]
    components are dropped. *)
Definition of_string (s : string) : t :=
  {| root := if Str.startswith "//" s && negb (Str.startswith "///" s)
             then "//"
             else if Str.startswith "/" s then "/" else "";
     parts := filter (fun p => p <> "" /\ p <> ".") (Str.split "/" s) |}.

(** [p.name] *)
Definition name (p : t) : string := List.last (parts p) "".

(** [len(p.parents)] *)
Definition parents_len (p : t) : nat := length (parts p).
End Path.

(** ** Exceptions and the writer monad *)

Inductive exn :=
| NoParentError
| KeyError
| ValueError
| AssertionError
| TypeError
| IndexError
| CapnpError      (* raised by pycapnp: inactive union member, unknown node *)
| RecursionError  (* the model ran out of fuel *)
| DanglingRef.    (* a reference to no scope object: cannot occur in Python *)

#[global] Instance exn_eq_dec : EqDecision exn.
Proof. solve_decision. Defined.

(** ** Scopes *)

(** References to scope objects are positions in the heap. *)
Abbreviation ref := nat (only parsing).

Module Scope.
Record t := mk {
  name : string;
  id : Z;
  parent : option ref;
  return_scope : option ref;
  lines : list string }.

Definition add_lines (ls : list string) (s : t) : t :=
  {| name := name s; id := id s; parent := parent s;
     return_scope := return_scope s; lines := lines s ++ ls |}.
End Scope.

Module CapnpType.
Record t := mk {
  schema : Node.t;
  name : string;
  scope : ref;
  generic_params : list string }.
End CapnpType.

(** ** The writer's state *)

Record Writer := mkWriter {
  scope : ref;                          (* [self.scope] *)
  heap : list Scope.t;                  (* the [Scope] objects *)
  scopes_by_id : list (Z * ref);        (* a dictionary, in insertion order *)
  _module_path : Path.t;
  _imports : gset string;
  _typing_imports : gset string;
  type_vars : gset string;
  type_map : gmap Z CapnpType.t;
  docstring : string }.

Definition set_scope (r : ref) (w : Writer) : Writer :=
  mkWriter r (heap w) (scopes_by_id w) (_module_path w) (_imports w)
    (_typing_imports w) (type_vars w) (type_map w) (docstring w).

Definition set_heap (h : list Scope.t) (w : Writer) : Writer :=
  mkWriter (scope w) h (scopes_by_id w) (_module_path w) (_imports w)
    (_typing_imports w) (type_vars w) (type_map w) (docstring w).

Definition set_scopes_by_id (d : list (Z * ref)) (w : Writer) : Writer :=
  mkWriter (scope w) (heap w) d (_module_path w) (_imports w)
    (_typing_imports w) (type_vars w) (type_map w) (docstring w).

Definition set_imports (s : gset string) (w : Writer) : Writer :=
  mkWriter (scope w) (heap w) (scopes_by_id w) (_module_path w) s
    (_typing_imports w) (type_vars w) (type_map w) (docstring w).

Definition set_typing_imports (s : gset string) (w : Writer) : Writer :=
  mkWriter (scope w) (heap w) (scopes_by_id w) (_module_path w) (_imports w)
    s (type_vars w) (type_map w) (docstring w).

Definition set_type_vars (s : gset string) (w : Writer) : Writer :=
  mkWriter (scope w) (heap w) (scopes_by_id w) (_module_path w) (_imports w)
    (_typing_imports w) s (type_map w) (docstring w).

Definition set_type_map (m : gmap Z CapnpType.t) (w : Writer) : Writer :=
  mkWriter (scope w) (heap w) (scopes_by_id w) (_module_path w) (_imports w)
    (_typing_imports w) (type_vars w) m (docstring w).

(** A computation returns a value or raises, and leaves a state either way. *)
Inductive outcome (A : Type) :=
| Ret (a : A) (w : Writer)
| Raise (e : exn) (w : Writer).
Arguments Ret {A} a w.
Arguments Raise {A} e w.

Definition M (A : Type) : Type := Writer -> outcome A.

#[global] Instance M_ret : MRet M := fun A a w => Ret a w.
#[global] Instance M_bind : MBind M := fun A B f m w =>
  match m w with
  | Ret a w' => f a w'
  | Raise e w' => Raise e w'
  end.

Definition raise {A} (e : exn) : M A := fun w => Raise e w.
Definition get_state : M Writer := fun w => Ret w w.
Definition modify (f : Writer -> Writer) : M unit := fun w => Ret tt (f w).

(** [try: body except e: pass] *)
Definition try_except_pass (e : exn) (body : M unit) : M unit := fun w =>
  match body w with
  | Ret a w' => Ret a w'
  | Raise e' w' => if decide (e' = e) then Ret tt w' else Raise e' w'
  end.

(** [assert b] *)
Definition assert_ (b : bool) : M unit :=
  if b then mret tt else raise AssertionError.

(** A value that may be absent, with the exception its absence raises. *)
Definition from_option {A} (e : exn) (o : option A) : M A :=
  match o with
  | Some a => mret a
  | None => raise e
  end.

(** A dictionary with integer keys, in insertion order: [d[k]] and
    [d[k] = v] (an existing key keeps its position). *)
Fixpoint idict_get {V} (k : Z) (d : list (Z * V)) : option V :=
  match d with
  | [] => None
  | (k', v) :: d' => if Z.eqb k k' then Some v else idict_get k d'
  end.

Fixpoint idict_set {V} (k : Z) (v : V) (d : list (Z * V)) : list (Z * V) :=
  match d with
  | [] => [(k, v)]
  | (k', v') :: d' =>
      if Z.eqb k k' then (k, v) :: d' else (k', v') :: idict_set k v d'
  end.

(** ** class Scope *)

(** The chain of parents, nearest first.  A parent is always an older
    object than its child, so the heap's size bounds the chain. *)
Fixpoint parent_chain (fuel : nat) (h : list Scope.t) (o : option ref)
  : list ref :=
  match fuel, o with
  | S fuel', Some r =>
      match h !! r with
      | Some s => r :: parent_chain fuel' h (Scope.parent s)
      | None => []
      end
  | _, _ => []
  end.

(** [scope.parents]: all parents, the root first. *)
Definition parents (h : list Scope.t) (s : Scope.t) : list ref :=
  rev (parent_chain (length h) h (Scope.parent s)).

(** [scope.trace], for the scope object at [r]. *)
Definition trace (h : list Scope.t) (r : ref) : list ref :=
  match h !! r with
  | Some s => parents h s ++ [r]
  | None => []
  end.

(** [scope.root] *)
Definition root (h : list Scope.t) (r : ref) : ref :=
  match h !! r with
  | Some s => match parents h s with
              | [] => r
              | p :: _ => p
              end
  | None => r
  end.

(** [scope.is_root] is [self.root == self], an equality of dataclasses,
    field by field.  A scope without parent is its own root; a scope with
    a parent differs from its root in the [parent] field at the latest
    ([None] against a scope).  So it holds exactly for a scope without
    parent. *)
Definition is_root (s : Scope.t) : bool :=
  match Scope.parent s with
  | None => true
  | Some _ => false
  end.

(** [scope.indent_spaces] *)
Definition indent_spaces (h : list Scope.t) (s : Scope.t) : nat :=
  (length (parents h s) * INDENT_SPACES)%nat.

(** The text that [add_line] appends. *)
Definition indented (n : nat) (line : string) : string :=
  if String.eqb line "" then "" else Str.repeat " " n +:+ line.

(** [scope.trace_as_str(delimiter)], for the scope object at [r].  The
    names of the scopes of the trace that are not the root are joined. *)
Definition trace_names (h : list Scope.t) (r : ref) : list string :=
  omap (fun r' => match h !! r' with
                  | Some s => if is_root s then None else Some (Scope.name s)
                  | None => None
                  end) (trace h r).

Definition trace_as_str (delimiter : string) (h : list Scope.t) (r : ref)
  : string :=
  Str.join delimiter (trace_names h r).

(** [Scope.__repr__] *)
Definition scope_repr (h : list Scope.t) (r : ref) : string :=
  trace_as_str "." h r.

(** [scope.add_line(line)], for the scope object at [r]. *)
Definition add_line_at (r : ref) (line : string) : M unit := fun w =>
  match heap w !! r with
  | Some s =>
      Ret tt (set_heap
         (<[r := Scope.add_lines [indented (indent_spaces (heap w) s) line] s]>
            (heap w)) w)
  | None => Raise DanglingRef w
  end.

(** [self.scope.add_line(line)] *)
Definition add_line (line : string) : M unit := fun w =>
  add_line_at (scope w) line w.

(** [Scope(name, id, parent, return_scope)] with [__post_init__]: the new
    object is allocated at the end of the heap. *)
Definition new_Scope (name : string) (id : Z) (parent return_scope : option ref)
  : M ref := fun w =>
  let s := Scope.mk name id parent return_scope [] in
  if Bool.eqb (is_root s) (String.eqb name "")
  then Ret (length (heap w)) (set_heap (heap w ++ [s]) w)
  else Raise AssertionError w.

(** ** class Writer *)

Section Writer.

(** [self._module], [self._module_registry] and the schema graph that
    pycapnp loaded; none of them is modified by the writer. *)
Variable module : Module_.t.
Variable module_registry : ModuleRegistryType.
Variable graph : list Node.t.

(** The schema object of the node with identity [type_id]. *)
Definition get_schema (type_id : Z) : M Node.t :=
  from_option CapnpError
    (find (fun n => Z.eqb (Node.id n) type_id) graph).

(** [raw_field.schema] for a field (or a list element) of struct type:
    a [StructSchema].  pycapnp refuses a node that is no struct. *)
Definition struct_schema (type_id : Z) : M Node.t :=
  schema ← get_schema type_id;
  if String.eqb (Node.which schema) "struct" then mret schema
  else raise CapnpError.

(** [raw_field.schema] for a field (or a list element) of enum type: an
    [EnumSchema].  pycapnp refuses a node that is no enum. *)
Definition enum_schema (type_id : Z) : M Node.t :=
  schema ← get_schema type_id;
  if String.eqb (Node.which schema) "enum" then mret schema
  else raise CapnpError.

(** [schema.get_nested(name)] on the module's root schema. *)
Definition get_nested (name : string) : M Node.t :=
  match find (fun '(n, _) => String.eqb n name)
             (Node.nestedNodes (Module_.schema module)) with
  | Some (_, i) => get_schema i
  | None => raise CapnpError
  end.

(** [Writer.__init__] *)
Definition init : exn + Writer :=
  match Module_.file module with
  | Some f =>
      if String.eqb f "" then inl ValueError else
      let path := Path.of_string f in
      inr {| scope := 0%nat;
             heap := [Scope.mk "" (Node.id (Module_.schema module)) None None []];
             scopes_by_id := [(Node.id (Module_.schema module), 0%nat)];
             _module_path := path;
             _imports := {["from __future__ import annotations"]};
             _typing_imports := ∅;
             type_vars := ∅;
             type_map := ∅;
             docstring :=
               quote +:+ quote +:+ quote
               +:+ "This is an automatically generated stub for `"
               +:+ Path.name path +:+ "`." +:+ quote +:+ quote +:+ quote |}
  | None => inl ValueError
  end.

Definition _add_typing_import (module_name : string) : M unit :=
  modify (fun w => set_typing_imports ({[module_name]} ∪ _typing_imports w) w).

Definition _add_import (import_line : string) : M unit :=
  modify (fun w => set_imports ({[import_line]} ∪ _imports w) w).

Definition _add_enum_import : M unit :=
  _add_import "from enum import Enum".

Definition base_module_name : string :=
  Node.displayName (Module_.schema module).

Definition get_display_name (schema : Node.t) : string :=
  Str.drop (Node.displayNamePrefixLength schema) (Node.displayName schema).

Definition is_type_id_known (type_id : Z) : M bool := fun w =>
  Ret (bool_decide (is_Some (type_map w !! type_id))) w.

Definition get_type_by_id (type_id : Z) : M CapnpType.t := fun w =>
  match type_map w !! type_id with
  | Some t => Ret t w
  | None => Raise KeyError w
  end.

Definition register_type (type_id : Z) (schema : Node.t) (name : string)
    (scope_arg : option ref) : M CapnpType.t := fun w =>
  let name := if String.eqb name "" then get_display_name schema else name in
  let scope_arg :=
    match scope_arg with
    | Some r => Some r
    | None => s ← heap w !! scope w; Scope.parent s
    end in
  match scope_arg with
  | None => Raise ValueError w
  | Some r =>
      let retval := CapnpType.mk schema name r [] in
      Ret retval (set_type_map (<[type_id := retval]> (type_map w)) w)
  end.

(** [registered_type.generic_params = params], on the object that
    [register_type] has just stored under [type_id]. *)
Definition set_generic_params (type_id : Z) (registered_type : CapnpType.t)
    (params : list string) : M CapnpType.t := fun w =>
  let t := CapnpType.mk (CapnpType.schema registered_type)
             (CapnpType.name registered_type)
             (CapnpType.scope registered_type) params in
  Ret t (set_type_map (<[type_id := t]> (type_map w)) w).

Definition register_type_var (name : string) : M string := fun w =>
  let full_name := trace_as_str "_" (heap w) (scope w) +:+ "_" +:+ name in
  Ret full_name (set_type_vars ({[full_name]} ∪ type_vars w) w).

Definition new_scope (name : string) (node : Node.t) (scope_heading : string)
  : M unit :=
  w ← get_state;
  parent_scope ← from_option NoParentError
                   (idict_get (Node.scopeId node) (scopes_by_id w));
  add_line_at parent_scope scope_heading;;
  child_scope ← new_Scope name (Node.id node) (Some parent_scope)
                  (Some (scope w));
  modify (set_scope child_scope);;
  modify (fun w =>
    set_scopes_by_id (idict_set (Node.id node) child_scope (scopes_by_id w)) w).

Definition return_from_scope : M unit :=
  w ← get_state;
  s ← from_option DanglingRef (heap w !! scope w);
  assert_ (negb (is_root s));;
  p ← from_option DanglingRef (Scope.parent s);
  ps ← from_option DanglingRef (heap w !! p);
  modify (set_heap (<[p := Scope.add_lines (Scope.lines s) ps]> (heap w)));;
  r ← from_option DanglingRef (Scope.return_scope s);
  modify (set_scope r).

Definition gen_const (schema : Node.t) : M unit :=
  assert_ (String.eqb (Node.which schema) CapnpElementType.CONST);;
  let name := get_display_name schema in
  match Node.body schema with
  | NConst ty =>
      python_type ← from_option KeyError (dict_get (which ty) CAPNP_TYPE_TO_PYTHON);
      add_line (name +:+ ": " +:+ python_type)
  | _ => raise CapnpError
  end.

(** The module of the registry that lists [type_id] among its nested
    nodes; a later module overrides an earlier one. *)
Definition find_matching_path (type_id : Z) : option Path.t :=
  fold_left
    (fun matching_path '(_, (path, m)) =>
       if existsb (fun '(_, i) => Z.eqb i type_id)
            (Node.nestedNodes (Module_.schema m))
       then Some (Path.of_string path)
       else matching_path)
    module_registry None.

(** The longest common prefix of two lists of path components. *)
Fixpoint common_prefix (a b : list string) : list string :=
  match a, b with
  | x :: a', y :: b' => if String.eqb x y then x :: common_prefix a' b' else []
  | _, _ => []
  end.

(** [os.path.commonpath([p, q])]: the result starts with one slash when
    the paths are absolute, whatever their roots. *)
Definition commonpath (p q : Path.t) : M Path.t :=
  if Bool.eqb (Path.is_absolute p) (Path.is_absolute q)
  then mret (Path.mk (if Path.is_absolute p then "/" else "")
               (common_prefix (Path.parts p) (Path.parts q)))
  else raise ValueError.

Fixpoint strip_prefix (pre l : list string) : option (list string) :=
  match pre, l with
  | [], _ => Some l
  | x :: pre', y :: l' => if String.eqb x y then strip_prefix pre' l' else None
  | _ :: _, [] => None
  end.

(** [p.relative_to(other)]: the roots have to be the same. *)
Definition relative_to (p other : Path.t) : M Path.t :=
  if String.eqb (Path.root p) (Path.root other)
  then match strip_prefix (Path.parts other) (Path.parts p) with
       | Some rest => mret (Path.mk "" rest)
       | None => raise ValueError
       end
  else raise ValueError.

(** The import path that [register_import] builds. *)
Definition python_import_path (relative_module_path relative_import_path : Path.t)
  : string :=
  Str.repeat "." (Path.parents_len relative_module_path)
  +:+ replace_capnp_suffix (Str.join "." (Path.parts relative_import_path)).

Definition register_import (schema : Node.t) : M (option CapnpType.t) :=
  match Str.split ":" (Node.displayName schema) with
  | [module_name; definition_name] =>
      if String.eqb module_name base_module_name then mret None else
      matching_path ← from_option AssertionError
                        (find_matching_path (Node.id schema));
      w ← get_state;
      common_path ← commonpath (_module_path w) matching_path;
      relative_module_path ← relative_to (_module_path w) common_path;
      relative_import_path ← relative_to matching_path common_path;
      _add_import ("from "
        +:+ python_import_path relative_module_path relative_import_path
        +:+ " import " +:+ definition_name);;
      w ← get_state;
      t ← register_type (Node.id schema) schema definition_name
            (Some (root (heap w) (scope w)));
      mret (Some t)
  | _ => raise ValueError
  end.

Definition enum_member_name (enumerant : string) : string :=
  if Str.mem enumerant kwlist then enumerant +:+ "_" else enumerant.

Definition enum_member_line (enumerant : string) : string :=
  enum_member_name enumerant +:+ ": str = " +:+ quote +:+ enumerant +:+ quote.

Fixpoint add_lines (ls : list string) : M unit :=
  match ls with
  | [] => mret tt
  | l :: ls' => add_line l;; add_lines ls'
  end.

Definition gen_enum (schema : Node.t) : M (option CapnpType.t) :=
  assert_ (String.eqb (Node.which schema) CapnpElementType.ENUM);;
  imported ← register_import schema;
  match imported with
  | Some t => mret (Some t)
  | None =>
      let name := get_display_name schema in
      _add_enum_import;;
      new_scope name schema ("class " +:+ name +:+ "(str, Enum):");;
      register_type (Node.id schema) schema name None;;
      match Node.body schema with
      | NEnum enumerants => add_lines (map enum_member_line enumerants)
      | _ => raise CapnpError
      end;;
      return_from_scope;;
      mret None
  end.

(** [f"{t.scope}.{type_name}"] unless the scope of [t] is the root. *)
Definition scoped_name_of (t : CapnpType.t) (type_name : string) : M string :=
  w ← get_state;
  s ← from_option DanglingRef (heap w !! CapnpType.scope t);
  if negb (is_root s)
  then mret (scope_repr (heap w) (CapnpType.scope t) +:+ "." +:+ type_name)
  else mret type_name.

Fixpoint get_type_name (type_reader : Ty) : M string :=
  match dict_get (which type_reader) CAPNP_TYPE_TO_PYTHON with
  | Some python_type => mret python_type
  | None =>
      match type_reader with
      | TStruct typeId brand =>
          element_type ← get_type_by_id typeId;
          generic_params ←
            (fix scopes (bs : list BrandScope) (acc : list string)
               : M (list string) :=
               match bs with
               | [] => mret acc
               | BInherit scopeId :: bs' =>
                   parent_scope ← get_type_by_id scopeId;
                   scopes bs' (acc ++ CapnpType.generic_params parent_scope)
               | BBind _ bind :: bs' =>
                   acc' ←
                     (fix binds (l : list Binding) (acc : list string)
                        : M (list string) :=
                        match l with
                        | [] => mret acc
                        | BType t :: l' =>
                            n ← get_type_name t; binds l' (acc ++ [n])
                        | BUnbound :: _ => raise CapnpError
                        end) bind acc;
                   scopes bs' acc'
               end) brand [];
          let type_name :=
            match generic_params with
            | [] => CapnpType.name element_type
            | _ => CapnpType.name element_type
                   +:+ "[" +:+ Str.join ", " generic_params +:+ "]"
            end in
          scoped_name_of element_type type_name
      | TEnum typeId =>
          element_type ← get_type_by_id typeId;
          scoped_name_of element_type (CapnpType.name element_type)
      | _ => raise TypeError
      end
  end.

(** [schema.node.struct.fields] *)
Definition struct_fields (schema : Node.t) : M (list Field.t) :=
  match Node.body schema with
  | NStruct fields _ => mret fields
  | _ => raise CapnpError
  end.

Definition struct_discriminantCount (schema : Node.t) : Z :=
  match Node.body schema with
  | NStruct _ n => n
  | _ => 0
  end.

(** The parameters that the fields of a generic reference. *)
Fixpoint referenced_params (fields : list Field.t) (acc : list string)
  : M (list string) :=
  match fields with
  | [] => mret acc
  | field :: rest =>
      match Field.body field with
      | FGroup _ => raise CapnpError     (* [field.slot] of a group field *)
      | FSlot (TAnyPointer (APParameter scopeId parameterIndex)) =>
          t ← get_type_by_id scopeId;
          let source_params := Node.parameters (CapnpType.schema t) in
          p ← from_option IndexError (source_params !! parameterIndex);
          referenced_params rest (acc ++ [p])
      | FSlot _ => referenced_params rest acc
      end
  end.

Definition gen_generic (schema : Node.t) : M (list string) :=
  _add_typing_import "TypeVar";;
  _add_typing_import "Generic";;
  let generic_params := Node.parameters schema in
  fields ← struct_fields schema;
  referenced ← referenced_params fields [];
  mapM register_type_var (generic_params ++ referenced).

(** A method that takes [schema], called with no argument: Python raises
    [TypeError] before the body runs. *)
Definition call_without_argument {A} (method : Node.t -> M A) : M A :=
  raise TypeError.

Section Recursion.

(** The recursive reference to [gen_struct]. *)
Variable self_gen_struct : Node.t -> string -> M CapnpType.t.

Definition generate_nested_with (schema : Node.t) : M unit :=
  known ← is_type_id_known (Node.id schema);
  if (known : bool) then mret tt else
  let node_type := Node.which schema in
  if String.eqb node_type "const" then gen_const schema
  else if String.eqb node_type "struct" then
    self_gen_struct schema "";; mret tt
  else if String.eqb node_type "enum" then
    gen_enum schema;; mret tt
  else if String.eqb node_type "interface" then
    mret tt                              (* a warning is logged *)
  else raise AssertionError.

(** [if not self.is_type_id_known(type_id): self.generate_nested(schema)],
    where [raw_schema] fetches the schema object of [type_id]. *)
Definition ensure_nested (type_id : Z) (raw_schema : M Node.t) : M unit :=
  known ← is_type_id_known type_id;
  if (known : bool) then mret tt
  else schema ← raw_schema; generate_nested_with schema.

Definition gen_list_slot (field : Field.t) (contructor_kwargs : list string)
  : M (list string) :=
  match Field.body field with
  | FSlot (TList elementType) =>
      let list_slot_type := which elementType in
      (if String.eqb list_slot_type CapnpElementType.STRUCT then
         match elementType with
         | TStruct typeId _ => ensure_nested typeId (struct_schema typeId)
         | _ => raise CapnpError
         end
       else if String.eqb list_slot_type CapnpElementType.ENUM then
         match elementType with
         | TEnum typeId => ensure_nested typeId (enum_schema typeId)
         | _ => raise CapnpError
         end
       else mret tt);;
      type_name ← get_type_name elementType;
      let field_py_code := Field.name field +:+ ": List[" +:+ type_name +:+ "]" in
      add_line field_py_code;;
      _add_typing_import "List";;
      mret (contructor_kwargs ++ [field_py_code])
  | _ => raise CapnpError
  end.

Definition gen_python_type_slot (field : Field.t) (field_slot_type : string)
    (contructor_kwargs : list string) : M (list string) :=
  python_type_name ← from_option KeyError
                       (dict_get field_slot_type CAPNP_TYPE_TO_PYTHON);
  let field_py_code := Field.name field +:+ ": " +:+ python_type_name in
  add_line field_py_code;;
  mret (contructor_kwargs ++ [field_py_code]).

Definition gen_enum_slot (field : Field.t) (contructor_kwargs : list string)
  : M (list string) :=
  match Field.body field with
  | FSlot (TEnum typeId as ty) =>
      known ← is_type_id_known typeId;
      (if (known : bool) then mret tt
       else try_except_pass NoParentError
              (schema ← enum_schema typeId; generate_nested_with schema));;
      type_name ← get_type_name ty;
      let field_py_code := Field.name field +:+ ": " +:+ type_name in
      add_line field_py_code;;
      mret (contructor_kwargs ++ [field_py_code])
  | _ => raise CapnpError
  end.

Definition gen_struct_slot (field : Field.t) (contructor_kwargs : list string)
    (init_choices : list (string * string))
  : M (list string * list (string * string)) :=
  match Field.body field with
  | FSlot (TStruct typeId _ as ty) =>
      elem_type ← struct_schema typeId;
      known ← is_type_id_known (Node.id elem_type);
      (if (known : bool) then mret tt else self_gen_struct elem_type "";; mret tt);;
      type_name ← get_type_name ty;
      let field_py_code := Field.name field +:+ ": " +:+ type_name in
      add_line field_py_code;;
      mret (contructor_kwargs ++ [field_py_code],
            init_choices ++ [(Field.name field, type_name)])
  | _ => raise CapnpError
  end.

Definition gen_any_pointer_slot (field : Field.t)
    (registered_type : CapnpType.t) (contructor_kwargs : list string)
  : M (list string) :=
  match Field.body field with
  | FSlot (TAnyPointer (APParameter _ parameterIndex)) =>
      type_name ← from_option IndexError
                    (CapnpType.generic_params registered_type !! parameterIndex);
      let field_py_code := Field.name field +:+ ": " +:+ type_name in
      add_line field_py_code;;
      mret (contructor_kwargs ++ [field_py_code])
  | _ => raise CapnpError      (* [anyPointer.parameter] is not the active member *)
  end.

Definition gen_slot_with (schema : Node.t) (field : Field.t)
    (registered_type : CapnpType.t) (contructor_kwargs : list string)
    (init_choices : list (string * string))
  : M (list string * list (string * string)) :=
  match Field.body field with
  | FSlot ty =>
      let field_slot_type := which ty in
      if String.eqb field_slot_type CapnpSlotType.LIST then
        kw ← gen_list_slot field contructor_kwargs; mret (kw, init_choices)
      else if bool_decide (is_Some (dict_get field_slot_type CAPNP_TYPE_TO_PYTHON)) then
        kw ← gen_python_type_slot field field_slot_type contructor_kwargs;
        mret (kw, init_choices)
      else if String.eqb field_slot_type CapnpSlotType.ENUM then
        kw ← gen_enum_slot field contructor_kwargs; mret (kw, init_choices)
      else if String.eqb field_slot_type CapnpSlotType.STRUCT then
        gen_struct_slot field contructor_kwargs init_choices
      else if String.eqb field_slot_type CapnpSlotType.ANY_POINTER then
        kw ← gen_any_pointer_slot field registered_type contructor_kwargs;
        mret (kw, init_choices)
      else raise AssertionError
  | FGroup _ => raise CapnpError
  end.

(** The group's type name: [field.name[0].upper() + field.name[1:]]. *)
Definition group_type_name (field_name : string) : M string :=
  match field_name with
  | EmptyString => raise IndexError
  | String c rest => mret (String (Str.upper_char c) rest)
  end.

(** The local variables of [gen_struct] that the loop over the fields
    updates. *)
Record StructLocals := mkLocals {
  definition_has_body : bool;
  contructor_kwargs : list string;
  init_choices : list (string * string) }.

(** The body of the loop over the fields of a struct. *)
Definition gen_field (schema : Node.t) (registered_type : CapnpType.t)
    (field : Field.t) (l : StructLocals) : M StructLocals :=
  let field_type := Field.which field in
  if String.eqb field_type CapnpFieldType.SLOT then
    '(kw, ch) ← gen_slot_with schema field registered_type
                  (contructor_kwargs l) (init_choices l);
    mret (mkLocals true kw ch)
  else if String.eqb field_type CapnpFieldType.GROUP then
    match Field.body field with
    | FGroup typeId =>
        group_name ← group_type_name (Field.name field);
        assert_ (negb (String.eqb group_name (Field.name field)));;
        raw_schema ← struct_schema typeId;
        t ← self_gen_struct raw_schema group_name;
        let group_name := CapnpType.name t in
        let field_py_code := Field.name field +:+ ": " +:+ group_name in
        add_line field_py_code;;
        mret (mkLocals true (contructor_kwargs l ++ [field_py_code])
                (init_choices l ++ [(Field.name field, group_name)]))
    | _ => raise CapnpError
    end
  else raise AssertionError.

Fixpoint gen_fields (schema : Node.t) (registered_type : CapnpType.t)
    (fields : list Field.t) (l : StructLocals) : M StructLocals :=
  match fields with
  | [] => mret l
  | field :: rest =>
      l' ← gen_field schema registered_type field l;
      gen_fields schema registered_type rest l'
  end.

(** The return type of the selector: the literals of the fields that
    belong to the union. *)
Definition which_literals (fields : list Field.t) : list string :=
  map (fun field => "Literal[" +:+ quote +:+ Field.name field +:+ quote +:+ "]")
      (filter (fun field => Field.discriminantValue field <> 65535) fields).

Definition which_line (fields : list Field.t) : string :=
  "def which(self) -> Union[" +:+ Str.join ", " (which_literals fields)
  +:+ "]: ...".

Definition init_line (choice : string * string) : string :=
  "def init(self, name: Literal[" +:+ quote +:+ choice.1 +:+ quote +:+ "])"
  +:+ " -> " +:+ choice.2 +:+ ": ...".

Fixpoint add_overloads (choices : list (string * string)) : M unit :=
  match choices with
  | [] => mret tt
  | c :: rest => add_line "@overload";; add_line (init_line c);; add_overloads rest
  end.

(** [gen_struct] after the loop over the fields. *)
Definition gen_struct_end (schema : Node.t) (registered_type : CapnpType.t)
    (type_name : string) (fields : list Field.t) (l : StructLocals)
  : M CapnpType.t :=
  scoped_name ← scoped_name_of registered_type type_name;
  add_line "@staticmethod";;
  add_line ("def from_bytes(data: bytes) -> " +:+ scoped_name +:+ ": ...");;
  add_line "def to_bytes(self) -> bytes: ...";;
  let definition_has_body := true in
  (if negb (Z.eqb (struct_discriminantCount schema) 0) then
     _add_typing_import "Literal";;
     _add_typing_import "Union";;
     add_line (which_line fields)
   else mret tt);;
  (match contructor_kwargs l with
   | [] => mret tt
   | kws =>
       let kwargs := Str.join ", " (map (fun kwarg => kwarg +:+ " = ...") kws) in
       add_line ("def __init__(self, *, " +:+ kwargs +:+ ") -> None: ...")
   end);;
  (if (1 <? length (init_choices l))%nat then
     _add_typing_import "Literal";;
     _add_typing_import "overload";;
     add_overloads (init_choices l)
   else match init_choices l with
        | [c] => _add_typing_import "Literal";; add_line (init_line c)
        | _ => mret tt
        end);;
  (if negb definition_has_body then add_line "pass" else mret tt);;
  return_from_scope;;
  mret registered_type.

Definition gen_struct_body (schema : Node.t) (type_name : string)
  : M CapnpType.t :=
  assert_ (String.eqb (Node.which schema) CapnpElementType.STRUCT);;
  imported ← register_import schema;
  match imported with
  | Some t => mret t
  | None =>
      let type_name :=
        if String.eqb type_name "" then get_display_name schema else type_name in
      registered_params ←
        (if Node.isGeneric schema then call_without_argument gen_generic
         else mret []);
      let scope_decl_line :=
        match registered_params with
        | [] => "class " +:+ type_name +:+ ":"
        | _ => "class " +:+ type_name +:+ "(Generic["
               +:+ Str.join ", " registered_params +:+ "]):"
        end in
      new_scope type_name schema scope_decl_line;;
      registered_type ← register_type (Node.id schema) schema type_name None;
      registered_type ← set_generic_params (Node.id schema) registered_type
                          registered_params;
      let type_name := CapnpType.name registered_type in
      fields ← struct_fields schema;
      l ← gen_fields schema registered_type fields (mkLocals false [] []);
      gen_struct_end schema registered_type type_name fields l
  end.

End Recursion.

(** [gen_struct], with a bound on the depth of the recursion. *)
Fixpoint gen_struct (fuel : nat) : Node.t -> string -> M CapnpType.t :=
  match fuel with
  | O => fun _ _ => raise RecursionError
  | S fuel' => gen_struct_body (gen_struct fuel')
  end.

Definition generate_nested (fuel : nat) : Node.t -> M unit :=
  generate_nested_with (gen_struct fuel).

Definition gen_slot (fuel : nat) :=
  gen_slot_with (gen_struct fuel).

Fixpoint generate_each (fuel : nat) (nodes : list (string * Z)) : M unit :=
  match nodes with
  | [] => mret tt
  | (name, _) :: rest =>
      schema ← get_nested name;
      generate_nested fuel schema;;
      generate_each fuel rest
  end.

Definition generate_recursive (fuel : nat) : M unit :=
  generate_each fuel (Node.nestedNodes (Module_.schema module)).

(** ** Output *)

Section Output.

(** The order in which Python iterates over a set of strings.  It
    depends on the hashes of the strings, which CPython salts anew in
    each process; all that is known is that every element comes once. *)
Variable set_iter : gset string -> list string.

Definition imports (w : Writer) : list string :=
  set_iter (_imports w)
  ++ (if bool_decide (_typing_imports w = ∅) then []
      else ["from typing import "
            +:+ Str.join ", " (Str.sorted (set_iter (_typing_imports w)))]).

Definition type_var_line (name : string) : string :=
  name +:+ " = TypeVar(" +:+ quote +:+ name +:+ quote +:+ ")".

Definition newline : string := String "010"%char EmptyString.

Definition dumps_pyi_lines (w : Writer) : list string :=
  [docstring w] ++ imports w ++ [""]
  ++ (if bool_decide (type_vars w = ∅) then []
      else map type_var_line (Str.sorted (set_iter (type_vars w))) ++ [""])
  ++ match heap w !! scope w with
     | Some s => Scope.lines s
     | None => []
     end.

Definition root_is_current (w : Writer) : bool :=
  match heap w !! scope w with
  | Some s => is_root s
  | None => false
  end.

Definition dumps_pyi (w : Writer) : exn + string :=
  if root_is_current w then inr (Str.join newline (dumps_pyi_lines w))
  else inl AssertionError.

End Output.

Definition dumps_py_lines (w : Writer) : list string :=
  [ docstring w; "import os"; "import capnp"; "capnp.remove_import_hook()";
    "here = os.path.dirname(os.path.abspath(__file__))";
    "module_file = os.path.abspath(os.path.join(here, " +:+ quote
      +:+ base_module_name +:+ quote +:+ "))" ]
  ++ omap (fun '(_, r) =>
       s ← heap w !! r;
       p ← Scope.parent s;
       ps ← heap w !! p;
       if is_root ps
       then Some (Scope.name s +:+ " = capnp.load(module_file)." +:+ Scope.name s)
       else None) (scopes_by_id w).

Definition dumps_py (w : Writer) : exn + string :=
  if root_is_current w then inr (Str.join newline (dumps_py_lines w))
  else inl AssertionError.

End Writer.

(** * Reasoning about writer computations *)

(** [post m w Q]: if [m] returns from [w], the result and the final state
    satisfy [Q]. *)
Definition post {A} (m : M A) (w : Writer) (Q : A -> Writer -> Prop) : Prop :=
  match m w with
  | Ret a w' => Q a w'
  | Raise _ _ => True
  end.

Lemma bind_eq {A B} (m : M A) (f : A -> M B) w :
  (m ≫= f) w = match m w with
               | Ret a w' => f a w'
               | Raise e w' => Raise e w'
               end.
Proof. reflexivity. Qed.

Lemma bind_Ret {A B} (m : M A) (f : A -> M B) w a w' :
  m w = Ret a w' -> (m ≫= f) w = f a w'.
Proof. intros H. rewrite bind_eq, H. reflexivity. Qed.

Lemma bind_Raise {A B} (m : M A) (f : A -> M B) w e w' :
  m w = Raise e w' -> (m ≫= f) w = Raise e w'.
Proof. intros H. rewrite bind_eq, H. reflexivity. Qed.

Lemma bind_inv {A B} (m : M A) (f : A -> M B) w b w'' :
  (m ≫= f) w = Ret b w'' ->
  exists a w', m w = Ret a w' /\ f a w' = Ret b w''.
Proof.
  rewrite bind_eq. destruct (m w) as [a w'|e w']; [|discriminate].
  intros H. exists a, w'. split; [reflexivity | exact H].
Qed.

Lemma post_ret {A} (a : A) w (Q : A -> Writer -> Prop) :
  Q a w -> post (mret a) w Q.
Proof. intros H. exact H. Qed.

Lemma post_raise {A} e w (Q : A -> Writer -> Prop) : post (raise e) w Q.
Proof. exact I. Qed.

Lemma post_bind {A B} (m : M A) (f : A -> M B) w (Q : B -> Writer -> Prop) :
  post m w (fun a w' => post (f a) w' Q) -> post (m ≫= f) w Q.
Proof.
  unfold post. rewrite bind_eq. destruct (m w); [intros H; exact H | trivial].
Qed.

Lemma post_mono {A} (m : M A) w (P Q : A -> Writer -> Prop) :
  post m w P -> (forall a w', P a w' -> Q a w') -> post m w Q.
Proof. unfold post. destruct (m w); auto. Qed.

Lemma post_elim {A} (m : M A) w (Q : A -> Writer -> Prop) a w' :
  post m w Q -> m w = Ret a w' -> Q a w'.
Proof. unfold post. intros H E. rewrite E in H. exact H. Qed.

Lemma post_intro {A} (m : M A) w (Q : A -> Writer -> Prop) :
  (forall a w', m w = Ret a w' -> Q a w') -> post m w Q.
Proof. unfold post. destruct (m w); auto. Qed.

Lemma post_from_option {A} e (o : option A) w (Q : A -> Writer -> Prop) :
  (forall a, o = Some a -> Q a w) -> post (from_option e o) w Q.
Proof. destruct o; [intros H; apply H; reflexivity | intros _; exact I]. Qed.

Lemma post_assert b w (Q : unit -> Writer -> Prop) :
  (b = true -> Q tt w) -> post (assert_ b) w Q.
Proof. destruct b; [intros H; apply H; reflexivity | intros _; exact I]. Qed.

Lemma post_get_state w (Q : Writer -> Writer -> Prop) :
  Q w w -> post get_state w Q.
Proof. intros H. exact H. Qed.

Lemma post_modify f w (Q : unit -> Writer -> Prop) :
  Q tt (f w) -> post (modify f) w Q.
Proof. intros H. exact H. Qed.

(** ** What a computation may change

    [grows w w']: the scope objects of [w] are still there, with lines
    appended and nothing else changed; the registered types are still
    registered.  [extends w w']: moreover the current scope is the same. *)
Record grows (w w' : Writer) : Prop := mkGrows {
  grows_path : _module_path w' = _module_path w;
  grows_heap : forall i s, heap w !! i = Some s ->
               exists extra, heap w' !! i = Some (Scope.add_lines extra s);
  grows_types : forall i, is_Some (type_map w !! i) -> is_Some (type_map w' !! i) }.

Definition extends (w w' : Writer) : Prop :=
  scope w' = scope w /\ grows w w'.

Lemma add_lines_nil s : Scope.add_lines [] s = s.
Proof. destruct s. unfold Scope.add_lines. simpl. rewrite app_nil_r. reflexivity. Qed.

Lemma add_lines_app a b s :
  Scope.add_lines b (Scope.add_lines a s) = Scope.add_lines (a ++ b) s.
Proof. unfold Scope.add_lines. simpl. rewrite app_assoc. reflexivity. Qed.

Lemma grows_refl w : grows w w.
Proof.
  split; auto. intros i s H. exists []. rewrite add_lines_nil. exact H.
Qed.

Lemma grows_trans w1 w2 w3 : grows w1 w2 -> grows w2 w3 -> grows w1 w3.
Proof.
  intros [P1 H1 T1] [P2 H2 T2]. split.
  - congruence.
  - intros i s Hs. destruct (H1 i s Hs) as [e1 E1].
    destruct (H2 i _ E1) as [e2 E2]. exists (e1 ++ e2).
    rewrite E2. f_equal. apply add_lines_app.
  - auto.
Qed.

Lemma extends_refl w : extends w w.
Proof. split; [reflexivity | apply grows_refl]. Qed.

Lemma extends_trans w1 w2 w3 : extends w1 w2 -> extends w2 w3 -> extends w1 w3.
Proof.
  intros [S1 G1] [S2 G2]. split; [congruence | eapply grows_trans; eauto].
Qed.

Lemma grows_length w w' : grows w w' -> (length (heap w) <= length (heap w'))%nat.
Proof.
  intros [_ H _]. destruct (heap w) as [|s0 l] eqn:E using rev_ind.
  - simpl. lia.
  - clear IHl. destruct (H (length l) s0) as [e He].
    + rewrite lookup_app_r by lia. rewrite Nat.sub_diag. reflexivity.
    + apply lookup_lt_Some in He. rewrite length_app. simpl. lia.
Qed.

(** Appending lines to the scope object at [r]. *)
Lemma grows_insert w r s extra :
  heap w !! r = Some s ->
  grows w (set_heap (<[r := Scope.add_lines extra s]> (heap w)) w).
Proof.
  intros Hr. split; simpl; auto.
  intros i s' Hi. destruct (decide (i = r)) as [->|Hne].
  - exists extra. rewrite list_lookup_insert_eq by (eapply lookup_lt_Some; eauto).
    congruence.
  - exists []. rewrite list_lookup_insert_ne by auto. rewrite add_lines_nil. exact Hi.
Qed.

Lemma extends_add_line_at r line w :
  post (add_line_at r line) w (fun _ w' => extends w w').
Proof.
  unfold post, add_line_at. destruct (heap w !! r) eqn:E; [|exact I].
  split; [reflexivity | apply grows_insert; exact E].
Qed.

Lemma extends_add_line line w :
  post (add_line line) w (fun _ w' => extends w w').
Proof. apply extends_add_line_at. Qed.

Lemma extends_set_imports w s : extends w (set_imports s w).
Proof. split; [reflexivity|]. split; simpl; auto. intros i x H. exists []. rewrite add_lines_nil. exact H. Qed.

Lemma extends_set_typing_imports w s : extends w (set_typing_imports s w).
Proof. split; [reflexivity|]. split; simpl; auto. intros i x H. exists []. rewrite add_lines_nil. exact H. Qed.

Lemma extends_set_type_vars w s : extends w (set_type_vars s w).
Proof. split; [reflexivity|]. split; simpl; auto. intros i x H. exists []. rewrite add_lines_nil. exact H. Qed.

Lemma extends_set_scopes_by_id w d : extends w (set_scopes_by_id d w).
Proof. split; [reflexivity|]. split; simpl; auto. intros i x H. exists []. rewrite add_lines_nil. exact H. Qed.

Lemma extends_insert_type w i t :
  extends w (set_type_map (<[i := t]> (type_map w)) w).
Proof.
  split; [reflexivity|]. split; simpl; auto.
  - intros j x H. exists []. rewrite add_lines_nil. exact H.
  - intros j Hj. destruct (decide (i = j)) as [->|Hne].
    + rewrite lookup_insert_eq. eauto.
    + rewrite lookup_insert_ne by auto. exact Hj.
Qed.

(** * Frame properties of the writer's methods *)

Section Frames.

Variable module : Module_.t.
Variable module_registry : ModuleRegistryType.
Variable graph : list Node.t.

Ltac post_step :=
  first
    [ apply post_bind
    | apply post_ret
    | apply post_raise
    | apply post_get_state
    | apply post_modify
    | apply post_from_option; intros ? ?
    | apply post_assert; intros ? ].

Lemma extends_add_typing_import name w :
  post (_add_typing_import name) w (fun _ w' => extends w w').
Proof. apply extends_set_typing_imports. Qed.

Lemma extends_add_import line w :
  post (_add_import line) w (fun _ w' => extends w w').
Proof. apply extends_set_imports. Qed.

Lemma extends_register_type i schema name sc w :
  post (register_type i schema name sc) w (fun _ w' => extends w w').
Proof.
  unfold post, register_type.
  destruct sc as [r|]; simpl.
  - apply extends_insert_type.
  - destruct (heap w !! scope w) as [s|]; simpl; [|exact I].
    destruct (Scope.parent s); [apply extends_insert_type | exact I].
Qed.

Lemma extends_set_generic_params i t ps w :
  post (set_generic_params i t ps) w (fun _ w' => extends w w').
Proof. apply extends_insert_type. Qed.

Lemma extends_register_type_var name w :
  post (register_type_var name) w (fun _ w' => extends w w').
Proof. apply extends_set_type_vars. Qed.

(** A step that extends the state, followed by a continuation. *)
Lemma post_bind_extends {A B} (m : M A) (f : A -> M B) w
    (Q : B -> Writer -> Prop) :
  post m w (fun _ w' => extends w w') ->
  (forall a w', extends w w' -> post (f a) w' Q) ->
  post (m ≫= f) w Q.
Proof.
  intros Hm Hf. apply post_bind. eapply post_mono; [exact Hm|].
  intros a w' He. apply Hf. exact He.
Qed.

Lemma extends_add_lines ls w :
  post (add_lines ls) w (fun _ w' => extends w w').
Proof.
  revert w. induction ls as [|l ls IH]; intros w.
  - apply extends_refl.
  - simpl. eapply post_bind_extends; [apply extends_add_line|].
    intros ? w1 E1. eapply post_mono; [apply IH|].
    intros ? w2 E2. eapply extends_trans; eauto.
Qed.

Lemma extends_gen_const schema w :
  post (gen_const schema) w (fun _ w' => extends w w').
Proof.
  unfold gen_const. apply post_bind. apply post_assert. intros _.
  destruct (Node.body schema); try exact I.
  apply post_bind. apply post_from_option. intros a _. apply extends_add_line.
Qed.

(** What [new_scope] does when the parent scope is registered. *)
Definition opened (name : string) (node : Node.t) (heading : string)
    (p : ref) (ps : Scope.t) (w : Writer) : Writer :=
  let r := length (heap w) in
  set_scopes_by_id (idict_set (Node.id node) r (scopes_by_id w))
    (set_scope r
       (set_heap
          (<[p := Scope.add_lines [indented (indent_spaces (heap w) ps) heading] ps]>
             (heap w)
           ++ [Scope.mk name (Node.id node) (Some p) (Some (scope w)) []])
          w)).

Lemma new_scope_eq name node heading p ps w :
  idict_get (Node.scopeId node) (scopes_by_id w) = Some p ->
  heap w !! p = Some ps ->
  name <> "" ->
  new_scope name node heading w = Ret tt (opened name node heading p ps w).
Proof.
  intros Hp Hps Hn. unfold new_scope.
  rewrite (bind_Ret _ _ w w w) by reflexivity.
  rewrite Hp. simpl.
  erewrite bind_Ret; [|reflexivity].
  erewrite bind_Ret; [|unfold add_line_at; rewrite Hps; reflexivity].
  unfold new_Scope. simpl.
  assert (String.eqb name "" = false) as -> by (apply String.eqb_neq; exact Hn).
  rewrite bind_eq. cbn. rewrite length_insert. reflexivity.
Qed.

Lemma new_scope_no_parent name node heading w :
  idict_get (Node.scopeId node) (scopes_by_id w) = None ->
  new_scope name node heading w = Raise NoParentError w.
Proof.
  intros Hp. unfold new_scope.
  rewrite (bind_Ret _ _ w w w) by reflexivity.
  rewrite Hp. reflexivity.
Qed.

Lemma new_scope_inv name node heading w w' :
  new_scope name node heading w = Ret tt w' ->
  exists p ps,
    idict_get (Node.scopeId node) (scopes_by_id w) = Some p /\
    heap w !! p = Some ps /\ name <> "" /\
    w' = opened name node heading p ps w.
Proof.
  intros H.
  destruct (idict_get (Node.scopeId node) (scopes_by_id w)) as [p|] eqn:Hp;
    [|rewrite new_scope_no_parent in H by exact Hp; discriminate].
  destruct (heap w !! p) as [ps|] eqn:Hps.
  - destruct (decide (name = "")) as [->|Hn].
    + exfalso. revert H. unfold new_scope.
      rewrite (bind_Ret _ _ w w w) by reflexivity.
      rewrite Hp. simpl.
      erewrite bind_Ret; [|reflexivity].
      erewrite bind_Ret; [|unfold add_line_at; rewrite Hps; reflexivity].
      unfold new_Scope. simpl. discriminate.
    + exists p, ps. rewrite (new_scope_eq _ _ _ p ps) in H by assumption.
      split; [reflexivity|]. split; [exact Hps|]. split; [exact Hn|].
      injection H as <-. reflexivity.
  - exfalso. revert H. unfold new_scope.
    rewrite (bind_Ret _ _ w w w) by reflexivity.
    rewrite Hp. simpl.
    erewrite bind_Ret; [|reflexivity].
    erewrite bind_Raise; [discriminate|].
    unfold add_line_at. rewrite Hps. reflexivity.
Qed.

Lemma grows_opened name node heading p ps w :
  heap w !! p = Some ps ->
  grows w (opened name node heading p ps w).
Proof.
  intros Hps. split; [reflexivity| |auto].
  intros i s Hi. pose proof (lookup_lt_Some _ _ _ Hi) as Hlt.
  unfold opened. cbn [heap set_scopes_by_id set_scope set_heap].
  rewrite lookup_app_l by (rewrite length_insert; exact Hlt).
  destruct (decide (i = p)) as [->|Hne].
  - rewrite Hps in Hi. injection Hi as <-.
    eexists. rewrite list_lookup_insert_eq by exact Hlt. reflexivity.
  - exists []. rewrite list_lookup_insert_ne by auto.
    rewrite add_lines_nil. exact Hi.
Qed.

Lemma opened_child name node heading p ps w :
  heap w !! p = Some ps ->
  heap (opened name node heading p ps w) !! length (heap w)
  = Some (Scope.mk name (Node.id node) (Some p) (Some (scope w)) []).
Proof.
  intros Hps. simpl. rewrite lookup_app_r by (rewrite length_insert; lia).
  rewrite length_insert, Nat.sub_diag. reflexivity.
Qed.

(** What [return_from_scope] does. *)
Definition closed (s : Scope.t) (p : ref) (ps : Scope.t) (r : ref)
    (w : Writer) : Writer :=
  set_scope r (set_heap (<[p := Scope.add_lines (Scope.lines s) ps]> (heap w)) w).

Lemma return_from_scope_eq s p ps r w :
  heap w !! scope w = Some s ->
  Scope.parent s = Some p ->
  heap w !! p = Some ps ->
  Scope.return_scope s = Some r ->
  return_from_scope w = Ret tt (closed s p ps r w).
Proof.
  intros Hs Hp Hps Hr. unfold return_from_scope.
  rewrite (bind_Ret _ _ w w w) by reflexivity.
  rewrite Hs. simpl. erewrite bind_Ret; [|reflexivity].
  unfold is_root. rewrite Hp. simpl.
  erewrite bind_Ret; [|reflexivity].
  erewrite bind_Ret; [|reflexivity].
  rewrite Hps. simpl. erewrite bind_Ret; [|reflexivity].
  erewrite bind_Ret; [|reflexivity].
  rewrite Hr. reflexivity.
Qed.

Lemma return_from_scope_inv w w' :
  return_from_scope w = Ret tt w' ->
  exists s p ps r,
    heap w !! scope w = Some s /\ Scope.parent s = Some p /\
    heap w !! p = Some ps /\ Scope.return_scope s = Some r /\
    w' = closed s p ps r w.
Proof.
  unfold return_from_scope. intros H.
  rewrite (bind_Ret _ _ w w w) in H by reflexivity.
  destruct (heap w !! scope w) as [s|] eqn:Hs; [|discriminate].
  simpl in H. erewrite bind_Ret in H; [|reflexivity].
  unfold is_root in H.
  destruct (Scope.parent s) as [p|] eqn:Hp; [|discriminate].
  simpl in H. erewrite bind_Ret in H; [|reflexivity].
  erewrite bind_Ret in H; [|reflexivity].
  destruct (heap w !! p) as [ps|] eqn:Hps; [|discriminate].
  simpl in H. erewrite bind_Ret in H; [|reflexivity].
  erewrite bind_Ret in H; [|reflexivity].
  destruct (Scope.return_scope s) as [r|] eqn:Hr; [|discriminate].
  exists s, p, ps, r.
  do 4 (split; [first [assumption | reflexivity]|]).
  cbn in H. injection H as <-. reflexivity.
Qed.

Lemma grows_closed s p ps r w :
  heap w !! p = Some ps -> grows w (closed s p ps r w).
Proof.
  intros Hps. unfold closed.
  eapply grows_trans; [apply (grows_insert w p ps (Scope.lines s) Hps)|].
  split; simpl; auto. intros i x H. exists []. rewrite add_lines_nil. exact H.
Qed.

(** [keeps m]: a computation that, when it returns, has kept the current
    scope, the scope objects and the registered types. *)
Definition keeps {A} (m : M A) : Prop :=
  forall w0 w, extends w0 w -> post m w (fun _ w' => extends w0 w').

Lemma keeps_step {A} (m : M A) :
  (forall w, post m w (fun _ w' => extends w w')) -> keeps m.
Proof.
  intros H w0 w E. eapply post_mono; [apply H|].
  intros a w' E'. eapply extends_trans; eauto.
Qed.

Lemma keeps_ret {A} (a : A) : keeps (mret a).
Proof. intros w0 w E. exact E. Qed.

Lemma keeps_raise {A} e : keeps (@raise A e).
Proof. intros w0 w E. exact I. Qed.

Lemma keeps_bind {A B} (m : M A) (f : A -> M B) :
  keeps m -> (forall a, keeps (f a)) -> keeps (m ≫= f).
Proof.
  intros Hm Hf w0 w E. apply post_bind. eapply post_mono; [apply Hm, E|].
  intros a w' E'. apply Hf. exact E'.
Qed.

Lemma keeps_get_state : keeps get_state.
Proof. intros w0 w E. exact E. Qed.

Lemma keeps_from_option {A} e (o : option A) : keeps (from_option e o).
Proof. destruct o; [apply keeps_ret | apply keeps_raise]. Qed.

Lemma keeps_assert b : keeps (assert_ b).
Proof. destruct b; [apply keeps_ret | apply keeps_raise]. Qed.

Lemma keeps_add_line line : keeps (add_line line).
Proof. apply keeps_step, extends_add_line. Qed.

Lemma keeps_add_lines ls : keeps (add_lines ls).
Proof. apply keeps_step, extends_add_lines. Qed.

Lemma keeps_add_typing_import n : keeps (_add_typing_import n).
Proof. apply keeps_step, extends_add_typing_import. Qed.

Lemma keeps_add_import l : keeps (_add_import l).
Proof. apply keeps_step, extends_add_import. Qed.

Lemma keeps_register_type i schema name sc : keeps (register_type i schema name sc).
Proof. apply keeps_step, extends_register_type. Qed.

Lemma keeps_set_generic_params i t ps : keeps (set_generic_params i t ps).
Proof. apply keeps_step, extends_set_generic_params. Qed.

Lemma keeps_register_type_var n : keeps (register_type_var n).
Proof. apply keeps_step, extends_register_type_var. Qed.

Lemma keeps_is_type_id_known i : keeps (is_type_id_known i).
Proof. intros w0 w E. exact E. Qed.

Lemma keeps_get_type_by_id i : keeps (get_type_by_id i).
Proof.
  intros w0 w E. unfold post, get_type_by_id.
  destruct (type_map w !! i); [exact E | exact I].
Qed.

Lemma keeps_gen_const schema : keeps (gen_const schema).
Proof. apply keeps_step, extends_gen_const. Qed.

Lemma keeps_commonpath p q : keeps (commonpath p q).
Proof.
  unfold commonpath. destruct (Bool.eqb _ _); [apply keeps_ret | apply keeps_raise].
Qed.

Lemma keeps_relative_to p q : keeps (relative_to p q).
Proof.
  unfold relative_to. destruct (String.eqb _ _); [|apply keeps_raise].
  destruct (strip_prefix _ _); [apply keeps_ret | apply keeps_raise].
Qed.

Lemma keeps_get_schema i : keeps (get_schema graph i).
Proof. apply keeps_from_option. Qed.

Lemma keeps_struct_schema i : keeps (struct_schema graph i).
Proof.
  apply keeps_bind; [apply keeps_get_schema|]. intros s.
  destruct (String.eqb _ _); [apply keeps_ret | apply keeps_raise].
Qed.

Lemma keeps_enum_schema i : keeps (enum_schema graph i).
Proof.
  apply keeps_bind; [apply keeps_get_schema|]. intros s.
  destruct (String.eqb _ _); [apply keeps_ret | apply keeps_raise].
Qed.

Lemma keeps_struct_fields schema : keeps (struct_fields schema).
Proof. unfold struct_fields. destruct (Node.body schema); first [apply keeps_ret | apply keeps_raise]. Qed.

Lemma keeps_register_import schema :
  keeps (register_import module module_registry schema).
Proof.
  unfold register_import.
  destruct (Str.split ":" (Node.displayName schema)) as [|a [|b [|c l]]];
    try apply keeps_raise.
  destruct (String.eqb a _); [apply keeps_ret|].
  apply keeps_bind; [apply keeps_from_option|]. intros mp.
  apply keeps_bind; [apply keeps_get_state|]. intros w1.
  apply keeps_bind; [apply keeps_commonpath|]. intros cp.
  apply keeps_bind; [apply keeps_relative_to|]. intros rm.
  apply keeps_bind; [apply keeps_relative_to|]. intros ri.
  apply keeps_bind; [apply keeps_add_import|]. intros _.
  apply keeps_bind; [apply keeps_get_state|]. intros w2.
  apply keeps_bind; [apply keeps_register_type|]. intros t.
  apply keeps_ret.
Qed.

Lemma keeps_scoped_name_of t n : keeps (scoped_name_of t n).
Proof.
  unfold scoped_name_of.
  apply keeps_bind; [apply keeps_get_state|]. intros w1.
  apply keeps_bind; [apply keeps_from_option|]. intros s.
  destruct (negb _); apply keeps_ret.
Qed.

(** ** Opening and closing a scope *)

(** [scoped w0 w1]: [w1] is inside a scope that was opened from [w0]. *)
Definition scoped (w0 w1 : Writer) : Prop :=
  grows w0 w1 /\
  exists child, heap w1 !! scope w1 = Some child /\
                Scope.return_scope child = Some (scope w0).

(** [closes m]: run inside a scope, [m] returns to where the scope was
    opened. *)
Definition closes {A} (m : M A) : Prop :=
  forall w0 w1 w, scoped w0 w1 -> extends w1 w ->
                  post m w (fun _ w' => extends w0 w' /\ grows w w').

Lemma closes_bind {A B} (m : M A) (f : A -> M B) :
  keeps m -> (forall a, closes (f a)) -> closes (m ≫= f).
Proof.
  intros Hm Hf w0 w1 w S E. apply post_bind.
  eapply post_mono; [apply (Hm w w (extends_refl w))|].
  intros a w' E'. eapply post_mono.
  - eapply Hf; [exact S|]. eapply extends_trans; eauto.
  - intros b w'' [E1 G1]. split; [exact E1|].
    eapply grows_trans; [apply E'|exact G1].
Qed.

Lemma closes_raise {A} e : closes (@raise A e).
Proof. intros w0 w1 w S E. exact I. Qed.

Lemma closes_return {A} (f : unit -> M A) :
  (forall a, keeps (f a)) -> closes (return_from_scope ≫= f).
Proof.
  intros Hf w0 w1 w [G [child [Hc Hr]]] [Es Eg]. apply post_bind.
  apply post_intro. intros [] w' H.
  apply return_from_scope_inv in H as (s & p & ps & r & Hs & Hp & Hps & Hr' & ->).
  destruct (grows_heap _ _ Eg _ _ Hc) as [extra Hx].
  rewrite Es, Hx in Hs. injection Hs as <-. simpl in Hr'.
  assert (extends w0 (closed (Scope.add_lines extra child) p ps r w)) as E0.
  { split.
    - simpl. congruence.
    - eapply grows_trans; [exact G|]. eapply grows_trans; [exact Eg|].
      apply grows_closed. exact Hps. }
  eapply post_mono; [apply (Hf tt _ _ (extends_refl _))|].
  intros a w' E'. split.
  - eapply extends_trans; eauto.
  - eapply grows_trans; [apply grows_closed; exact Hps | apply E'].
Qed.

Lemma keeps_new_scope {A} name node heading (k : unit -> M A) :
  (forall a, closes (k a)) -> keeps (new_scope name node heading ≫= k).
Proof.
  intros Hk w0 w E. apply post_bind. apply post_intro. intros [] w' H.
  apply new_scope_inv in H as (p & ps & Hp & Hps & Hn & ->).
  assert (scoped w (opened name node heading p ps w)) as S.
  { split; [apply grows_opened; exact Hps|].
    eexists. split; [apply opened_child; exact Hps|]. reflexivity. }
  eapply post_mono; [eapply Hk; [exact S | apply extends_refl]|].
  intros a w' [E' _]. eapply extends_trans; eauto.
Qed.

Lemma keeps_gen_enum schema : keeps (gen_enum module module_registry schema).
Proof.
  unfold gen_enum.
  apply keeps_bind; [apply keeps_assert|]. intros _.
  apply keeps_bind; [apply keeps_register_import|]. intros [t|]; [apply keeps_ret|].
  apply keeps_bind; [apply keeps_add_import|]. intros _.
  apply keeps_new_scope. intros _.
  apply closes_bind; [apply keeps_register_type|]. intros _.
  apply closes_bind.
  { destruct (Node.body schema); first [apply keeps_add_lines | apply keeps_raise]. }
  intros _. apply closes_return. intros _. apply keeps_ret.
Qed.

Lemma keeps_get_type_name : forall t, keeps (get_type_name t).
Proof.
  fix IH 1. intros t.
  destruct t as [| | | | | | | | | | | | | |e|i|i brand|i|a];
    try (apply keeps_ret); try (apply keeps_raise).
  - cbn [get_type_name which dict_get CAPNP_TYPE_TO_PYTHON String.eqb Ascii.eqb Bool.eqb].
    apply keeps_bind; [apply keeps_get_type_by_id|]. intros et.
    apply keeps_scoped_name_of.
  - cbn [get_type_name which dict_get CAPNP_TYPE_TO_PYTHON String.eqb Ascii.eqb Bool.eqb].
    apply keeps_bind; [apply keeps_get_type_by_id|]. intros et.
    apply keeps_bind; [|intros gp; apply keeps_scoped_name_of].
    match goal with
    | |- keeps (?f brand []) => cut (forall acc, keeps (f brand acc)); [intros H; apply H|]
    end.
    induction brand as [|b bs IHbs]; intros acc; [apply keeps_ret|].
    destruct b as [sid|sid binds].
    + apply keeps_bind; [apply keeps_get_type_by_id|]. intros ps. apply IHbs.
    + apply keeps_bind; [|intros acc'; apply IHbs].
      revert acc. induction binds as [|bd l IHl]; intros acc; [apply keeps_ret|].
      destruct bd as [|t']; [apply keeps_raise|].
      apply keeps_bind; [apply IH|]. intros n. apply IHl.
Qed.

(** ** Where [NoParentError] comes from *)

Definition never_no_parent {A} (m : M A) : Prop :=
  forall w w', m w <> Raise NoParentError w'.

Lemma nnp_ret {A} (a : A) : never_no_parent (mret a).
Proof. intros w w' H. discriminate. Qed.

Lemma nnp_raise {A} e : e <> NoParentError -> never_no_parent (@raise A e).
Proof. intros He w w' H. injection H as H _. contradiction. Qed.

Lemma nnp_bind {A B} (m : M A) (f : A -> M B) :
  never_no_parent m -> (forall a, never_no_parent (f a)) ->
  never_no_parent (m ≫= f).
Proof.
  intros Hm Hf w w'. rewrite bind_eq. destruct (m w) as [a w1|e w1] eqn:E.
  - apply Hf.
  - intros H. apply (Hm w w'). congruence.
Qed.

Lemma nnp_from_option {A} e (o : option A) :
  e <> NoParentError -> never_no_parent (from_option e o).
Proof. intros He. destruct o; [apply nnp_ret | apply nnp_raise, He]. Qed.

Lemma nnp_assert b : never_no_parent (assert_ b).
Proof. destruct b; [apply nnp_ret | apply nnp_raise; discriminate]. Qed.

Lemma nnp_get_state : never_no_parent get_state.
Proof. intros w w' H. discriminate. Qed.

Lemma nnp_modify f : never_no_parent (modify f).
Proof. intros w w' H. discriminate. Qed.

Lemma nnp_add_line_at r l : never_no_parent (add_line_at r l).
Proof.
  intros w w'. unfold add_line_at. destruct (heap w !! r); discriminate.
Qed.

Lemma nnp_add_lines ls : never_no_parent (add_lines ls).
Proof.
  induction ls as [|l ls IH]; [apply nnp_ret|].
  apply nnp_bind; [intros w w'; apply nnp_add_line_at | intros _; exact IH].
Qed.

Lemma nnp_register_type i schema name sc :
  never_no_parent (register_type i schema name sc).
Proof.
  intros w w'. unfold register_type. destruct sc; simpl; [discriminate|].
  destruct (heap w !! scope w) as [s|]; simpl; [|discriminate].
  destruct (Scope.parent s); discriminate.
Qed.

Lemma nnp_commonpath p q : never_no_parent (commonpath p q).
Proof.
  unfold commonpath. destruct (Bool.eqb _ _);
    [apply nnp_ret | apply nnp_raise; discriminate].
Qed.

Lemma nnp_relative_to p q : never_no_parent (relative_to p q).
Proof.
  unfold relative_to. destruct (String.eqb _ _); [|apply nnp_raise; discriminate].
  destruct (strip_prefix _ _); [apply nnp_ret | apply nnp_raise; discriminate].
Qed.

Lemma nnp_register_import schema :
  never_no_parent (register_import module module_registry schema).
Proof.
  unfold register_import.
  destruct (Str.split ":" (Node.displayName schema)) as [|a [|b [|c l]]];
    try (apply nnp_raise; discriminate).
  destruct (String.eqb a _); [apply nnp_ret|].
  apply nnp_bind; [apply nnp_from_option; discriminate|]. intros mp.
  apply nnp_bind; [apply nnp_get_state|]. intros w1.
  apply nnp_bind; [apply nnp_commonpath|]. intros cp.
  apply nnp_bind; [apply nnp_relative_to|]. intros rm.
  apply nnp_bind; [apply nnp_relative_to|]. intros ri.
  apply nnp_bind; [apply nnp_modify|]. intros _.
  apply nnp_bind; [apply nnp_get_state|]. intros w2.
  apply nnp_bind; [apply nnp_register_type|]. intros t.
  apply nnp_ret.
Qed.

Lemma nnp_return_from_scope : never_no_parent return_from_scope.
Proof.
  unfold return_from_scope.
  apply nnp_bind; [apply nnp_get_state|]. intros w1.
  apply nnp_bind; [apply nnp_from_option; discriminate|]. intros s.
  apply nnp_bind; [apply nnp_assert|]. intros _.
  apply nnp_bind; [apply nnp_from_option; discriminate|]. intros p.
  apply nnp_bind; [apply nnp_from_option; discriminate|]. intros ps.
  apply nnp_bind; [apply nnp_modify|]. intros _.
  apply nnp_bind; [apply nnp_from_option; discriminate|]. intros r.
  apply nnp_modify.
Qed.

Lemma new_scope_no_parent_inv name node heading w w' :
  new_scope name node heading w = Raise NoParentError w' -> w' = w.
Proof.
  unfold new_scope. rewrite (bind_Ret _ _ w w w) by reflexivity.
  destruct (idict_get (Node.scopeId node) (scopes_by_id w)) as [p|];
    [|intros H; injection H as <-; reflexivity].
  simpl. erewrite bind_Ret; [|reflexivity].
  intros H. exfalso. revert H.
  apply nnp_bind; [apply nnp_add_line_at|]. intros _.
  apply nnp_bind.
  { intros w1 w2. unfold new_Scope. destruct (Bool.eqb _ _); discriminate. }
  intros r. apply nnp_bind; [apply nnp_modify|]. intros _. apply nnp_modify.
Qed.

(** When [gen_enum] raises [NoParentError], it has not opened a scope. *)
Lemma gen_enum_no_parent schema w w' :
  gen_enum module module_registry schema w = Raise NoParentError w' ->
  extends w w'.
Proof.
  unfold gen_enum. rewrite bind_eq.
  destruct (assert_ _ w) as [[] w1|e w1] eqn:E1.
  2:{ intros H. injection H as -> ->. exfalso. eapply nnp_assert; eauto. }
  assert (w1 = w) as ->.
  { revert E1. unfold assert_. destruct (String.eqb _ _); [|discriminate].
    intros H. injection H as <-. reflexivity. }
  rewrite bind_eq.
  destruct (register_import _ _ _ w) as [[t|] w2|e w2] eqn:E2.
  - discriminate.
  - pose proof (keeps_register_import schema w w (extends_refl w)) as K.
    unfold post in K. rewrite E2 in K.
    rewrite bind_eq. cbn [_add_enum_import _add_import modify].
    rewrite bind_eq.
    destruct (new_scope _ _ _ _) as [[] w3|e w3] eqn:E3.
    + intros H. exfalso. revert H.
      apply nnp_bind; [apply nnp_register_type|]. intros _.
      apply nnp_bind.
      { destruct (Node.body schema);
          first [apply nnp_add_lines | apply nnp_raise; discriminate]. }
      intros _. apply nnp_bind; [apply nnp_return_from_scope|]. intros _.
      apply nnp_ret.
    + intros H. injection H as -> ->.
      apply new_scope_no_parent_inv in E3. subst w'.
      eapply extends_trans; [exact K|]. apply extends_set_imports.
  - intros H. injection H as -> ->. exfalso.
    eapply nnp_register_import; eauto.
Qed.

Lemma nnp_get_schema i : never_no_parent (get_schema graph i).
Proof. apply nnp_from_option. discriminate. Qed.

Lemma nnp_enum_schema i : never_no_parent (enum_schema graph i).
Proof.
  apply nnp_bind; [apply nnp_get_schema|]. intros s.
  destruct (String.eqb _ _); [apply nnp_ret | apply nnp_raise; discriminate].
Qed.

Lemma enum_schema_inv i w s w' :
  enum_schema graph i w = Ret s w' -> w' = w /\ Node.which s = "enum".
Proof.
  unfold enum_schema, get_schema. rewrite bind_eq.
  destruct (find _ graph) as [n|]; simpl; [|discriminate].
  destruct (String.eqb (Node.which n) "enum") eqn:E; [|discriminate].
  intros H. injection H as <- <-. split; [reflexivity|].
  apply String.eqb_eq. exact E.
Qed.

Section Recursive.

Variable self_gen_struct : Node.t -> string -> M CapnpType.t.
Hypothesis keeps_self : forall schema name, keeps (self_gen_struct schema name).

Local Abbreviation nested_with :=
  (generate_nested_with module module_registry self_gen_struct).

Lemma keeps_generate_nested_with schema : keeps (nested_with schema).
Proof.
  unfold generate_nested_with.
  apply keeps_bind; [apply keeps_is_type_id_known|]. intros [|]; [apply keeps_ret|].
  destruct (String.eqb _ "const"); [apply keeps_gen_const|].
  destruct (String.eqb _ "struct").
  { apply keeps_bind; [apply keeps_self|]. intros _. apply keeps_ret. }
  destruct (String.eqb _ "enum").
  { apply keeps_bind; [apply keeps_gen_enum|]. intros _. apply keeps_ret. }
  destruct (String.eqb _ "interface"); [apply keeps_ret | apply keeps_raise].
Qed.

Lemma keeps_ensure_nested i raw :
  keeps raw ->
  keeps (ensure_nested module module_registry self_gen_struct i raw).
Proof.
  intros Hraw. unfold ensure_nested.
  apply keeps_bind; [apply keeps_is_type_id_known|]. intros [|]; [apply keeps_ret|].
  apply keeps_bind; [exact Hraw|]. intros s. apply keeps_generate_nested_with.
Qed.

Lemma keeps_gen_list_slot field kw :
  keeps (gen_list_slot module module_registry graph self_gen_struct field kw).
Proof.
  unfold gen_list_slot.
  destruct (Field.body field) as [ty|]; [|apply keeps_raise].
  destruct ty; try apply keeps_raise.
  apply keeps_bind.
  { destruct (String.eqb _ CapnpElementType.STRUCT).
    { destruct ty; try apply keeps_raise.
      apply keeps_ensure_nested, keeps_struct_schema. }
    destruct (String.eqb _ CapnpElementType.ENUM); [|apply keeps_ret].
    destruct ty; try apply keeps_raise.
    apply keeps_ensure_nested, keeps_enum_schema. }
  intros _. apply keeps_bind; [apply keeps_get_type_name|]. intros tn.
  apply keeps_bind; [apply keeps_add_line|]. intros _.
  apply keeps_bind; [apply keeps_add_typing_import|]. intros _.
  apply keeps_ret.
Qed.

Lemma keeps_gen_python_type_slot field t kw :
  keeps (gen_python_type_slot field t kw).
Proof.
  unfold gen_python_type_slot.
  apply keeps_bind; [apply keeps_from_option|]. intros n.
  apply keeps_bind; [apply keeps_add_line|]. intros _. apply keeps_ret.
Qed.

(** The one place where [NoParentError] is caught. *)
Lemma keeps_try_nested_enum typeId :
  keeps (try_except_pass NoParentError
           (enum_schema graph typeId ≫= nested_with)).
Proof.
  intros w0 w E. unfold post, try_except_pass.
  destruct ((enum_schema graph typeId ≫= nested_with) w)
    as [[] w'|e w'] eqn:B.
  - assert (keeps (enum_schema graph typeId ≫= nested_with)) as K.
    { apply keeps_bind; [apply keeps_enum_schema|].
      intros s. apply keeps_generate_nested_with. }
    specialize (K w0 w E). unfold post in K. rewrite B in K. exact K.
  - destruct (decide (e = NoParentError)) as [->|]; [|exact I].
    eapply extends_trans; [exact E|].
    rewrite bind_eq in B.
    destruct (enum_schema graph typeId w) as [s w1|e1 w1] eqn:ES.
    2:{ injection B as -> ->. exfalso. eapply nnp_enum_schema; eauto. }
    apply enum_schema_inv in ES as [-> Hw].
    revert B. unfold generate_nested_with.
    rewrite bind_eq. cbn [is_type_id_known].
    destruct (bool_decide _); [discriminate|].
    rewrite Hw. cbn [String.eqb Ascii.eqb Bool.eqb].
    rewrite bind_eq.
    destruct (gen_enum module module_registry s w) as [a w2|e2 w2] eqn:GE;
      [discriminate|].
    intros H. injection H as -> ->. eapply gen_enum_no_parent. exact GE.
Qed.

Lemma keeps_gen_enum_slot field kw :
  keeps (gen_enum_slot module module_registry graph self_gen_struct field kw).
Proof.
  unfold gen_enum_slot.
  destruct (Field.body field) as [ty|]; [|apply keeps_raise].
  destruct ty; try apply keeps_raise.
  apply keeps_bind; [apply keeps_is_type_id_known|]. intros known.
  apply keeps_bind.
  { destruct known; [apply keeps_ret | apply keeps_try_nested_enum]. }
  intros _. apply keeps_bind; [apply keeps_get_type_name|]. intros tn.
  apply keeps_bind; [apply keeps_add_line|]. intros _. apply keeps_ret.
Qed.

Lemma keeps_gen_struct_slot field kw ch :
  keeps (gen_struct_slot graph self_gen_struct field kw ch).
Proof.
  unfold gen_struct_slot.
  destruct (Field.body field) as [ty|]; [|apply keeps_raise].
  destruct ty; try apply keeps_raise.
  apply keeps_bind; [apply keeps_struct_schema|]. intros et.
  apply keeps_bind; [apply keeps_is_type_id_known|]. intros known.
  apply keeps_bind.
  { destruct known; [apply keeps_ret|].
    apply keeps_bind; [apply keeps_self|]. intros _. apply keeps_ret. }
  intros _. apply keeps_bind; [apply keeps_get_type_name|]. intros tn.
  apply keeps_bind; [apply keeps_add_line|]. intros _. apply keeps_ret.
Qed.

Lemma keeps_gen_any_pointer_slot field rt kw :
  keeps (gen_any_pointer_slot field rt kw).
Proof.
  unfold gen_any_pointer_slot.
  destruct (Field.body field) as [ty|]; [|apply keeps_raise].
  destruct ty; try apply keeps_raise.
  destruct anyPointer; try apply keeps_raise.
  apply keeps_bind; [apply keeps_from_option|]. intros tn.
  apply keeps_bind; [apply keeps_add_line|]. intros _. apply keeps_ret.
Qed.

Lemma keeps_gen_slot_with schema field rt kw ch :
  keeps (gen_slot_with module module_registry graph self_gen_struct
           schema field rt kw ch).
Proof.
  unfold gen_slot_with.
  destruct (Field.body field) as [ty|]; [|apply keeps_raise].
  destruct (String.eqb _ CapnpSlotType.LIST).
  { apply keeps_bind; [apply keeps_gen_list_slot|]. intros ?. apply keeps_ret. }
  destruct (bool_decide _).
  { apply keeps_bind; [apply keeps_gen_python_type_slot|]. intros ?.
    apply keeps_ret. }
  destruct (String.eqb _ CapnpSlotType.ENUM).
  { apply keeps_bind; [apply keeps_gen_enum_slot|]. intros ?. apply keeps_ret. }
  destruct (String.eqb _ CapnpSlotType.STRUCT); [apply keeps_gen_struct_slot|].
  destruct (String.eqb _ CapnpSlotType.ANY_POINTER); [|apply keeps_raise].
  apply keeps_bind; [apply keeps_gen_any_pointer_slot|]. intros ?.
  apply keeps_ret.
Qed.

Lemma keeps_gen_field schema rt field l :
  keeps (gen_field module module_registry graph self_gen_struct schema rt field l).
Proof.
  unfold gen_field.
  destruct (String.eqb _ CapnpFieldType.SLOT).
  { apply keeps_bind; [apply keeps_gen_slot_with|]. intros [kw ch].
    apply keeps_ret. }
  destruct (String.eqb _ CapnpFieldType.GROUP); [|apply keeps_raise].
  destruct (Field.body field) as [|tid]; [apply keeps_raise|].
  apply keeps_bind.
  { unfold group_type_name. destruct (Field.name field);
      [apply keeps_raise | apply keeps_ret]. }
  intros gn. apply keeps_bind; [apply keeps_assert|]. intros _.
  apply keeps_bind; [apply keeps_struct_schema|]. intros rs.
  apply keeps_bind; [apply keeps_self|]. intros t.
  apply keeps_bind; [apply keeps_add_line|]. intros _. apply keeps_ret.
Qed.

Lemma keeps_gen_fields schema rt fields :
  forall l,
    keeps (gen_fields module module_registry graph self_gen_struct
             schema rt fields l).
Proof.
  induction fields as [|f fs IH]; intros l; [apply keeps_ret|].
  apply keeps_bind; [apply keeps_gen_field|]. intros l'. apply IH.
Qed.

Lemma keeps_add_overloads choices : keeps (add_overloads choices).
Proof.
  induction choices as [|c cs IH]; [apply keeps_ret|].
  apply keeps_bind; [apply keeps_add_line|]. intros _.
  apply keeps_bind; [apply keeps_add_line|]. intros _. exact IH.
Qed.

Lemma closes_gen_struct_end schema rt tn fields l :
  closes (gen_struct_end schema rt tn fields l).
Proof.
  unfold gen_struct_end.
  apply closes_bind; [apply keeps_scoped_name_of|]. intros sn.
  apply closes_bind; [apply keeps_add_line|]. intros _.
  apply closes_bind; [apply keeps_add_line|]. intros _.
  apply closes_bind; [apply keeps_add_line|]. intros _.
  cbv zeta.
  apply closes_bind.
  { destruct (negb _); [|apply keeps_ret].
    apply keeps_bind; [apply keeps_add_typing_import|]. intros _.
    apply keeps_bind; [apply keeps_add_typing_import|]. intros _.
    apply keeps_add_line. }
  intros _. apply closes_bind.
  { destruct (contructor_kwargs l); [apply keeps_ret | apply keeps_add_line]. }
  intros _. apply closes_bind.
  { destruct (_ <? _)%nat.
    - apply keeps_bind; [apply keeps_add_typing_import|]. intros _.
      apply keeps_bind; [apply keeps_add_typing_import|]. intros _.
      apply keeps_add_overloads.
    - destruct (init_choices l) as [|c [|c' cs]]; try apply keeps_ret.
      apply keeps_bind; [apply keeps_add_typing_import|]. intros _.
      apply keeps_add_line. }
  intros _. apply closes_bind.
  { cbn [negb]. apply keeps_ret. }
  intros _. apply closes_return. intros _. apply keeps_ret.
Qed.

Lemma keeps_gen_struct_body schema name :
  keeps (gen_struct_body module module_registry graph self_gen_struct schema name).
Proof.
  unfold gen_struct_body.
  apply keeps_bind; [apply keeps_assert|]. intros _.
  apply keeps_bind; [apply keeps_register_import|]. intros [t|]; [apply keeps_ret|].
  cbv zeta.
  apply keeps_bind.
  { destruct (Node.isGeneric schema); [apply keeps_raise | apply keeps_ret]. }
  intros rp. apply keeps_new_scope. intros _.
  apply closes_bind; [apply keeps_register_type|]. intros rt.
  apply closes_bind; [apply keeps_set_generic_params|]. intros rt'.
  apply closes_bind; [apply keeps_struct_fields|]. intros fields.
  apply closes_bind; [apply keeps_gen_fields|]. intros l.
  apply closes_gen_struct_end.
Qed.

End Recursive.

Local Abbreviation gen_struct := (gen_struct module module_registry graph).
Local Abbreviation generate_nested := (generate_nested module module_registry graph).

Lemma keeps_gen_struct fuel : forall schema name, keeps (gen_struct fuel schema name).
Proof.
  induction fuel as [|fuel IH]; intros schema name.
  - apply keeps_raise.
  - apply keeps_gen_struct_body. exact IH.
Qed.

Lemma keeps_generate_nested fuel schema : keeps (generate_nested fuel schema).
Proof. apply keeps_generate_nested_with, keeps_gen_struct. Qed.

End Frames.

(** * Facts about strings *)

Lemma append_cons c s t : String c s +:+ t = String c (s +:+ t).
Proof. reflexivity. Qed.

Lemma append_nil_l t : "" +:+ t = t.
Proof. reflexivity. Qed.

Lemma append_nil_r s : s +:+ "" = s.
Proof.
  induction s as [|c s IH]; [reflexivity | rewrite append_cons, IH; reflexivity].
Qed.


Lemma length_append a b :
  String.length (a +:+ b) = (String.length a + String.length b)%nat.
Proof.
  induction a as [|x a IH]; [reflexivity|].
  rewrite !append_cons. cbn [String.length]. rewrite IH. reflexivity.
Qed.

Lemma append_inv_r a b c : a +:+ c = b +:+ c -> a = b.
Proof.
  revert b. induction a as [|x a IH]; intros [|y b] H;
    rewrite ?append_cons, ?append_nil_l in H.
  - reflexivity.
  - exfalso. apply (f_equal String.length) in H. cbn [String.length] in H.
    rewrite length_append in H. lia.
  - exfalso. apply (f_equal String.length) in H. cbn [String.length] in H.
    rewrite length_append in H. lia.
  - injection H as -> H. f_equal. apply IH. exact H.
Qed.

(** [no_char c s]: the character [c] does not occur in [s]. *)
Fixpoint no_char (c : ascii) (s : string) : bool :=
  match s with
  | EmptyString => true
  | String x s' => negb (Ascii.eqb x c) && no_char c s'
  end.

Lemma cut_at_char c a b x y :
  no_char c a = true -> no_char c b = true ->
  a +:+ String c x = b +:+ String c y -> a = b /\ x = y.
Proof.
  revert b. induction a as [|u a IH]; intros [|v b] Ha Hb H;
    rewrite ?append_cons, ?append_nil_l in H; cbn [no_char] in Ha, Hb.
  - injection H as ->. split; reflexivity.
  - injection H as <- _. rewrite Ascii.eqb_refl in Hb. discriminate.
  - injection H as -> _. rewrite Ascii.eqb_refl in Ha. discriminate.
  - injection H as -> H. apply andb_prop in Ha as [_ Ha].
    apply andb_prop in Hb as [_ Hb].
    destruct (IH b Ha Hb H) as [-> ->]. split; reflexivity.
Qed.

Lemma no_char_append_char c a x b :
  no_char c b = true -> a +:+ String c x <> b.
Proof.
  revert b. induction a as [|u a IH]; intros [|v b] Hb H;
    rewrite ?append_cons, ?append_nil_l in H; cbn [no_char] in Hb;
    try discriminate.
  - injection H as <- _. rewrite Ascii.eqb_refl in Hb. discriminate.
  - injection H as -> H. apply andb_prop in Hb as [_ Hb]. exact (IH b Hb H).
Qed.

(** A name that [join] cannot confuse: not empty, and free of the
    delimiter. *)
Definition plain (c : ascii) (s : string) : Prop :=
  s <> "" /\ no_char c s = true.

Lemma join_cons_cons d x y l :
  Str.join d (x :: y :: l) = x +:+ d +:+ Str.join d (y :: l).
Proof. reflexivity. Qed.

Lemma plain_not_nil c s : plain c s -> s <> "".
Proof. intros [H _]. exact H. Qed.

Lemma join_plain_inj c l1 :
  forall l2,
    Forall (plain c) l1 -> Forall (plain c) l2 ->
    Str.join (String c "") l1 = Str.join (String c "") l2 -> l1 = l2.
Proof.
  induction l1 as [|x r IH]; intros [|y r'] H1 H2 E.
  - reflexivity.
  - exfalso. inversion H2 as [|? ? [Hy _] _]; subst.
    destruct r' as [|y' r'].
    + apply Hy. symmetry. exact E.
    + rewrite join_cons_cons in E. destruct y; [apply Hy; reflexivity|].
      rewrite append_cons in E. discriminate.
  - exfalso. inversion H1 as [|? ? [Hx _] _]; subst.
    destruct r as [|x' r].
    + apply Hx. exact E.
    + rewrite join_cons_cons in E. destruct x; [apply Hx; reflexivity|].
      rewrite append_cons in E. discriminate.
  - inversion H1 as [|? ? [_ Hx] H1']; subst.
    inversion H2 as [|? ? [_ Hy] H2']; subst.
    destruct r as [|x' r], r' as [|y' r'].
    + cbn in E. subst. reflexivity.
    + exfalso. rewrite join_cons_cons in E. cbn [Str.join String.concat] in E.
      symmetry in E. revert E. rewrite append_cons, append_nil_l.
      apply no_char_append_char. exact Hx.
    + exfalso. rewrite join_cons_cons in E. cbn [Str.join String.concat] in E.
      revert E. rewrite append_cons, append_nil_l.
      apply no_char_append_char. exact Hy.
    + rewrite !join_cons_cons in E.
      rewrite !append_cons, !append_nil_l in E.
      apply cut_at_char in E as [-> E]; [|assumption..].
      f_equal. apply IH; assumption.
Qed.

(** * The claims *)

(** ** Example schemas *)

Module Ex.

(** [generics.capnp]: two generic structs, each with a parameter [T]. *)
Definition box : Node.t :=
  Node.mk 21 "generics.capnp:Box" 15 20 true ["T"] []
    (NStruct [Field.mk "value" 65535 (FSlot (TAnyPointer (APParameter 21 0)))] 0).

Definition pair : Node.t :=
  Node.mk 22 "generics.capnp:Pair" 15 20 true ["T"] []
    (NStruct [Field.mk "left" 65535 (FSlot (TAnyPointer (APParameter 22 0)))] 0).

(** Two more, without a field of the parameter's type. *)
Definition tag : Node.t :=
  Node.mk 23 "generics.capnp:Tag" 15 20 true ["T"] []
    (NStruct [Field.mk "id" 65535 (FSlot TUint32)] 0).

Definition label : Node.t :=
  Node.mk 24 "generics.capnp:Label" 15 20 true ["T"] []
    (NStruct [Field.mk "text" 65535 (FSlot TText)] 0).

Definition generics_file : Node.t :=
  Node.mk 20 "generics.capnp" 0 0 false []
    [("Box", 21); ("Pair", 22); ("Tag", 23); ("Label", 24)] NFile.

Definition generics : Module_.t :=
  Module_.mk (Some "/schemas/generics.capnp") generics_file.

Definition generics_graph : list Node.t :=
  [generics_file; box; pair; tag; label].

Definition generics_registry : ModuleRegistryType :=
  [(20, ("/schemas/generics.capnp", generics))].

(** The writer for [generics.capnp], as [Writer.__init__] leaves it. *)
Definition generics_writer : Writer :=
  match init generics with
  | inr w => w
  | inl _ => mkWriter 0 [] [] (Path.mk "" []) ∅ ∅ ∅ ∅ ""
  end.


(** [dummy.capnp]: an enum, a struct with a union and a nested struct, and
    a constant. *)
Definition test_enum : Node.t :=
  Node.mk 10 "dummy.capnp:TestEnum" 12 1 false [] []
    (NEnum ["foo"; "bar"; "class"]).

Definition inner : Node.t :=
  Node.mk 12 "dummy.capnp:TestMap.Inner" 20 11 false [] []
    (NStruct [Field.mk "x" 65535 (FSlot TInt32)] 0).

Definition test_map : Node.t :=
  Node.mk 11 "dummy.capnp:TestMap" 12 1 false [] [("Inner", 12)]
    (NStruct [ Field.mk "a" 0 (FSlot TText);
               Field.mk "e" 1 (FSlot (TEnum 10));
               Field.mk "i" 65535 (FSlot (TStruct 12 []));
               Field.mk "l" 65535 (FSlot (TList (TStruct 12 []))) ] 2).

Definition answer : Node.t :=
  Node.mk 13 "dummy.capnp:answer" 12 1 false [] [] (NConst TUint16).

Definition dummy_file : Node.t :=
  Node.mk 1 "dummy.capnp" 0 0 false []
    [("TestMap", 11); ("TestEnum", 10); ("answer", 13)] NFile.

Definition dummy : Module_.t := Module_.mk (Some "/a/b/dummy.capnp") dummy_file.

Definition dummy_graph : list Node.t :=
  [dummy_file; test_enum; test_map; inner; answer].

Definition dummy_registry : ModuleRegistryType :=
  [(1, ("/a/b/dummy.capnp", dummy))].

Definition empty_writer : Writer :=
  mkWriter 0 [] [] (Path.mk "" []) ∅ ∅ ∅ ∅ "".

(** The state that a computation leaves, whether it returns or raises. *)
Definition final {A} (o : outcome A) : Writer :=
  match o with
  | Ret _ w => w
  | Raise _ w => w
  end.

Definition dummy_writer : Writer :=
  match init dummy with
  | inr w => w
  | inl _ => empty_writer
  end.

(** The writer for [dummy.capnp] after [TestEnum] has been generated. *)
Definition after_enum : Writer :=
  final (generate_nested dummy dummy_registry dummy_graph 1 test_enum
           dummy_writer).

(** A writer whose current scope is a scope [Outer] below the root. *)
Definition nested_writer : Writer :=
  set_scope 1
    (set_heap (heap generics_writer
               ++ [Scope.mk "Outer" 30 (Some 0%nat) (Some 0%nat) []])
       generics_writer).

End Ex.

Section Generics.

Variable module : Module_.t.
Variable module_registry : ModuleRegistryType.
Variable graph : list Node.t.

Lemma register_import_local schema definition_name w :
  Str.split ":" (Node.displayName schema)
  = [base_module_name module; definition_name] ->
  register_import module module_registry schema w = Ret None w.
Proof.
  intros H. unfold register_import. rewrite H, String.eqb_refl. reflexivity.
Qed.

(** C1.  Generating a generic struct never reaches the fields: [gen_struct]
    calls [gen_generic] without its [schema] argument, so that a struct of
    this module with [isGeneric] set raises [TypeError] before any scope is
    opened and before any type variable is registered. *)
Theorem gen_struct_generic_raises fuel schema type_name definition_name w :
  Node.which schema = "struct" ->
  Str.split ":" (Node.displayName schema)
  = [base_module_name module; definition_name] ->
  Node.isGeneric schema = true ->
  gen_struct module module_registry graph (S fuel) schema type_name w
  = Raise TypeError w.
Proof.
  intros Hw Hs Hg. cbn [gen_struct]. unfold gen_struct_body.
  rewrite Hw. cbn [String.eqb Ascii.eqb Bool.eqb CapnpElementType.STRUCT assert_].
  erewrite bind_Ret; [|reflexivity].
  rewrite (bind_Ret _ _ w None w (register_import_local _ _ _ Hs)).
  cbv zeta. rewrite Hg. reflexivity.
Qed.

End Generics.

Lemma gen_struct_generic_raises_witness :
  gen_struct Ex.generics Ex.generics_registry Ex.generics_graph 3 Ex.box ""
    Ex.generics_writer
  = Raise TypeError Ex.generics_writer.
Proof.
  apply (gen_struct_generic_raises Ex.generics Ex.generics_registry
           Ex.generics_graph 2 Ex.box "" "Box"); reflexivity.
Defined.

(** ** Type variables *)

(** X23.  [register_type_var] returns, and adds to the type variables,
    the underscore-joined trace of the scope that is current at the call,
    followed by an underscore and the given name.  The same name
    registered under two current scopes whose traces differ (the names of
    the scopes being non-empty and free of underscores) gives two
    different type variables. *)
Theorem register_type_var_qualified name w1 w2 n1 n2 w1' w2' :
  register_type_var name w1 = Ret n1 w1' ->
  register_type_var name w2 = Ret n2 w2' ->
  Forall (plain "_") (trace_names (heap w1) (scope w1)) ->
  Forall (plain "_") (trace_names (heap w2) (scope w2)) ->
  n1 = Str.join "_" (trace_names (heap w1) (scope w1)) +:+ "_" +:+ name
  /\ n1 ∈ type_vars w1'
  /\ (trace_names (heap w1) (scope w1) <> trace_names (heap w2) (scope w2) ->
      n1 <> n2).
Proof.
  unfold register_type_var, trace_as_str. intros H1 H2 P1 P2.
  injection H1 as <- <-. injection H2 as <- <-.
  split; [reflexivity|]. split.
  - cbn [type_vars set_type_vars]. set_solver.
  - intros Hne E. apply Hne. apply append_inv_r in E.
    eapply join_plain_inj; eauto.
Qed.

Lemma register_type_var_qualified_witness :
  "_T" = Str.join "_" (trace_names (heap Ex.generics_writer)
                         (scope Ex.generics_writer)) +:+ "_" +:+ "T"
  /\ "_T" ∈ type_vars (set_type_vars ({["_T"]} ∪ type_vars Ex.generics_writer)
                         Ex.generics_writer)
  /\ (trace_names (heap Ex.generics_writer) (scope Ex.generics_writer)
      <> trace_names (heap Ex.nested_writer) (scope Ex.nested_writer) ->
      "_T" <> "Outer_T").
Proof.
  apply (register_type_var_qualified "T" Ex.generics_writer Ex.nested_writer
           "_T" "Outer_T" _
           (set_type_vars ({["Outer_T"]} ∪ type_vars Ex.nested_writer)
              Ex.nested_writer)).
  - reflexivity.
  - reflexivity.
  - apply Forall_nil. exact I.
  - apply Forall_cons. split; [split; [discriminate | reflexivity]|].
    apply Forall_nil. exact I.
Defined.

(** ** Registration is idempotent *)

Lemma post_bind_any {A B} (m : M A) (f : A -> M B) w (Q : B -> Writer -> Prop) :
  (forall a w', post (f a) w' Q) -> post (m ≫= f) w Q.
Proof. intros H. apply post_bind. apply post_intro. intros a w' _. apply H. Qed.

Lemma post_and {A} (m : M A) w (P Q : A -> Writer -> Prop) :
  post m w P -> post m w Q -> post m w (fun a w' => P a w' /\ Q a w').
Proof. unfold post. destruct (m w); auto. Qed.

Lemma post_register_type_lookup i schema name sc w :
  post (register_type i schema name sc) w
    (fun t w' => type_map w' !! i = Some t).
Proof.
  unfold post, register_type.
  destruct sc as [r|]; simpl.
  - apply lookup_insert_eq.
  - destruct (heap w !! scope w) as [s|]; simpl; [|exact I].
    destruct (Scope.parent s); [apply lookup_insert_eq | exact I].
Qed.

Section Idempotence.

Variable module : Module_.t.
Variable module_registry : ModuleRegistryType.
Variable graph : list Node.t.

Lemma post_register_import_lookup schema w :
  post (register_import module module_registry schema) w
    (fun o w' => forall t, o = Some t -> type_map w' !! Node.id schema = Some t).
Proof.
  unfold register_import.
  destruct (Str.split ":" (Node.displayName schema)) as [|a [|b [|c l]]];
    try exact I.
  destruct (String.eqb a _); [intros t; discriminate|].
  do 7 (apply post_bind_any; intros ? ?).
  apply post_bind. eapply post_mono; [apply post_register_type_lookup|].
  intros t wr H t' E. injection E as <-. exact H.
Qed.

Lemma gen_enum_registers schema w :
  post (gen_enum module module_registry schema) w
    (fun _ w' => is_Some (type_map w' !! Node.id schema)).
Proof.
  unfold gen_enum. apply post_bind_any. intros _ w1.
  apply post_bind. eapply post_mono; [apply post_register_import_lookup|].
  intros [t|] w2 Himp.
  { apply post_ret. rewrite (Himp t eq_refl). eauto. }
  apply post_bind_any. intros _ w3.
  apply post_bind. apply post_intro. intros [] w4 Hns.
  apply new_scope_inv in Hns as (p & ps & Hp & Hps & Hn & ->).
  assert (scoped w3 (opened (get_display_name schema) schema
            ("class " +:+ get_display_name schema +:+ "(str, Enum):") p ps w3)) as S.
  { split; [apply grows_opened; exact Hps|].
    eexists. split; [apply opened_child; exact Hps|]. reflexivity. }
  apply post_bind.
  eapply post_mono;
    [apply post_and;
       [apply post_register_type_lookup
       |apply (keeps_register_type _ _ _ _ _ _ (extends_refl _))]|].
  intros rt w5 [Hrt E5].
  match goal with
  | |- post ?m _ _ => assert (closes m) as C
  end.
  { apply closes_bind.
    { destruct (Node.body schema); first [apply keeps_add_lines | apply keeps_raise]. }
    intros _. apply closes_return. intros _. apply keeps_ret. }
  eapply post_mono; [apply (C _ _ _ S E5)|].
  intros o w' [_ G]. apply (grows_types _ _ G). rewrite Hrt. eauto.
Qed.

Section Recursive.

Variable self_gen_struct : Node.t -> string -> M CapnpType.t.
Hypothesis keeps_self : forall schema name, keeps (self_gen_struct schema name).

Lemma gen_struct_body_registers schema name w :
  post (gen_struct_body module module_registry graph self_gen_struct schema name) w
    (fun _ w' => is_Some (type_map w' !! Node.id schema)).
Proof.
  unfold gen_struct_body. apply post_bind_any. intros _ w1.
  apply post_bind. eapply post_mono; [apply post_register_import_lookup|].
  intros [t|] w2 Himp.
  { apply post_ret. rewrite (Himp t eq_refl). eauto. }
  cbv zeta. apply post_bind_any. intros rp w3.
  apply post_bind. apply post_intro. intros [] w4 Hns.
  apply new_scope_inv in Hns as (p & ps & Hp & Hps & Hn & ->).
  match goal with
  | |- post _ (opened ?n ?s ?h p ps w3) _ =>
      assert (scoped w3 (opened n s h p ps w3)) as S
  end.
  { split; [apply grows_opened; exact Hps|].
    eexists. split; [apply opened_child; exact Hps|]. reflexivity. }
  apply post_bind.
  eapply post_mono;
    [apply post_and;
       [apply post_register_type_lookup
       |apply (keeps_register_type _ _ _ _ _ _ (extends_refl _))]|].
  intros rt w5 [Hrt E5].
  match goal with
  | |- post ?m _ _ => assert (closes m) as C
  end.
  { apply closes_bind; [apply keeps_set_generic_params|]. intros rt'.
    apply closes_bind; [apply keeps_struct_fields|]. intros fields.
    apply closes_bind; [apply keeps_gen_fields; exact keeps_self|]. intros l.
    apply closes_gen_struct_end. }
  eapply post_mono; [apply (C _ _ _ S E5)|].
  intros o w' [_ G]. apply (grows_types _ _ G). rewrite Hrt. eauto.
Qed.

End Recursive.

Lemma gen_struct_registers fuel schema name w :
  post (gen_struct module module_registry graph fuel schema name) w
    (fun _ w' => is_Some (type_map w' !! Node.id schema)).
Proof.
  destruct fuel as [|fuel]; [exact I|].
  apply gen_struct_body_registers. apply keeps_gen_struct.
Qed.

(** C3, as the code has it.  A first nested generation of a struct or an
    enum that returns has registered the node's identity; every later
    nested generation with that identity returns at once, and changes
    nothing: no line, no import, no entry of the registry. *)
Theorem generate_nested_idempotent fuel schema w w' :
  generate_nested module module_registry graph fuel schema w = Ret tt w' ->
  Node.which schema = "struct" \/ Node.which schema = "enum" ->
  is_Some (type_map w' !! Node.id schema)
  /\ forall fuel',
       generate_nested module module_registry graph fuel' schema w' = Ret tt w'.
Proof.
  intros H Hk.
  assert (is_Some (type_map w' !! Node.id schema)) as Hreg.
  { revert H. unfold generate_nested, generate_nested_with.
    rewrite bind_eq. cbn [is_type_id_known].
    destruct (bool_decide (is_Some (type_map w !! Node.id schema))) eqn:Hb.
    { intros E. injection E as <-. apply bool_decide_eq_true in Hb. exact Hb. }
    destruct Hk as [-> | ->]; cbn [String.eqb Ascii.eqb Bool.eqb];
      rewrite bind_eq.
    - pose proof (gen_struct_registers fuel schema "" w) as P. unfold post in P.
      destruct (gen_struct _ _ _ _ _ _ _) as [t w1|e w1]; [|discriminate].
      intros E. injection E as <-. exact P.
    - pose proof (gen_enum_registers schema w) as P. unfold post in P.
      destruct (gen_enum _ _ _ _) as [t w1|e w1]; [|discriminate].
      intros E. injection E as <-. exact P. }
  split; [exact Hreg|]. intros fuel'.
  unfold generate_nested, generate_nested_with. rewrite bind_eq.
  cbn [is_type_id_known].
  rewrite bool_decide_eq_true_2 by exact Hreg. reflexivity.
Qed.

End Idempotence.

Lemma generate_nested_idempotent_witness :
  is_Some (type_map Ex.after_enum !! Node.id Ex.test_enum)
  /\ forall fuel',
       generate_nested Ex.dummy Ex.dummy_registry Ex.dummy_graph fuel'
         Ex.test_enum Ex.after_enum
       = Ret tt Ex.after_enum.
Proof.
  apply (generate_nested_idempotent Ex.dummy Ex.dummy_registry Ex.dummy_graph
           1 Ex.test_enum Ex.dummy_writer Ex.after_enum).
  - vm_compute. reflexivity.
  - right. reflexivity.
Defined.

(** C3 fails for a constant: [gen_const] registers nothing, so a second
    nested generation of [answer] emits its line once more. *)
Lemma const_generated_twice :
  exists w1 w2,
    generate_nested Ex.dummy Ex.dummy_registry Ex.dummy_graph 1 Ex.answer
      Ex.dummy_writer = Ret tt w1
    /\ generate_nested Ex.dummy Ex.dummy_registry Ex.dummy_graph 1 Ex.answer
         w1 = Ret tt w2
    /\ type_map w1 !! Node.id Ex.answer = None
    /\ Scope.lines <$> heap w2 !! scope w2
       = Some ["answer: int"; "answer: int"].
Proof.
  eexists. eexists. split; [vm_compute; reflexivity|].
  split; [vm_compute; reflexivity|]. split; vm_compute; reflexivity.
Qed.

(** ** Imports from other modules *)

(** Whether a module of the registry lists [type_id] among its nested
    nodes, and the modules that do, in the order of the registry. *)
Definition claims_node (type_id : Z) (entry : Z * (string * Module_.t)) : bool :=
  existsb (fun '(_, i) => Z.eqb i type_id)
    (Node.nestedNodes (Module_.schema entry.2.2)).

Definition matching_modules (module_registry : ModuleRegistryType)
    (type_id : Z) : ModuleRegistryType :=
  List.filter (claims_node type_id) module_registry.

Lemma find_matching_path_fold registry type_id acc :
  fold_left
    (fun matching_path '(_, (path, m)) =>
       if existsb (fun '(_, i) => Z.eqb i type_id)
            (Node.nestedNodes (Module_.schema m))
       then Some (Path.of_string path)
       else matching_path)
    registry acc
  = match last (matching_modules registry type_id) with
    | Some entry => Some (Path.of_string entry.2.1)
    | None => acc
    end.
Proof.
  revert acc. induction registry as [|[k [path m]] r IH]; intros acc.
  - reflexivity.
  - cbn [fold_left]. rewrite IH. unfold matching_modules.
    cbn [List.filter]. unfold claims_node at 2. cbn [snd fst].
    destruct (existsb _ _); [|reflexivity].
    destruct (List.filter (claims_node type_id) r) as [|e l] eqn:E.
    + reflexivity.
    + rewrite (last_cons (k, (path, m))).
      destruct (last (e :: l)) eqn:El; [reflexivity|].
      apply last_None in El. discriminate.
Qed.

Lemma find_matching_path_last registry type_id :
  find_matching_path registry type_id
  = (fun entry : Z * (string * Module_.t) => Path.of_string entry.2.1)
      <$> last (matching_modules registry type_id).
Proof.
  unfold find_matching_path. rewrite find_matching_path_fold.
  destruct (last _); reflexivity.
Qed.

Lemma strip_common_prefix_l a b :
  strip_prefix (common_prefix a b) a = Some (drop (length (common_prefix a b)) a).
Proof.
  revert b. induction a as [|x a IH]; intros [|y b]; try reflexivity.
  cbn [common_prefix]. destruct (String.eqb x y) eqn:E; [|reflexivity].
  cbn [strip_prefix length drop]. rewrite String.eqb_refl. apply IH.
Qed.

Lemma strip_common_prefix_r a b :
  strip_prefix (common_prefix a b) b = Some (drop (length (common_prefix a b)) b).
Proof.
  revert b. induction a as [|x a IH]; intros [|y b]; try reflexivity.
  cbn [common_prefix]. destruct (String.eqb x y) eqn:E; [|reflexivity].
  cbn [strip_prefix length drop]. rewrite E. apply IH.
Qed.

Section Imports.

Variable module : Module_.t.
Variable module_registry : ModuleRegistryType.

(** The part of a path below the common ancestor of [p] and [q]. *)
Definition below_common (p q : Path.t) : Path.t :=
  Path.mk ""
    (drop (length (common_prefix (Path.parts p) (Path.parts q))) (Path.parts p)).

(** The import line for a definition found in the module at [matching_path]. *)
Definition import_line (module_path matching_path : Path.t)
    (definition_name : string) : string :=
  "from "
  +:+ python_import_path (below_common module_path matching_path)
        (below_common matching_path module_path)
  +:+ " import " +:+ definition_name.

(** The record that [register_import] enters into the registry. *)
Definition imported_type (schema : Node.t) (definition_name : string)
    (w : Writer) : CapnpType.t :=
  CapnpType.mk schema
    (if String.eqb definition_name "" then get_display_name schema
     else definition_name)
    (root (heap w) (scope w)) [].

Lemma common_prefix_comm a b : common_prefix a b = common_prefix b a.
Proof.
  revert b. induction a as [|x a IH]; intros [|y b]; try reflexivity.
  cbn [common_prefix]. rewrite (String.eqb_sym y x).
  destruct (String.eqb x y) eqn:E; [|reflexivity].
  apply String.eqb_eq in E. subst. f_equal. apply IH.
Qed.

(** The two paths can be related by [register_import]: both are relative,
    or both have the root [/]. *)
Definition related (p q : Path.t) : bool :=
  (String.eqb (Path.root p) "" && String.eqb (Path.root q) "")
  || (String.eqb (Path.root p) "/" && String.eqb (Path.root q) "/").

Lemma register_import_found schema module_name definition_name matching_path w :
  Str.split ":" (Node.displayName schema) = [module_name; definition_name] ->
  module_name <> base_module_name module ->
  find_matching_path module_registry (Node.id schema) = Some matching_path ->
  related (_module_path w) matching_path = true ->
  register_import module module_registry schema w
  = Ret (Some (imported_type schema definition_name w))
      (set_type_map
         (<[Node.id schema := imported_type schema definition_name w]>
            (type_map w))
         (set_imports
            ({[import_line (_module_path w) matching_path definition_name]}
             ∪ _imports w) w)).
Proof.
  intros Hs Hm Hf Hr. unfold register_import. rewrite Hs.
  apply String.eqb_neq in Hm. rewrite Hm. rewrite Hf.
  cbn [from_option]. erewrite bind_Ret; [|reflexivity].
  erewrite bind_Ret; [|reflexivity].
  unfold related in Hr. unfold commonpath, relative_to, Path.is_absolute.
  cbn [Path.root Path.parts].
  apply orb_prop in Hr as [Hr|Hr]; apply andb_prop in Hr as [Hp Hq];
    apply String.eqb_eq in Hp; apply String.eqb_eq in Hq; rewrite Hp, Hq;
    cbn [String.eqb Ascii.eqb Bool.eqb negb];
    (erewrite bind_Ret; [|reflexivity]);
    cbn [Path.root Path.parts String.eqb Ascii.eqb Bool.eqb];
    rewrite strip_common_prefix_l;
    (erewrite bind_Ret; [|reflexivity]);
    rewrite strip_common_prefix_r;
    (erewrite bind_Ret; [|reflexivity]);
    (erewrite bind_Ret; [|reflexivity]);
    (erewrite bind_Ret; [|reflexivity]);
    unfold import_line, below_common, imported_type;
    rewrite (common_prefix_comm (Path.parts matching_path));
    reflexivity.
Qed.

Lemma register_import_unrelated schema module_name definition_name
    matching_path w :
  Str.split ":" (Node.displayName schema) = [module_name; definition_name] ->
  module_name <> base_module_name module ->
  find_matching_path module_registry (Node.id schema) = Some matching_path ->
  related (_module_path w) matching_path = false ->
  register_import module module_registry schema w = Raise ValueError w.
Proof.
  intros Hs Hm Hf Hr. unfold register_import. rewrite Hs.
  apply String.eqb_neq in Hm. rewrite Hm. rewrite Hf.
  cbn [from_option]. erewrite bind_Ret; [|reflexivity].
  erewrite bind_Ret; [|reflexivity].
  unfold related in Hr. unfold commonpath, relative_to, Path.is_absolute.
  destruct (String.eqb (Path.root (_module_path w)) "") eqn:Ep;
    destruct (String.eqb (Path.root matching_path) "") eqn:Eq;
    cbn [negb Bool.eqb andb orb] in *; try discriminate Hr; try reflexivity.
  erewrite bind_Ret; [|reflexivity]. cbn [Path.root Path.parts].
  destruct (String.eqb (Path.root (_module_path w)) "/") eqn:Ep';
    [|reflexivity].
  cbn [andb orb] in Hr. rewrite strip_common_prefix_l.
  erewrite bind_Ret; [|reflexivity]. rewrite Hr. reflexivity.
Qed.

Lemma register_import_not_found schema module_name definition_name w :
  Str.split ":" (Node.displayName schema) = [module_name; definition_name] ->
  module_name <> base_module_name module ->
  find_matching_path module_registry (Node.id schema) = None ->
  register_import module module_registry schema w = Raise AssertionError w.
Proof.
  intros Hs Hm Hf. unfold register_import. rewrite Hs.
  apply String.eqb_neq in Hm. rewrite Hm. rewrite Hf. reflexivity.
Qed.

(** C4, as the code has it.  For a node of another module, the import
    fails with an assertion error, changing nothing, exactly when no
    registered module lists the node's identity.  When one or more
    modules list it, the last of them in the order of the registry is
    the source, however many there are: if the path of the current
    module and the path of the source are both relative or both have
    the root [/], the import succeeds, adds the import line for that
    path and registers the type under its name in the source with the
    root scope; otherwise it raises [ValueError] and changes nothing. *)
Theorem register_import_matches schema module_name definition_name w :
  Str.split ":" (Node.displayName schema) = [module_name; definition_name] ->
  module_name <> base_module_name module ->
  (matching_modules module_registry (Node.id schema) = [] <->
   register_import module module_registry schema w = Raise AssertionError w)
  /\ (forall entry,
        last (matching_modules module_registry (Node.id schema)) = Some entry ->
        let matching_path := Path.of_string entry.2.1 in
        let t := imported_type schema definition_name w in
        register_import module module_registry schema w
        = if related (_module_path w) matching_path
          then Ret (Some t)
                 (set_type_map (<[Node.id schema := t]> (type_map w))
                    (set_imports
                       ({[import_line (_module_path w) matching_path
                            definition_name]} ∪ _imports w) w))
          else Raise ValueError w).
Proof.
  intros Hs Hm.
  assert (forall entry,
            last (matching_modules module_registry (Node.id schema)) = Some entry ->
            register_import module module_registry schema w
            = if related (_module_path w) (Path.of_string entry.2.1)
              then Ret (Some (imported_type schema definition_name w))
                     (set_type_map
                        (<[Node.id schema := imported_type schema definition_name w]>
                           (type_map w))
                        (set_imports
                           ({[import_line (_module_path w)
                                (Path.of_string entry.2.1) definition_name]}
                            ∪ _imports w) w))
              else Raise ValueError w) as Hlast.
  { intros entry Hl.
    assert (find_matching_path module_registry (Node.id schema)
            = Some (Path.of_string entry.2.1)) as Hf
      by (rewrite find_matching_path_last, Hl; reflexivity).
    destruct (related (_module_path w) (Path.of_string entry.2.1)) eqn:Hr.
    - eapply register_import_found; eauto.
    - eapply register_import_unrelated; eauto. }
  split; [split|exact Hlast].
  - intros Hnone. eapply register_import_not_found; eauto.
    rewrite find_matching_path_last, Hnone. reflexivity.
  - intros Hraise.
    destruct (last (matching_modules module_registry (Node.id schema)))
      as [entry|] eqn:Hl; [|apply last_None in Hl; exact Hl].
    rewrite (Hlast entry eq_refl) in Hraise.
    destruct (related _ _); discriminate Hraise.
Qed.

End Imports.

Module ExImport.

(** [/proj/a/b/app.capnp] uses [Thing], which [/proj/c/d/other.capnp]
    declares: both files lie two directories below [/proj]. *)
Definition thing : Node.t :=
  Node.mk 50 "other.capnp:Thing" 12 41 false [] []
    (NStruct [Field.mk "n" 65535 (FSlot TInt32)] 0).

Definition app_file : Node.t :=
  Node.mk 40 "app.capnp" 0 0 false [] [] NFile.

Definition other_file : Node.t :=
  Node.mk 41 "other.capnp" 0 0 false [] [("Thing", 50)] NFile.

Definition app : Module_.t := Module_.mk (Some "/proj/a/b/app.capnp") app_file.

Definition other : Module_.t :=
  Module_.mk (Some "/proj/c/d/other.capnp") other_file.

Definition registry : ModuleRegistryType :=
  [ (40, ("/proj/a/b/app.capnp", app));
    (41, ("/proj/c/d/other.capnp", other)) ].

(** A registry in which a second module lists [Thing] as well. *)
Definition copy_file : Node.t :=
  Node.mk 42 "copy.capnp" 0 0 false [] [("Thing", 50)] NFile.

Definition copy : Module_.t := Module_.mk (Some "/proj/e/copy.capnp") copy_file.

Definition ambiguous_registry : ModuleRegistryType :=
  registry ++ [(42, ("/proj/e/copy.capnp", copy))].

(** A registry that gives the path of [other.capnp] with two leading
    slashes, which [pathlib] keeps as a root of their own. *)
Definition slashes_registry : ModuleRegistryType :=
  [ (40, ("/proj/a/b/app.capnp", app));
    (41, ("//proj/c/d/other.capnp", other)) ].

Definition app_writer : Writer :=
  match init app with
  | inr w => w
  | inl _ => Ex.empty_writer
  end.

End ExImport.

Lemma register_import_matches_witness :
  register_import ExImport.app ExImport.registry ExImport.thing
    ExImport.app_writer
  = Ret (Some (CapnpType.mk ExImport.thing "Thing" 0%nat []))
      (set_type_map
         (<[50 := CapnpType.mk ExImport.thing "Thing" 0%nat []]>
            (type_map ExImport.app_writer))
         (set_imports
            ({["from ...c.d.other_capnp import Thing"]}
             ∪ _imports ExImport.app_writer) ExImport.app_writer))
  /\ register_import ExImport.app ExImport.slashes_registry ExImport.thing
       ExImport.app_writer
     = Raise ValueError ExImport.app_writer.
Proof.
  split.
  - apply (proj2 (register_import_matches ExImport.app ExImport.registry
                    ExImport.thing "other.capnp" "Thing" ExImport.app_writer
                    eq_refl ltac:(discriminate))
             (41, ("/proj/c/d/other.capnp", ExImport.other)) eq_refl).
  - apply (proj2 (register_import_matches ExImport.app
                    ExImport.slashes_registry
                    ExImport.thing "other.capnp" "Thing" ExImport.app_writer
                    eq_refl ltac:(discriminate))
             (41, ("//proj/c/d/other.capnp", ExImport.other)) eq_refl).
Defined.

(** C4 fails as stated: with two modules that list [Thing], the import
    does not fail; the last module of the registry is taken. *)
Lemma ambiguous_import_succeeds :
  length (matching_modules ExImport.ambiguous_registry 50) = 2%nat
  /\ exists t w',
       register_import ExImport.app ExImport.ambiguous_registry ExImport.thing
         ExImport.app_writer = Ret (Some t) w'
       /\ _imports w'
          = {["from ...e.copy_capnp import Thing"]}
            ∪ _imports ExImport.app_writer.
Proof.
  split; [reflexivity|]. eexists. eexists.
  split; vm_compute; reflexivity.
Qed.

(** ** The depth of a relative import *)


(** * Further properties of the writer *)

(** ** A whole pass *)

Section Pass.

Variable module : Module_.t.
Variable module_registry : ModuleRegistryType.
Variable graph : list Node.t.

Lemma keeps_get_nested name : keeps (get_nested module graph name).
Proof.
  unfold get_nested. destruct (find _ _) as [[n i]|];
    [apply keeps_get_schema | apply keeps_raise].
Qed.

Lemma keeps_generate_each fuel nodes :
  keeps (generate_each module module_registry graph fuel nodes).
Proof.
  induction nodes as [|[name i] rest IH]; [apply keeps_ret|].
  cbn [generate_each].
  apply keeps_bind; [apply keeps_get_nested|]. intros schema.
  apply keeps_bind; [apply keeps_generate_nested|]. intros _. exact IH.
Qed.

Lemma keeps_generate_recursive fuel :
  keeps (generate_recursive module module_registry graph fuel).
Proof. apply keeps_generate_each. Qed.

Lemma extends_root_is_current w w' :
  extends w w' -> root_is_current w = true -> root_is_current w' = true.
Proof.
  intros [Hs G]. unfold root_is_current. rewrite Hs.
  destruct (heap w !! scope w) as [s|] eqn:E; [|discriminate].
  destruct (grows_heap _ _ G _ _ E) as [extra ->]. intros H. exact H.
Qed.

(** X1.  After a pass that returns, the root scope is current again, so that
    neither [dumps_pyi] nor [dumps_py] fails its assertion. *)
Theorem dumps_after_pass set_iter fuel w w' :
  root_is_current w = true ->
  generate_recursive module module_registry graph fuel w = Ret tt w' ->
  scope w' = scope w
  /\ dumps_pyi set_iter w' = inr (Str.join newline (dumps_pyi_lines set_iter w'))
  /\ dumps_py module w' = inr (Str.join newline (dumps_py_lines module w')).
Proof.
  intros Hr H.
  pose proof (keeps_generate_recursive fuel w w (extends_refl w)) as K.
  unfold post in K. rewrite H in K.
  pose proof (extends_root_is_current _ _ K Hr) as Hr'.
  split; [apply K|]. unfold dumps_pyi, dumps_py. rewrite Hr'. split; reflexivity.
Qed.

Lemma generate_nested_registers fuel schema w :
  Node.which schema = "struct" \/ Node.which schema = "enum" ->
  post (generate_nested module module_registry graph fuel schema) w
    (fun _ w' => is_Some (type_map w' !! Node.id schema)).
Proof.
  intros Hk. apply post_intro. intros [] w'.
  unfold generate_nested, generate_nested_with.
  rewrite bind_eq. cbn [is_type_id_known].
  destruct (bool_decide (is_Some (type_map w !! Node.id schema))) eqn:Hb.
  { intros E. injection E as <-. apply bool_decide_eq_true in Hb. exact Hb. }
  destruct Hk as [-> | ->]; cbn [String.eqb Ascii.eqb Bool.eqb];
    rewrite bind_eq.
  - pose proof (gen_struct_registers module module_registry graph fuel schema
                  "" w) as P.
    unfold post in P.
    destruct (gen_struct _ _ _ _ _ _ _) as [t w1|e w1]; [|discriminate].
    intros E. injection E as <-. exact P.
  - pose proof (gen_enum_registers module module_registry schema w) as P.
    unfold post in P.
    destruct (gen_enum _ _ _ _) as [t w1|e w1]; [|discriminate].
    intros E. injection E as <-. exact P.
Qed.

Lemma generate_each_registers fuel nodes :
  forall w name schema w0,
    (exists i, (name, i) ∈ nodes) ->
    get_nested module graph name w0 = Ret schema w0 ->
    Node.which schema = "struct" \/ Node.which schema = "enum" ->
    post (generate_each module module_registry graph fuel nodes) w
      (fun _ w' => is_Some (type_map w' !! Node.id schema)).
Proof.
  induction nodes as [|[n i] rest IH]; intros w name schema w0 [j Hin] Hg Hk.
  - inversion Hin.
  - cbn [generate_each]. apply post_bind. apply post_intro. intros s1 w1 H1.
    assert (w1 = w) as ->.
    { revert H1. unfold get_nested. destruct (find _ _) as [[? ?]|]; [|discriminate].
      unfold get_schema. destruct (find _ graph); [|discriminate].
      intros E. injection E as _ <-. reflexivity. }
    apply post_bind.
    destruct (decide (n = name)) as [->|Hne].
    + assert (s1 = schema) as ->.
      { revert H1 Hg. unfold get_nested.
        destruct (find _ _) as [[? ?]|]; [|discriminate].
        unfold get_schema. destruct (find _ graph); [|discriminate].
        intros E1 E2. injection E1 as <-. injection E2 as <-. reflexivity. }
      eapply post_mono; [apply post_and;
        [apply generate_nested_registers; exact Hk
        |apply (keeps_generate_nested _ _ _ _ _ _ _ (extends_refl _))]|].
      intros [] w2 [Hreg E2].
      eapply post_mono;
        [apply (keeps_generate_each fuel rest _ _ (extends_refl _))|].
      intros [] w3 [_ G]. apply (grows_types _ _ G). exact Hreg.
    + apply post_intro. intros [] w2 _.
      eapply IH; eauto. exists j. inversion Hin; subst; [congruence | assumption].
Qed.

(** X2.  After a pass that returns, every struct and every enum that the
    module lists among its nested nodes is registered. *)
Theorem pass_registers_nested fuel w w' name i schema :
  (name, i) ∈ Node.nestedNodes (Module_.schema module) ->
  get_nested module graph name w = Ret schema w ->
  Node.which schema = "struct" \/ Node.which schema = "enum" ->
  generate_recursive module module_registry graph fuel w = Ret tt w' ->
  is_Some (type_map w' !! Node.id schema).
Proof.
  intros Hin Hg Hk H.
  pose proof (generate_each_registers fuel _ w name schema w
                (ex_intro _ i Hin) Hg Hk) as P.
  unfold post, generate_recursive in *. rewrite H in P. exact P.
Qed.

End Pass.

Lemma dumps_after_pass_witness :
  let w' := Ex.final (generate_recursive Ex.dummy Ex.dummy_registry
                        Ex.dummy_graph 5 Ex.dummy_writer) in
  scope w' = scope Ex.dummy_writer
  /\ dumps_pyi elements w' = inr (Str.join newline (dumps_pyi_lines elements w'))
  /\ dumps_py Ex.dummy w' = inr (Str.join newline (dumps_py_lines Ex.dummy w')).
Proof.
  apply (dumps_after_pass Ex.dummy Ex.dummy_registry Ex.dummy_graph elements 5
           Ex.dummy_writer).
  - reflexivity.
  - vm_compute. reflexivity.
Defined.

Lemma pass_registers_nested_witness :
  is_Some (type_map
             (Ex.final (generate_recursive Ex.dummy Ex.dummy_registry
                          Ex.dummy_graph 5 Ex.dummy_writer))
           !! Node.id Ex.test_map).
Proof.
  apply (pass_registers_nested Ex.dummy Ex.dummy_registry Ex.dummy_graph 5
           Ex.dummy_writer _ "TestMap" 11 Ex.test_map).
  - apply list_elem_of_here.
  - reflexivity.
  - left. reflexivity.
  - vm_compute. reflexivity.
Defined.

(** ** A missing ancestor scope *)

Section MissingAncestor.

Variable module : Module_.t.
Variable module_registry : ModuleRegistryType.
Variable graph : list Node.t.

(** The state in which [gen_enum] raises when the enclosing scope of the
    enum is not registered: the import of [Enum] has been added. *)
Definition with_enum_import (w : Writer) : Writer :=
  set_imports ({["from enum import Enum"]} ∪ _imports w) w.

Lemma gen_enum_missing_parent schema definition_name w :
  Node.which schema = "enum" ->
  Str.split ":" (Node.displayName schema)
  = [base_module_name module; definition_name] ->
  idict_get (Node.scopeId schema) (scopes_by_id w) = None ->
  gen_enum module module_registry schema w
  = Raise NoParentError (with_enum_import w).
Proof.
  intros Hk Hs Hp. unfold gen_enum. rewrite Hk.
  cbn [String.eqb Ascii.eqb Bool.eqb CapnpElementType.ENUM assert_].
  erewrite bind_Ret; [|reflexivity].
  rewrite (bind_Ret _ _ w None w (register_import_local _ _ _ _ _ Hs)).
  erewrite bind_Ret; [|reflexivity].
  erewrite bind_Raise; [reflexivity|].
  apply new_scope_no_parent. exact Hp.
Qed.

Lemma find_id_eq type_id schema :
  find (fun n => Z.eqb (Node.id n) type_id) graph = Some schema ->
  Node.id schema = type_id.
Proof.
  induction graph as [|n g IH]; [discriminate|]. cbn [find].
  destruct (Z.eqb (Node.id n) type_id) eqn:E.
  - intros H. injection H as <-. apply Z.eqb_eq. exact E.
  - exact IH.
Qed.

Lemma enum_schema_found type_id schema w :
  find (fun n => Z.eqb (Node.id n) type_id) graph = Some schema ->
  Node.which schema = "enum" ->
  enum_schema graph type_id w = Ret schema w.
Proof.
  intros Hf Hk. unfold enum_schema, get_schema. rewrite Hf.
  cbn [from_option]. erewrite bind_Ret; [|reflexivity].
  rewrite Hk. reflexivity.
Qed.

Lemma nested_enum_missing_parent fuel type_id schema definition_name w :
  find (fun n => Z.eqb (Node.id n) type_id) graph = Some schema ->
  Node.which schema = "enum" ->
  Str.split ":" (Node.displayName schema)
  = [base_module_name module; definition_name] ->
  idict_get (Node.scopeId schema) (scopes_by_id w) = None ->
  type_map w !! type_id = None ->
  (enum_schema graph type_id
   ≫= fun s => generate_nested_with module module_registry
                 (gen_struct module module_registry graph fuel) s) w
  = Raise NoParentError (with_enum_import w).
Proof.
  intros Hf Hk Hs Hp Hn.
  rewrite (bind_Ret _ _ w schema w (enum_schema_found _ _ _ Hf Hk)).
  unfold generate_nested_with. rewrite bind_eq. cbn [is_type_id_known].
  rewrite (find_id_eq _ _ Hf), Hn.
  rewrite bool_decide_eq_false_2 by (intros [? ?]; discriminate).
  rewrite Hk. cbn [String.eqb Ascii.eqb Bool.eqb].
  erewrite bind_Raise; [reflexivity|].
  eapply gen_enum_missing_parent; eauto.
Qed.

(** X3.  An enum whose enclosing scope was never registered.  Met through an
    enum slot, the [NoParentError] of [new_scope] is caught, but the type
    is still unknown, so that looking up its name raises [KeyError]: the
    struct's generation stops there all the same.  Met through a list
    slot, the [NoParentError] propagates.  Either way the import of
    [Enum] stays added. *)
Theorem enum_without_parent_scope fuel owner field_name discriminant
    type_id schema definition_name rt kw ch w :
  find (fun n => Z.eqb (Node.id n) type_id) graph = Some schema ->
  Node.which schema = "enum" ->
  Str.split ":" (Node.displayName schema)
  = [base_module_name module; definition_name] ->
  idict_get (Node.scopeId schema) (scopes_by_id w) = None ->
  type_map w !! type_id = None ->
  gen_slot module module_registry graph fuel owner
    (Field.mk field_name discriminant (FSlot (TEnum type_id))) rt kw ch w
  = Raise KeyError (with_enum_import w)
  /\ gen_slot module module_registry graph fuel owner
       (Field.mk field_name discriminant (FSlot (TList (TEnum type_id))))
       rt kw ch w
     = Raise NoParentError (with_enum_import w).
Proof.
  intros Hf Hk Hs Hp Hn.
  pose proof (nested_enum_missing_parent fuel _ _ _ _ Hf Hk Hs Hp Hn) as N.
  split.
  - unfold gen_slot, gen_slot_with. cbn [Field.body which].
    cbn [String.eqb Ascii.eqb Bool.eqb CapnpSlotType.LIST CapnpSlotType.ENUM
         dict_get CAPNP_TYPE_TO_PYTHON].
    rewrite bool_decide_eq_false_2 by (intros [? ?]; discriminate).
    erewrite bind_Raise; [reflexivity|].
    unfold gen_enum_slot. cbn [Field.body].
    rewrite bind_eq. cbn [is_type_id_known]. rewrite Hn.
    rewrite bool_decide_eq_false_2 by (intros [? ?]; discriminate).
    rewrite bind_eq. unfold try_except_pass. rewrite N.
    rewrite decide_True by reflexivity.
    erewrite bind_Raise; [reflexivity|].
    cbn [get_type_name which dict_get CAPNP_TYPE_TO_PYTHON String.eqb Ascii.eqb
         Bool.eqb].
    erewrite bind_Raise; [reflexivity|].
    unfold get_type_by_id, with_enum_import. cbn [type_map set_imports].
    rewrite Hn. reflexivity.
  - unfold gen_slot, gen_slot_with. cbn [Field.body which].
    cbn [String.eqb Ascii.eqb Bool.eqb CapnpSlotType.LIST].
    erewrite bind_Raise; [reflexivity|].
    unfold gen_list_slot. cbn [Field.body which].
    cbn [String.eqb Ascii.eqb Bool.eqb CapnpElementType.STRUCT
         CapnpElementType.ENUM].
    erewrite bind_Raise; [reflexivity|].
    unfold ensure_nested. rewrite bind_eq. cbn [is_type_id_known]. rewrite Hn.
    rewrite bool_decide_eq_false_2 by (intros [? ?]; discriminate).
    exact N.
Qed.

End MissingAncestor.

Module ExOrphan.

(** [orphan.capnp]: the struct [Holder] has a field of the enum [Kind],
    which is declared inside [Shelf], a struct that no field has reached
    yet. *)
Definition kind : Node.t :=
  Node.mk 63 "orphan.capnp:Shelf.Kind" 19 62 false [] []
    (NEnum ["small"; "large"]).

Definition shelf : Node.t :=
  Node.mk 62 "orphan.capnp:Shelf" 13 60 false [] [("Kind", 63)]
    (NStruct [Field.mk "n" 65535 (FSlot TInt32)] 0).

Definition holder : Node.t :=
  Node.mk 61 "orphan.capnp:Holder" 13 60 false [] []
    (NStruct [Field.mk "kind" 65535 (FSlot (TEnum 63))] 0).

Definition orphan_file : Node.t :=
  Node.mk 60 "orphan.capnp" 0 0 false [] [("Holder", 61); ("Shelf", 62)] NFile.

Definition orphan : Module_.t := Module_.mk (Some "/s/orphan.capnp") orphan_file.

Definition graph : list Node.t := [orphan_file; holder; shelf; kind].

Definition registry : ModuleRegistryType := [(60, ("/s/orphan.capnp", orphan))].

Definition writer : Writer :=
  match init orphan with
  | inr w => w
  | inl _ => Ex.empty_writer
  end.

Definition holder_type : CapnpType.t := CapnpType.mk holder "Holder" 0%nat [].

End ExOrphan.

Lemma enum_without_parent_scope_witness :
  gen_slot ExOrphan.orphan ExOrphan.registry ExOrphan.graph 3 ExOrphan.holder
    (Field.mk "kind" 65535 (FSlot (TEnum 63))) ExOrphan.holder_type [] []
    ExOrphan.writer
  = Raise KeyError (with_enum_import ExOrphan.writer)
  /\ gen_slot ExOrphan.orphan ExOrphan.registry ExOrphan.graph 3 ExOrphan.holder
       (Field.mk "kind" 65535 (FSlot (TList (TEnum 63)))) ExOrphan.holder_type
       [] [] ExOrphan.writer
     = Raise NoParentError (with_enum_import ExOrphan.writer).
Proof.
  apply (enum_without_parent_scope ExOrphan.orphan ExOrphan.registry
           ExOrphan.graph 3 ExOrphan.holder "kind" 65535 63 ExOrphan.kind
           "Shelf.Kind"); reflexivity.
Defined.

(** ** The order of the output *)

Lemma leb_cons x a y b :
  Str.leb (String x a) (String y b)
  = if (nat_of_ascii x <? nat_of_ascii y)%nat then true
    else if (nat_of_ascii x =? nat_of_ascii y)%nat then Str.leb a b else false.
Proof. reflexivity. Qed.

Lemma nat_of_ascii_inj x y : nat_of_ascii x = nat_of_ascii y -> x = y.
Proof.
  intros H. rewrite <- (ascii_nat_embedding x), <- (ascii_nat_embedding y), H.
  reflexivity.
Qed.

#[global] Instance str_le_total : Total Str.le.
Proof.
  intros a. unfold Str.le. induction a as [|x a IH]; intros [|y b];
    try (left; reflexivity); try (right; reflexivity).
  rewrite !leb_cons.
  destruct (Nat.ltb_spec (nat_of_ascii x) (nat_of_ascii y)); [left; reflexivity|].
  destruct (Nat.ltb_spec (nat_of_ascii y) (nat_of_ascii x)); [right; reflexivity|].
  assert (nat_of_ascii x = nat_of_ascii y) as E by lia.
  rewrite E, Nat.eqb_refl. apply IH.
Qed.

#[global] Instance str_le_trans : Transitive Str.le.
Proof.
  intros a. unfold Str.le. induction a as [|x a IH]; intros [|y b] [|z c];
    try reflexivity; try discriminate.
  rewrite !leb_cons.
  destruct (Nat.ltb_spec (nat_of_ascii x) (nat_of_ascii y)),
           (Nat.ltb_spec (nat_of_ascii y) (nat_of_ascii z)),
           (Nat.ltb_spec (nat_of_ascii x) (nat_of_ascii z));
    try reflexivity; try lia;
    destruct (Nat.eqb_spec (nat_of_ascii x) (nat_of_ascii y)),
             (Nat.eqb_spec (nat_of_ascii y) (nat_of_ascii z)),
             (Nat.eqb_spec (nat_of_ascii x) (nat_of_ascii z));
    try discriminate; try lia; try (intros; discriminate).
  apply IH.
Qed.

#[global] Instance str_le_antisym : AntiSymm (=) Str.le.
Proof.
  intros a. unfold Str.le. induction a as [|x a IH]; intros [|y b];
    try reflexivity; try discriminate.
  rewrite !leb_cons.
  destruct (Nat.ltb_spec (nat_of_ascii x) (nat_of_ascii y)),
           (Nat.ltb_spec (nat_of_ascii y) (nat_of_ascii x)); try lia.
  - rewrite (proj2 (Nat.eqb_neq _ _)) by lia. discriminate.
  - destruct (Nat.eqb_spec (nat_of_ascii x) (nat_of_ascii y)); [lia | discriminate].
  - assert (nat_of_ascii x = nat_of_ascii y) as E by lia.
    rewrite E, Nat.eqb_refl. intros H1 H2.
    apply nat_of_ascii_inj in E. subst. f_equal. apply IH; assumption.
Qed.

(** [sorted] gives the same list for every order of its argument. *)
Lemma sorted_permutation l1 l2 : l1 ≡ₚ l2 -> Str.sorted l1 = Str.sorted l2.
Proof.
  intros H. unfold Str.sorted. apply (Sorted_unique Str.le).
  - apply Sorted_merge_sort. apply _.
  - apply Sorted_merge_sort. apply _.
  - rewrite !merge_sort_Permutation. exact H.
Qed.

(** What follows the plain import lines in the declaration surface: the
    line of the typing imports, the type variables, the root's lines. *)
Definition after_imports (w : Writer) : list string :=
  (if bool_decide (_typing_imports w = ∅) then []
   else ["from typing import "
         +:+ Str.join ", " (Str.sorted (elements (_typing_imports w)))])
  ++ [""]
  ++ (if bool_decide (type_vars w = ∅) then []
      else map type_var_line (Str.sorted (elements (type_vars w))) ++ [""])
  ++ match heap w !! scope w with
     | Some s => Scope.lines s
     | None => []
     end.

(** X4.  The declaration surface depends on the order in which Python iterates
    over a set only in the order of the plain import lines: the names
    after [from typing import] and the type variables are sorted.  Two
    iteration orders give the same lines, up to a permutation of those
    import lines. *)
Theorem dumps_pyi_lines_order iter1 iter2 w :
  (forall X, iter1 X ≡ₚ elements X) ->
  (forall X, iter2 X ≡ₚ elements X) ->
  dumps_pyi_lines iter1 w = docstring w :: iter1 (_imports w) ++ after_imports w
  /\ dumps_pyi_lines iter2 w = docstring w :: iter2 (_imports w) ++ after_imports w
  /\ dumps_pyi_lines iter1 w ≡ₚ dumps_pyi_lines iter2 w.
Proof.
  intros H1 H2.
  assert (forall iter, (forall X, iter X ≡ₚ elements X) ->
            dumps_pyi_lines iter w
            = docstring w :: iter (_imports w) ++ after_imports w) as E.
  { intros iter H. unfold dumps_pyi_lines, imports, after_imports.
    rewrite (sorted_permutation _ _ (H (_typing_imports w))).
    rewrite (sorted_permutation _ _ (H (type_vars w))).
    cbn [app]. rewrite <- !app_assoc. reflexivity. }
  rewrite (E iter1 H1), (E iter2 H2). split; [reflexivity|].
  split; [reflexivity|].
  constructor. apply Permutation_app_tail. rewrite H1, H2. reflexivity.
Qed.

Lemma dumps_pyi_lines_order_witness :
  dumps_pyi_lines elements Ex.after_enum
  = docstring Ex.after_enum :: elements (_imports Ex.after_enum)
    ++ after_imports Ex.after_enum
  /\ dumps_pyi_lines (fun X => reverse (elements X)) Ex.after_enum
     = docstring Ex.after_enum :: reverse (elements (_imports Ex.after_enum))
       ++ after_imports Ex.after_enum
  /\ dumps_pyi_lines elements Ex.after_enum
     ≡ₚ dumps_pyi_lines (fun X => reverse (elements X)) Ex.after_enum.
Proof.
  apply (dumps_pyi_lines_order elements (fun X => reverse (elements X))
           Ex.after_enum).
  - intros X. reflexivity.
  - intros X. apply reverse_Permutation.
Defined.

(** ** Lines and their indentation *)

Lemma parent_chain_same fuel (h h' : list Scope.t) o :
  (forall i, Scope.parent <$> h' !! i = Scope.parent <$> h !! i) ->
  parent_chain fuel h' o = parent_chain fuel h o.
Proof.
  intros H. revert o. induction fuel as [|fuel IH]; intros [r|]; try reflexivity.
  cbn [parent_chain]. specialize (H r).
  destruct (h' !! r) as [s'|], (h !! r) as [s|]; cbn in H; try discriminate.
  - injection H as H. rewrite H, IH. reflexivity.
  - reflexivity.
Qed.

Lemma parents_insert_lines (h : list Scope.t) (r : nat) s extra (i : nat) :
  h !! r = Some s ->
  Scope.parent <$> (<[r := Scope.add_lines extra s]> h) !! i
  = Scope.parent <$> h !! i.
Proof.
  intros Hr. destruct (decide (i = r)) as [->|Hne].
  - rewrite list_lookup_insert_eq by (eapply lookup_lt_Some; eauto).
    rewrite Hr. reflexivity.
  - rewrite list_lookup_insert_ne by auto. reflexivity.
Qed.

Lemma indent_spaces_insert_lines (h : list Scope.t) (r : nat) s extra x x' :
  h !! r = Some s ->
  Scope.parent x' = Scope.parent x ->
  indent_spaces (<[r := Scope.add_lines extra s]> h) x' = indent_spaces h x.
Proof.
  intros Hr Hp. unfold indent_spaces, parents.
  rewrite length_insert, Hp.
  rewrite (parent_chain_same _ h (<[r := Scope.add_lines extra s]> h));
    [reflexivity|].
  intros i. apply parents_insert_lines. exact Hr.
Qed.

Lemma set_heap_same w : set_heap (heap w) w = w.
Proof. destruct w. reflexivity. Qed.

Lemma add_line_eq line w s :
  heap w !! scope w = Some s ->
  add_line line w
  = Ret tt (set_heap
              (<[scope w := Scope.add_lines
                              [indented (indent_spaces (heap w) s) line] s]>
                 (heap w)) w).
Proof. intros H. unfold add_line, add_line_at. rewrite H. reflexivity. Qed.

(** Lines added one after the other to the current scope all get the
    indentation of that scope. *)
Lemma add_lines_eq ls : forall w s,
  heap w !! scope w = Some s ->
  add_lines ls w
  = Ret tt (set_heap
              (<[scope w := Scope.add_lines
                              (map (indented (indent_spaces (heap w) s)) ls) s]>
                 (heap w)) w).
Proof.
  induction ls as [|l ls IH]; intros w s H.
  - cbn [add_lines map]. rewrite add_lines_nil, list_insert_id by exact H.
    rewrite set_heap_same. reflexivity.
  - cbn [add_lines map].
    rewrite (bind_Ret _ _ _ _ _ (add_line_eq l w s H)).
    set (s1 := Scope.add_lines [indented (indent_spaces (heap w) s) l] s).
    set (w1 := set_heap (<[scope w := s1]> (heap w)) w).
    assert (heap w1 !! scope w1 = Some s1) as H1.
    { cbn. apply list_lookup_insert_eq. eapply lookup_lt_Some; eauto. }
    rewrite (IH w1 s1 H1). subst w1. cbn [heap scope set_heap].
    rewrite list_insert_insert_eq.
    assert (indent_spaces (<[scope w := s1]> (heap w)) s1
            = indent_spaces (heap w) s) as ->.
    { apply indent_spaces_insert_lines; [exact H | reflexivity]. }
    subst s1. rewrite add_lines_app. reflexivity.
Qed.

(** In a well-formed heap, the parent of a scope object is an older
    object. *)
Definition wf_heap (h : list Scope.t) : Prop :=
  forall i s q, h !! i = Some s -> Scope.parent s = Some q -> (q < i)%nat.

Lemma parent_chain_app fuel (h t : list Scope.t) o :
  wf_heap h ->
  (forall q, o = Some q -> (q < length h)%nat) ->
  parent_chain fuel (h ++ t) o = parent_chain fuel h o.
Proof.
  intros Hwf. revert o. induction fuel as [|fuel IH]; intros [r|] Ho;
    try reflexivity.
  cbn [parent_chain]. specialize (Ho r eq_refl).
  rewrite lookup_app_l by exact Ho.
  destruct (h !! r) as [s|] eqn:E; [|reflexivity].
  f_equal. apply IH. intros q Hq.
  specialize (Hwf r s q E Hq). lia.
Qed.

Lemma wf_heap_insert_lines (h : list Scope.t) (r : nat) s extra :
  wf_heap h -> h !! r = Some s -> wf_heap (<[r := Scope.add_lines extra s]> h).
Proof.
  intros Hwf Hr i x q Hi Hq. destruct (decide (i = r)) as [->|Hne].
  - rewrite list_lookup_insert_eq in Hi by (eapply lookup_lt_Some; eauto).
    injection Hi as <-. eapply Hwf; eauto.
  - rewrite list_lookup_insert_ne in Hi by auto. eapply Hwf; eauto.
Qed.

Lemma wf_heap_snoc (h : list Scope.t) s :
  wf_heap h ->
  (forall q, Scope.parent s = Some q -> (q < length h)%nat) ->
  wf_heap (h ++ [s]).
Proof.
  intros Hwf Hs i x q Hi Hq.
  destruct (decide (i < length h)%nat) as [Hlt|Hge].
  - rewrite lookup_app_l in Hi by exact Hlt. eapply Hwf; eauto.
  - rewrite lookup_app_r in Hi by lia.
    destruct (i - length h)%nat as [|k] eqn:Ek; [|destruct k; discriminate].
    injection Hi as <-. specialize (Hs q Hq). lia.
Qed.

Lemma wf_heap_root name id return_scope lines :
  wf_heap [Scope.mk name id None return_scope lines].
Proof.
  intros i s q Hi Hq. destruct i as [|i]; [|destruct i; discriminate].
  injection Hi as <-. discriminate.
Qed.

Lemma indent_opened name node heading p ps w rs ls :
  wf_heap (heap w) ->
  heap w !! p = Some ps ->
  indent_spaces (heap (opened name node heading p ps w))
    (Scope.mk name (Node.id node) (Some p) rs ls)
  = (indent_spaces (heap w) ps + INDENT_SPACES)%nat.
Proof.
  intros Hwf Hps. pose proof (lookup_lt_Some _ _ _ Hps) as Hlt.
  set (ps' := Scope.add_lines [indented (indent_spaces (heap w) ps) heading] ps).
  assert (wf_heap (<[p := ps']> (heap w))) as Hwf'.
  { apply wf_heap_insert_lines; assumption. }
  unfold indent_spaces, parents.
  cbn [heap opened set_scopes_by_id set_scope set_heap Scope.parent].
  rewrite length_app, length_insert. cbn [length].
  rewrite Nat.add_1_r. cbn [parent_chain].
  rewrite lookup_app_l by (rewrite length_insert; exact Hlt).
  rewrite list_lookup_insert_eq by exact Hlt.
  cbn [Scope.parent Scope.add_lines].
  rewrite parent_chain_app; [|exact Hwf'|].
  2:{ intros q Hq. rewrite length_insert.
      specialize (Hwf p ps q Hps Hq). lia. }
  rewrite (parent_chain_same _ (heap w));
    [|intros i; apply parents_insert_lines; exact Hps].
  cbn [rev]. rewrite length_app, length_rev. cbn [length].
  unfold INDENT_SPACES. lia.
Qed.

(** X5.  The scope that [new_scope] opens is indented by four spaces more than
    its parent, and the heap stays well-formed. *)
Theorem new_scope_indentation name node heading w w' :
  wf_heap (heap w) ->
  new_scope name node heading w = Ret tt w' ->
  wf_heap (heap w')
  /\ exists p ps child,
       idict_get (Node.scopeId node) (scopes_by_id w) = Some p
       /\ heap w !! p = Some ps
       /\ heap w' !! scope w' = Some child
       /\ Scope.parent child = Some p
       /\ Scope.lines child = []
       /\ indent_spaces (heap w') child
          = (indent_spaces (heap w) ps + INDENT_SPACES)%nat
       /\ Scope.lines <$> heap w' !! p
          = Some (Scope.lines ps
                  ++ [indented (indent_spaces (heap w) ps) heading]).
Proof.
  intros Hwf H.
  apply new_scope_inv in H as (p & ps & Hp & Hps & Hn & ->).
  pose proof (lookup_lt_Some _ _ _ Hps) as Hlt.
  split.
  - cbn [heap opened set_scopes_by_id set_scope set_heap].
    apply wf_heap_snoc; [apply wf_heap_insert_lines; assumption|].
    intros q Hq. injection Hq as <-. rewrite length_insert. exact Hlt.
  - exists p, ps. eexists. split; [exact Hp|]. split; [exact Hps|].
    split; [apply opened_child; exact Hps|].
    split; [reflexivity|]. split; [reflexivity|]. split.
    + apply indent_opened; assumption.
    + cbn [heap opened set_scopes_by_id set_scope set_heap].
      rewrite lookup_app_l by (rewrite length_insert; exact Hlt).
      rewrite list_lookup_insert_eq by exact Hlt. reflexivity.
Qed.

Lemma new_scope_indentation_witness :
  let w' := Ex.final (new_scope "TestMap" Ex.test_map "class TestMap:"
                        Ex.dummy_writer) in
  wf_heap (heap w')
  /\ exists p ps child,
       idict_get (Node.scopeId Ex.test_map) (scopes_by_id Ex.dummy_writer)
       = Some p
       /\ heap Ex.dummy_writer !! p = Some ps
       /\ heap w' !! scope w' = Some child
       /\ Scope.parent child = Some p
       /\ Scope.lines child = []
       /\ indent_spaces (heap w') child
          = (indent_spaces (heap Ex.dummy_writer) ps + INDENT_SPACES)%nat
       /\ Scope.lines <$> heap w' !! p
          = Some (Scope.lines ps
                  ++ [indented (indent_spaces (heap Ex.dummy_writer) ps)
                        "class TestMap:"]).
Proof.
  apply (new_scope_indentation "TestMap" Ex.test_map "class TestMap:"
           Ex.dummy_writer).
  - apply wf_heap_root.
  - reflexivity.
Defined.

(** ** Enums *)

Section Enum.

Variable module : Module_.t.
Variable module_registry : ModuleRegistryType.

Lemma insert_snoc_last {A} (h : list A) (x y : A) :
  <[length h := y]> (h ++ [x]) = h ++ [y].
Proof.
  rewrite insert_app_r_alt by lia. rewrite Nat.sub_diag. reflexivity.
Qed.

(** A keyword gets an underscore, and only a keyword does. *)
Lemma enum_member_name_keyword enumerant :
  (Str.mem enumerant kwlist = true ->
   enum_member_name enumerant = enumerant +:+ "_")
  /\ (Str.mem enumerant kwlist = false ->
      enum_member_name enumerant = enumerant).
Proof.
  unfold enum_member_name. destruct (Str.mem _ _); split; intros H;
    first [reflexivity | discriminate].
Qed.

(** X6.  What [gen_enum] emits for an enum of this module: the heading goes to
    the parent scope at once; each enumerant, in the declared order, gives
    one line [name: str = "value"], four spaces deeper, where the value
    is the enumerant's name and the member's name is that name, followed
    by an underscore exactly when it is a Python keyword; on return the
    lines are appended to the parent, the scope that was current is
    current again, the type is registered with the parent as its scope,
    and [Enum] is imported. *)
Theorem gen_enum_emits schema definition_name enumerants p ps w :
  Node.body schema = NEnum enumerants ->
  Str.split ":" (Node.displayName schema)
  = [base_module_name module; definition_name] ->
  get_display_name schema <> "" ->
  idict_get (Node.scopeId schema) (scopes_by_id w) = Some p ->
  heap w !! p = Some ps ->
  wf_heap (heap w) ->
  let name := get_display_name schema in
  let n := indent_spaces (heap w) ps in
  let members :=
    map (fun e =>
           indented (n + INDENT_SPACES)
             ((if Str.mem e kwlist then e +:+ "_" else e)
              +:+ ": str = " +:+ quote +:+ e +:+ quote)) enumerants in
  exists w',
    gen_enum module module_registry schema w = Ret None w'
    /\ scope w' = scope w
    /\ heap w'
       = <[p := Scope.add_lines
                  (indented n ("class " +:+ name +:+ "(str, Enum):") :: members)
                  ps]> (heap w)
         ++ [Scope.mk name (Node.id schema) (Some p) (Some (scope w)) members]
    /\ type_map w'
       = <[Node.id schema := CapnpType.mk schema name p []]> (type_map w)
    /\ _imports w' = {["from enum import Enum"]} ∪ _imports w.
Proof.
  intros Hb Hs Hn Hp Hps Hwf name n members.
  pose proof (lookup_lt_Some _ _ _ Hps) as Hlt.
  set (heading := "class " +:+ name +:+ "(str, Enum):").
  set (w1 := set_imports ({["from enum import Enum"]} ∪ _imports w) w).
  set (w2 := opened name schema heading p ps w1).
  set (child0 := Scope.mk name (Node.id schema) (Some p) (Some (scope w)) []).
  assert (heap w2 !! length (heap w) = Some child0) as Hc.
  { apply (opened_child name schema heading p ps w1). exact Hps. }
  set (t := CapnpType.mk schema name p []).
  set (w3 := set_type_map (<[Node.id schema := t]> (type_map w2)) w2).
  assert (register_type (Node.id schema) schema name None w2 = Ret t w3) as Hreg.
  { unfold register_type.
    assert (String.eqb name "" = false) as -> by (apply String.eqb_neq; exact Hn).
    change (scope w2) with (length (heap w)). rewrite Hc. reflexivity. }
  assert (indent_spaces (heap w3) child0 = (n + INDENT_SPACES)%nat) as Hind.
  { apply (indent_opened name schema heading p ps w1); assumption. }
  assert (map (indented (indent_spaces (heap w3) child0))
            (map enum_member_line enumerants) = members) as Hmem.
  { rewrite Hind, map_map. reflexivity. }
  set (child := Scope.mk name (Node.id schema) (Some p) (Some (scope w)) members).
  set (w4 := set_heap (<[length (heap w) := child]> (heap w3)) w3).
  assert (add_lines (map enum_member_line enumerants) w3 = Ret tt w4) as Hadd.
  { rewrite (add_lines_eq _ w3 child0 Hc). rewrite Hmem.
    unfold Scope.add_lines. reflexivity. }
  set (ps1 := Scope.add_lines [indented n heading] ps).
  assert (heap w4 = <[p := ps1]> (heap w) ++ [child]) as Hh4.
  { subst w4 w3. cbn [heap set_heap set_type_map].
    subst w2 w1. cbn [heap opened set_scopes_by_id set_scope set_heap set_imports].
    rewrite <- (length_insert (heap w) p ps1) at 1.
    apply insert_snoc_last. }
  assert (return_from_scope w4
          = Ret tt (closed child p ps1 (scope w) w4)) as Hret.
  { apply return_from_scope_eq.
    - rewrite Hh4. change (scope w4) with (length (heap w)).
      rewrite <- (length_insert (heap w) p ps1) at 1.
      rewrite lookup_app_r by lia. rewrite Nat.sub_diag. reflexivity.
    - reflexivity.
    - rewrite Hh4. rewrite lookup_app_l by (rewrite length_insert; exact Hlt).
      apply list_lookup_insert_eq. exact Hlt.
    - reflexivity. }
  exists (closed child p ps1 (scope w) w4). split.
  - unfold gen_enum. unfold Node.which. rewrite Hb.
    cbn [String.eqb Ascii.eqb Bool.eqb CapnpElementType.ENUM assert_].
    erewrite bind_Ret; [|reflexivity].
    rewrite (bind_Ret _ _ w None w (register_import_local _ _ _ _ _ Hs)).
    erewrite bind_Ret; [|reflexivity].
    erewrite bind_Ret; [|apply (new_scope_eq _ _ _ p ps); assumption].
    rewrite (bind_Ret _ _ _ _ _ Hreg).
    rewrite (bind_Ret _ _ _ _ _ Hadd).
    rewrite (bind_Ret _ _ _ _ _ Hret). reflexivity.
  - split; [reflexivity|]. split.
    + unfold closed. cbn [heap set_scope set_heap]. rewrite Hh4.
      rewrite insert_app_l by (rewrite length_insert; exact Hlt).
      rewrite list_insert_insert_eq. subst ps1. rewrite add_lines_app.
      reflexivity.
    + split; reflexivity.
Qed.

End Enum.

Lemma gen_enum_emits_witness :
  exists w',
    gen_enum Ex.dummy Ex.dummy_registry Ex.test_enum Ex.dummy_writer
    = Ret None w'
    /\ scope w' = scope Ex.dummy_writer
    /\ heap w'
       = [ Scope.mk "" 1 None None
             [ "class TestEnum(str, Enum):";
               "    foo: str = " +:+ quote +:+ "foo" +:+ quote;
               "    bar: str = " +:+ quote +:+ "bar" +:+ quote;
               "    class_: str = " +:+ quote +:+ "class" +:+ quote ];
           Scope.mk "TestEnum" 10 (Some 0%nat) (Some 0%nat)
             [ "    foo: str = " +:+ quote +:+ "foo" +:+ quote;
               "    bar: str = " +:+ quote +:+ "bar" +:+ quote;
               "    class_: str = " +:+ quote +:+ "class" +:+ quote ] ]
    /\ type_map w'
       = <[10 := CapnpType.mk Ex.test_enum "TestEnum" 0%nat []]>
           (type_map Ex.dummy_writer)
    /\ _imports w' = {["from enum import Enum"]} ∪ _imports Ex.dummy_writer.
Proof.
  apply (gen_enum_emits Ex.dummy Ex.dummy_registry Ex.test_enum "TestEnum"
           ["foo"; "bar"; "class"] 0%nat
           (Scope.mk "" 1 None None []) Ex.dummy_writer).
  - reflexivity.
  - reflexivity.
  - discriminate.
  - reflexivity.
  - reflexivity.
  - apply wf_heap_root.
Defined.

(** ** The end of a struct *)

(** The lines that [gen_struct] writes after the fields of the struct. *)
Definition struct_tail (schema : Node.t) (scoped_name : string)
    (fields : list Field.t) (l : StructLocals) : list string :=
  [ "@staticmethod";
    "def from_bytes(data: bytes) -> " +:+ scoped_name +:+ ": ...";
    "def to_bytes(self) -> bytes: ..." ]
  ++ (if Z.eqb (struct_discriminantCount schema) 0 then []
      else [which_line fields])
  ++ match contructor_kwargs l with
     | [] => []
     | kws => [ "def __init__(self, *, "
                +:+ Str.join ", " (map (fun kwarg => kwarg +:+ " = ...") kws)
                +:+ ") -> None: ..." ]
     end
  ++ match init_choices l with
     | [] => []
     | [c] => [init_line c]
     | cs => flat_map (fun c => ["@overload"; init_line c]) cs
     end.

(** The names that the end of a struct adds to the imports from
    [typing]. *)
Definition struct_tail_typing (schema : Node.t) (l : StructLocals)
  : gset string :=
  (match init_choices l with
   | [] => ∅
   | [_] => {["Literal"]}
   | _ => {["overload"; "Literal"]}
   end)
  ∪ (if Z.eqb (struct_discriminantCount schema) 0 then ∅
     else {["Union"; "Literal"]}).

Section StructEnd.

Variables (w : Writer) (s : Scope.t).
Hypothesis Hs : heap w !! scope w = Some s.

(** The writer after the lines [ls] were added to the current scope and
    the names [ti] to the imports from [typing]. *)
Definition wrote (ls : list string) (ti : gset string) : Writer :=
  set_typing_imports (ti ∪ _typing_imports w)
    (set_heap
       (<[scope w := Scope.add_lines
                       (map (indented (indent_spaces (heap w) s)) ls) s]>
          (heap w)) w).

Lemma wrote_nil : wrote [] ∅ = w.
Proof using Hs.
  unfold wrote. cbn [map]. rewrite add_lines_nil, list_insert_id by exact Hs.
  rewrite set_heap_same, (left_id_L ∅ (∪)). destruct w. reflexivity.
Qed.

Lemma wrote_add_line ls ti line :
  add_line line (wrote ls ti) = Ret tt (wrote (ls ++ [line]) ti).
Proof using Hs.
  pose proof (lookup_lt_Some _ _ _ Hs) as Hlt.
  set (s1 := Scope.add_lines (map (indented (indent_spaces (heap w) s)) ls) s).
  assert (heap (wrote ls ti) !! scope (wrote ls ti) = Some s1) as H1.
  { cbn. apply list_lookup_insert_eq. exact Hlt. }
  rewrite (add_line_eq line _ s1 H1).
  unfold wrote. cbn [heap scope set_heap set_typing_imports].
  fold s1. rewrite list_insert_insert_eq.
  assert (indent_spaces (<[scope w := s1]> (heap w)) s1
          = indent_spaces (heap w) s) as ->.
  { apply indent_spaces_insert_lines; [exact Hs | reflexivity]. }
  subst s1. rewrite add_lines_app, map_app. reflexivity.
Qed.

Lemma wrote_add_typing_import ls ti name :
  _add_typing_import name (wrote ls ti) = Ret tt (wrote ls ({[name]} ∪ ti)).
Proof.
  unfold _add_typing_import, modify, wrote.
  cbn [_typing_imports set_typing_imports set_heap].
  rewrite (assoc_L (∪)). reflexivity.
Qed.

Lemma wrote_import_then {A} name (m : M A) ls ti :
  (_add_typing_import name;; m) (wrote ls ti) = m (wrote ls ({[name]} ∪ ti)).
Proof.
  exact (bind_Ret _ (fun _ => m) _ tt _ (wrote_add_typing_import ls ti name)).
Qed.

Lemma wrote_add_overloads cs : forall ls ti,
  add_overloads cs (wrote ls ti)
  = Ret tt (wrote (ls ++ flat_map (fun c => ["@overload"; init_line c]) cs) ti).
Proof using Hs.
  induction cs as [|c cs IH]; intros ls ti.
  - cbn [add_overloads flat_map]. rewrite app_nil_r. reflexivity.
  - cbn [add_overloads flat_map].
    rewrite (bind_Ret _ _ _ _ _ (wrote_add_line _ _ _)).
    rewrite (bind_Ret _ _ _ _ _ (wrote_add_line _ _ _)).
    rewrite IH. rewrite <- !app_assoc. reflexivity.
Qed.

End StructEnd.

Lemma scoped_name_of_eq t type_name w rs :
  heap w !! CapnpType.scope t = Some rs ->
  scoped_name_of t type_name w
  = Ret (if is_root rs then type_name
         else scope_repr (heap w) (CapnpType.scope t) +:+ "." +:+ type_name) w.
Proof.
  intros H. unfold scoped_name_of.
  rewrite (bind_Ret _ _ w w w) by reflexivity.
  rewrite H. cbn [from_option].
  erewrite bind_Ret; [|reflexivity].
  destruct (is_root rs); reflexivity.
Qed.

Lemma wrote_return w s p ps r ls ti :
  heap w !! scope w = Some s ->
  Scope.parent s = Some p ->
  Scope.return_scope s = Some r ->
  heap w !! p = Some ps ->
  p <> scope w ->
  return_from_scope (wrote w s ls ti)
  = Ret tt (closed
              (Scope.add_lines (map (indented (indent_spaces (heap w) s)) ls) s)
              p ps r (wrote w s ls ti)).
Proof.
  intros Hs Hp Hr Hps Hne.
  pose proof (lookup_lt_Some _ _ _ Hs) as Hlt.
  apply return_from_scope_eq.
  - cbn. apply list_lookup_insert_eq. exact Hlt.
  - exact Hp.
  - cbn. rewrite list_lookup_insert_ne by auto. exact Hps.
  - exact Hr.
Qed.

Lemma struct_tail_no_pass schema scoped_name fields l :
  "pass" ∉ struct_tail schema scoped_name fields l.
Proof.
  unfold struct_tail. rewrite !not_elem_of_app. repeat split.
  - rewrite !not_elem_of_cons. repeat split; try discriminate.
    apply not_elem_of_nil.
  - destruct (Z.eqb _ _); [apply not_elem_of_nil|].
    rewrite not_elem_of_cons. split; [discriminate | apply not_elem_of_nil].
  - destruct (contructor_kwargs l); [apply not_elem_of_nil|].
    rewrite not_elem_of_cons. split; [discriminate | apply not_elem_of_nil].
  - assert (forall cs, "pass" ∉ flat_map (fun c => ["@overload"; init_line c]) cs)
      as H.
    { induction cs as [|c cs IH]; [apply not_elem_of_nil|].
      cbn [flat_map app]. rewrite !not_elem_of_cons.
      repeat split; try discriminate. exact IH. }
    destruct (init_choices l) as [|c [|c' cs]]; [apply not_elem_of_nil| |apply H].
    rewrite not_elem_of_cons. split; [discriminate | apply not_elem_of_nil].
Qed.

(** The run of the end of [gen_struct], up to the order in which the
    names were added to the imports from [typing]. *)
Lemma gen_struct_end_run schema registered_type type_name fields l
    w s p ps r rs :
  heap w !! scope w = Some s ->
  Scope.parent s = Some p ->
  Scope.return_scope s = Some r ->
  heap w !! p = Some ps ->
  p <> scope w ->
  heap w !! CapnpType.scope registered_type = Some rs ->
  let scoped_name :=
    if is_root rs then type_name
    else scope_repr (heap w) (CapnpType.scope registered_type)
         +:+ "." +:+ type_name in
  let ls := struct_tail schema scoped_name fields l in
  exists ti,
    ti ∪ _typing_imports w = struct_tail_typing schema l ∪ _typing_imports w
    /\ gen_struct_end schema registered_type type_name fields l w
       = Ret registered_type
           (closed
              (Scope.add_lines (map (indented (indent_spaces (heap w) s)) ls) s)
              p ps r (wrote w s ls ti)).
Proof.
  intros Hs Hp Hr Hps Hne Hrs scoped_name ls.
  pose proof (wrote_add_line w s Hs [] ∅ "@staticmethod") as H0.
  rewrite (wrote_nil w s Hs) in H0.
  unfold gen_struct_end. cbv zeta.
  change (if negb true then add_line "pass" else mret tt) with (mret tt : M unit).
  rewrite (bind_Ret _ _ _ _ _ (scoped_name_of_eq _ _ _ _ Hrs)).
  fold scoped_name.
  rewrite (bind_Ret _ _ _ _ _ H0).
  rewrite (bind_Ret _ _ _ _ _ (wrote_add_line w s Hs _ _ _)).
  rewrite (bind_Ret _ _ _ _ _ (wrote_add_line w s Hs _ _ _)).
  subst ls. unfold struct_tail, struct_tail_typing.
  cbn [app].
  destruct (Z.eqb (struct_discriminantCount schema) 0);
    cbn [negb];
    [ erewrite bind_Ret; [|reflexivity]
    | rewrite (bind_Ret _ _ _ tt _
                 (eq_trans
                    (wrote_import_then w s _ _ _ _)
                    (eq_trans
                       (wrote_import_then w s _ _ _ _)
                       (wrote_add_line w s Hs _ _ _)))) ];
    (destruct (contructor_kwargs l) as [|kw kws];
     [ erewrite bind_Ret; [|reflexivity]
     | rewrite (bind_Ret _ _ _ _ _ (wrote_add_line w s Hs _ _ _)) ]);
    (destruct (init_choices l) as [|c [|c' cs]];
     [ cbn [length Nat.ltb Nat.leb]; erewrite bind_Ret; [|reflexivity]
     | cbn [length Nat.ltb Nat.leb];
       rewrite (bind_Ret _ _ _ tt _
                  (eq_trans
                     (wrote_import_then w s _ _ _ _)
                     (wrote_add_line w s Hs _ _ _)))
     | change (1 <? length (c :: c' :: cs))%nat with true; cbv iota;
       rewrite (bind_Ret _ _ _ tt _
                  (eq_trans
                     (wrote_import_then w s _ _ _ _)
                     (eq_trans
                        (wrote_import_then w s _ _ _ _)
                        (wrote_add_overloads w s Hs _ _ _)))) ]);
    (erewrite bind_Ret; [|reflexivity]);
    rewrite (bind_Ret _ _ _ _ _ (wrote_return w s p ps r _ _ Hs Hp Hr Hps Hne));
    cbn [app]; rewrite <- ?app_assoc; cbn [app];
    eexists; (split; [|reflexivity]); set_solver.
Qed.

(** The selector is among the lines exactly when the struct has a
    discriminant count other than zero, and then once, after [to_bytes]. *)
Lemma struct_tail_which schema scoped_name fields l :
  exists rest,
    struct_tail schema scoped_name fields l
    = [ "@staticmethod";
        "def from_bytes(data: bytes) -> " +:+ scoped_name +:+ ": ...";
        "def to_bytes(self) -> bytes: ..." ]
      ++ (if Z.eqb (struct_discriminantCount schema) 0 then []
          else [which_line fields])
      ++ rest
    /\ which_line fields ∉ rest.
Proof.
  unfold struct_tail. eexists. split; [reflexivity|].
  assert (forall a b c : string,
            String.prefix a c = true -> String.prefix a b = false -> b <> c)
    as Hpre.
  { intros a b c H1 H2 ->. congruence. }
  assert (forall x, which_line fields <> "def __init__(self, *, " +:+ x) as H1.
  { intros x. apply (Hpre "def __"); reflexivity. }
  assert (forall c, which_line fields <> init_line c) as H2.
  { intros c. apply (Hpre "def i"); reflexivity. }
  assert (forall cs,
            which_line fields ∉ flat_map (fun c => ["@overload"; init_line c]) cs)
    as H3.
  { induction cs as [|c cs IH]; [apply not_elem_of_nil|].
    cbn [flat_map app]. rewrite !not_elem_of_cons.
    repeat split; [|apply H2|exact IH].
    apply (Hpre "@"); reflexivity. }
  rewrite not_elem_of_app. split.
  - destruct (contructor_kwargs l); [apply not_elem_of_nil|].
    rewrite not_elem_of_cons. split; [apply H1 | apply not_elem_of_nil].
  - destruct (init_choices l) as [|c [|c' cs]]; [apply not_elem_of_nil| |apply H3].
    rewrite not_elem_of_cons. split; [apply H2 | apply not_elem_of_nil].
Qed.

(** X7.  What [gen_struct] does after the loop over the fields, in the scope
    [s] of the struct with parent [ps]: it writes, at the indentation of
    [s], the static method [from_bytes] that returns the scoped name of
    the struct, [to_bytes], one selector [which] exactly when the struct
    has a discriminant, the constructor when there are keyword arguments
    and the [init] methods (overloaded when there are two or more); it
    never writes [pass]; then the lines of [s] are appended to the parent
    and the scope to return to is current.  The selector comes right
    after [to_bytes] and nowhere else. *)
Theorem gen_struct_end_emits schema registered_type type_name fields l
    w s p ps r rs :
  heap w !! scope w = Some s ->
  Scope.parent s = Some p ->
  Scope.return_scope s = Some r ->
  heap w !! p = Some ps ->
  p <> scope w ->
  heap w !! CapnpType.scope registered_type = Some rs ->
  let scoped_name :=
    if is_root rs then type_name
    else scope_repr (heap w) (CapnpType.scope registered_type)
         +:+ "." +:+ type_name in
  let tail :=
    map (indented (indent_spaces (heap w) s))
      (struct_tail schema scoped_name fields l) in
  exists w',
    gen_struct_end schema registered_type type_name fields l w
    = Ret registered_type w'
    /\ scope w' = r
    /\ heap w'
       = <[p := Scope.add_lines (Scope.lines s ++ tail) ps]>
           (<[scope w := Scope.add_lines tail s]> (heap w))
    /\ _typing_imports w' = struct_tail_typing schema l ∪ _typing_imports w
    /\ type_map w' = type_map w
    /\ ("pass" ∉ struct_tail schema scoped_name fields l)
    /\ exists rest,
         struct_tail schema scoped_name fields l
         = [ "@staticmethod";
             "def from_bytes(data: bytes) -> " +:+ scoped_name +:+ ": ...";
             "def to_bytes(self) -> bytes: ..." ]
           ++ (if Z.eqb (struct_discriminantCount schema) 0 then []
               else [which_line fields])
           ++ rest
         /\ which_line fields ∉ rest.
Proof.
  intros Hs Hp Hr Hps Hne Hrs scoped_name tail.
  destruct (gen_struct_end_run schema registered_type type_name fields l
              w s p ps r rs Hs Hp Hr Hps Hne Hrs) as (ti & Hti & Hrun).
  fold scoped_name in Hrun.
  eexists. split; [exact Hrun|].
  split; [reflexivity|]. split; [reflexivity|].
  split; [exact Hti|]. split; [reflexivity|].
  split; [apply struct_tail_no_pass | apply struct_tail_which].
Qed.


Lemma gen_struct_end_emits_witness :
  exists w',
    gen_struct_end Ex.test_map (CapnpType.mk Ex.test_map "TestMap" 0%nat [])
      "TestMap" [Field.mk "a" 0 (FSlot TText); Field.mk "e" 1 (FSlot (TEnum 10))]
      (mkLocals true ["a: str"; "e: TestEnum"] []) Ex.nested_writer
    = Ret (CapnpType.mk Ex.test_map "TestMap" 0%nat []) w'
    /\ scope w' = 0%nat
    /\ (Scope.lines <$> heap w' !! 1%nat)
       = Some [ "    @staticmethod";
                "    def from_bytes(data: bytes) -> TestMap: ...";
                "    def to_bytes(self) -> bytes: ...";
                "    def which(self) -> Union[Literal[" +:+ quote +:+ "a"
                  +:+ quote +:+ "], Literal[" +:+ quote +:+ "e" +:+ quote
                  +:+ "]]: ...";
                "    def __init__(self, *, a: str = ..., e: TestEnum = ...) -> None: ..." ].
Proof.
  destruct (gen_struct_end_emits Ex.test_map
              (CapnpType.mk Ex.test_map "TestMap" 0%nat []) "TestMap"
              [Field.mk "a" 0 (FSlot TText); Field.mk "e" 1 (FSlot (TEnum 10))]
              (mkLocals true ["a: str"; "e: TestEnum"] []) Ex.nested_writer
              (Scope.mk "Outer" 30 (Some 0%nat) (Some 0%nat) []) 0%nat
              (Scope.mk "" 20 None None []) 0%nat (Scope.mk "" 20 None None []))
    as (w' & H1 & H2 & H3 & _).
  - reflexivity.
  - reflexivity.
  - reflexivity.
  - reflexivity.
  - discriminate.
  - reflexivity.
  - exists w'. split; [exact H1|]. split; [exact H2|].
    rewrite H3. reflexivity.
Defined.

(** ** A struct of primitive fields, from heading to end *)

Lemma parent_chain_fuel (h : list Scope.t) :
  wf_heap h ->
  forall fuel fuel' o,
    (forall q, o = Some q -> (q < fuel)%nat /\ (q < fuel')%nat) ->
    parent_chain fuel h o = parent_chain fuel' h o.
Proof.
  intros Hwf. induction fuel as [|fuel IH]; intros fuel' [q|] Ho;
    try (destruct fuel'; reflexivity).
  - destruct (Ho q eq_refl); lia.
  - destruct (Ho q eq_refl) as [H1 H2].
    destruct fuel' as [|fuel']; [lia|].
    cbn [parent_chain]. destruct (h !! q) as [s|] eqn:E; [|reflexivity].
    f_equal. apply IH. intros q' Hq'.
    specialize (Hwf q s q' E Hq'). lia.
Qed.

Lemma parent_chain_valid (h : list Scope.t) fuel : forall o x,
  x ∈ parent_chain fuel h o -> is_Some (h !! x).
Proof.
  induction fuel as [|fuel IH]; intros [q|] x Hx; cbn [parent_chain] in Hx;
    try (apply elem_of_nil in Hx; contradiction).
  destruct (h !! q) as [s|] eqn:E; [|apply elem_of_nil in Hx; contradiction].
  apply elem_of_cons in Hx as [->|Hx]; [eauto | eapply IH; eauto].
Qed.

Lemma omap_ext_elem {A B} (f g : A -> option B) (l : list A) :
  (forall x, x ∈ l -> f x = g x) -> omap f l = omap g l.
Proof.
  induction l as [|a l IH]; intros H; [reflexivity|].
  cbn [omap list_omap]. rewrite (H a) by (apply elem_of_cons; left; reflexivity).
  rewrite IH; [reflexivity|].
  intros x Hx. apply H. apply elem_of_cons; right; exact Hx.
Qed.

(** Opening a scope does not change the trace of an older scope. *)
Lemma trace_names_opened name node heading p ps w (r : nat) :
  wf_heap (heap w) ->
  heap w !! p = Some ps ->
  (r < length (heap w))%nat ->
  trace_names (heap (opened name node heading p ps w)) r
  = trace_names (heap w) r.
Proof.
  intros Hwf Hps Hr. pose proof (lookup_lt_Some _ _ _ Hps) as Hlt.
  set (ps' := Scope.add_lines [indented (indent_spaces (heap w) ps) heading] ps).
  set (child := Scope.mk name (Node.id node) (Some p) (Some (scope w)) []).
  assert (heap (opened name node heading p ps w)
          = <[p := ps']> (heap w) ++ [child]) as -> by reflexivity.
  assert (wf_heap (<[p := ps']> (heap w))) as Hwf'
    by (apply wf_heap_insert_lines; assumption).
  assert (forall i : nat, (i < length (heap w))%nat ->
            exists s s', heap w !! i = Some s
              /\ (<[p := ps']> (heap w) ++ [child]) !! i = Some s'
              /\ Scope.parent s' = Scope.parent s
              /\ Scope.name s' = Scope.name s) as Hsame.
  { intros i Hi. destruct (lookup_lt_is_Some_2 (heap w) i Hi) as [s Es].
    rewrite lookup_app_l by (rewrite length_insert; exact Hi).
    destruct (decide (i = p)) as [->|Hne].
    - rewrite list_lookup_insert_eq by exact Hlt.
      exists ps, ps'. repeat split; first [exact Hps | reflexivity].
    - rewrite list_lookup_insert_ne by auto. exists s, s. auto. }
  unfold trace_names, trace.
  destruct (Hsame r Hr) as (s & s' & E & E' & Hp' & _). rewrite E, E'.
  assert (parents (<[p := ps']> (heap w) ++ [child]) s' = parents (heap w) s)
    as ->.
  { unfold parents. rewrite Hp'. f_equal.
    rewrite parent_chain_app; [|exact Hwf'|].
    2:{ intros q Hq. rewrite length_insert.
        specialize (Hwf r s q E Hq). lia. }
    rewrite (parent_chain_same _ (heap w));
      [|intros i; apply parents_insert_lines; exact Hps].
    apply parent_chain_fuel; [exact Hwf|].
    intros q Hq. specialize (Hwf r s q E Hq).
    rewrite length_app, length_insert. cbn [length]. lia. }
  apply omap_ext_elem. intros x Hx.
  assert (x < length (heap w))%nat as Hxl.
  { apply elem_of_app in Hx as [Hx|Hx].
    - unfold parents in Hx. apply list_elem_of_In, in_rev, list_elem_of_In in Hx.
      apply parent_chain_valid in Hx. apply lookup_lt_is_Some_1. exact Hx.
    - apply list_elem_of_singleton in Hx. subst x. exact Hr. }
  destruct (Hsame x Hxl) as (sx & sx' & Ex & Ex' & Hpx & Hnx).
  rewrite Ex, Ex'. unfold is_root. rewrite Hpx, Hnx. reflexivity.
Qed.

Lemma trace_names_insert_lines (h : list Scope.t) (r : nat) s extra (x : nat) :
  h !! r = Some s ->
  trace_names (<[r := Scope.add_lines extra s]> h) x = trace_names h x.
Proof.
  intros Hr. pose proof (lookup_lt_Some _ _ _ Hr) as Hlt.
  set (h' := <[r := Scope.add_lines extra s]> h).
  assert (forall i : nat,
            match h !! i, h' !! i with
            | Some a, Some a' => Scope.parent a' = Scope.parent a
                                 /\ Scope.name a' = Scope.name a
            | None, None => True
            | _, _ => False
            end) as Hsame.
  { intros i. subst h'. destruct (decide (i = r)) as [->|Hne].
    - rewrite list_lookup_insert_eq by exact Hlt. rewrite Hr. split; reflexivity.
    - rewrite list_lookup_insert_ne by auto.
      destruct (h !! i); [split; reflexivity | exact I]. }
  unfold trace_names, trace.
  pose proof (Hsame x) as Hx.
  destruct (h !! x) as [a|], (h' !! x) as [a'|]; try contradiction;
    [|reflexivity].
  destruct Hx as [Hp _].
  assert (parents h' a' = parents h a) as ->.
  { unfold parents. rewrite Hp. subst h'. rewrite length_insert. f_equal.
    apply parent_chain_same. intros i. apply parents_insert_lines. exact Hr. }
  apply omap_ext_elem. intros i _. specialize (Hsame i).
  destruct (h !! i) as [b|], (h' !! i) as [b'|]; try contradiction;
    [|reflexivity].
  destruct Hsame as [Hpb Hnb]. unfold is_root. rewrite Hpb, Hnb. reflexivity.
Qed.

(** The line of a field of primitive type. *)
Definition primitive_line (field : Field.t) : option string :=
  match Field.body field with
  | FSlot ty =>
      python_type ← dict_get (which ty) CAPNP_TYPE_TO_PYTHON;
      Some (Field.name field +:+ ": " +:+ python_type)
  | FGroup _ => None
  end.

Section PrimitiveStruct.

Variable module : Module_.t.
Variable module_registry : ModuleRegistryType.
Variable graph : list Node.t.
Variable self_gen_struct : Node.t -> string -> M CapnpType.t.

Lemma gen_field_primitive schema registered_type field line l w s ls ti :
  heap w !! scope w = Some s ->
  primitive_line field = Some line ->
  gen_field module module_registry graph self_gen_struct schema registered_type
    field l (wrote w s ls ti)
  = Ret (mkLocals true (contructor_kwargs l ++ [line]) (init_choices l))
      (wrote w s (ls ++ [line]) ti).
Proof.
  intros Hs Hl. unfold primitive_line in Hl.
  destruct (Field.body field) as [ty|] eqn:Eb; [|discriminate].
  destruct (dict_get (which ty) CAPNP_TYPE_TO_PYTHON) as [py|] eqn:Ed;
    [|discriminate].
  injection Hl as <-.
  assert (String.eqb (which ty) CapnpSlotType.LIST = false) as Hnl.
  { destruct ty; first [reflexivity | discriminate Ed]. }
  unfold gen_field, Field.which. rewrite Eb.
  cbn [String.eqb Ascii.eqb Bool.eqb CapnpFieldType.SLOT].
  unfold gen_slot_with. rewrite Eb. cbv zeta. rewrite Hnl.
  rewrite bool_decide_eq_true_2 by (rewrite Ed; eauto).
  unfold gen_python_type_slot. rewrite Ed. cbn [from_option].
  set (line := Field.name field +:+ ": " +:+ py).
  match goal with
  | |- ((?m ≫= ?g) ≫= ?h) ?W = _ =>
      assert (m W = Ret (contructor_kwargs l ++ [line])
                      (wrote w s (ls ++ [line]) ti)) as H1;
      [| rewrite (bind_Ret _ h W _ _ (bind_Ret m g W _ _ H1)); reflexivity ]
  end.
  erewrite bind_Ret; [|reflexivity].
  rewrite (bind_Ret _ _ _ _ _ (wrote_add_line w s Hs _ _ _)).
  reflexivity.
Qed.


Lemma gen_fields_primitive schema registered_type w s ti :
  heap w !! scope w = Some s ->
  forall fields lines l ls,
    mapM primitive_line fields = Some lines ->
    exists b,
      gen_fields module module_registry graph self_gen_struct schema
        registered_type fields l (wrote w s ls ti)
      = Ret (mkLocals b (contructor_kwargs l ++ lines) (init_choices l))
          (wrote w s (ls ++ lines) ti).
Proof.
  intros Hs. induction fields as [|field fields IH]; intros lines l ls Hl.
  - injection Hl as <-. exists (definition_has_body l).
    cbn [gen_fields]. rewrite !app_nil_r. destruct l. reflexivity.
  - cbn in Hl. destruct (primitive_line field) as [line|] eqn:E; [|discriminate].
    cbn in Hl. destruct (mapM primitive_line fields) as [rest|] eqn:Er;
      [|discriminate].
    injection Hl as <-.
    destruct (IH rest (mkLocals true (contructor_kwargs l ++ [line])
                         (init_choices l)) (ls ++ [line]) eq_refl) as [b Hb].
    exists b. cbn [gen_fields].
    rewrite (bind_Ret _ _ _ _ _
               (gen_field_primitive schema registered_type field line l w s ls ti
                  Hs E)).
    rewrite Hb. cbn [contructor_kwargs init_choices].
    rewrite <- !app_assoc. reflexivity.
Qed.

End PrimitiveStruct.

Section FlatStruct.

Variable module : Module_.t.
Variable module_registry : ModuleRegistryType.
Variable graph : list Node.t.

(** X8.  A struct of this module that is not generic and has only fields of
    primitive type, generated below the scope [ps] of its parent node:
    the parent scope gets the heading [class <name>:] at its own
    indentation and then, four spaces deeper, one line [<field>: <type>]
    per field in the declared order, [from_bytes] with the struct's
    dotted name, [to_bytes], the selector if the struct has a
    discriminant, and the constructor with all fields as keyword
    arguments if there is a field.  The scope that was current is
    current again and the type is registered with the parent as its
    scope. *)
Theorem gen_struct_flat fuel schema type_name definition_name fields dc lines
    p ps w :
  Node.body schema = NStruct fields dc ->
  Node.isGeneric schema = false ->
  Str.split ":" (Node.displayName schema)
  = [base_module_name module; definition_name] ->
  mapM primitive_line fields = Some lines ->
  idict_get (Node.scopeId schema) (scopes_by_id w) = Some p ->
  heap w !! p = Some ps ->
  wf_heap (heap w) ->
  let name :=
    if String.eqb type_name "" then get_display_name schema else type_name in
  name <> "" ->
  let n := indent_spaces (heap w) ps in
  let scoped_name :=
    if is_root ps then name else scope_repr (heap w) p +:+ "." +:+ name in
  let body :=
    map (indented (n + INDENT_SPACES))
      (lines
       ++ [ "@staticmethod";
            "def from_bytes(data: bytes) -> " +:+ scoped_name +:+ ": ...";
            "def to_bytes(self) -> bytes: ..." ]
       ++ (if Z.eqb dc 0 then [] else [which_line fields])
       ++ match lines with
          | [] => []
          | _ => [ "def __init__(self, *, "
                   +:+ Str.join ", " (map (fun kwarg => kwarg +:+ " = ...") lines)
                   +:+ ") -> None: ..." ]
          end) in
  let t := CapnpType.mk schema name p [] in
  exists w',
    gen_struct module module_registry graph (S fuel) schema type_name w
    = Ret t w'
    /\ scope w' = scope w
    /\ heap w'
       = <[p := Scope.add_lines
                  (indented n ("class " +:+ name +:+ ":") :: body) ps]> (heap w)
         ++ [Scope.mk name (Node.id schema) (Some p) (Some (scope w)) body]
    /\ type_map w' = <[Node.id schema := t]> (type_map w)
    /\ _typing_imports w'
       = (if Z.eqb dc 0 then ∅ else {["Union"; "Literal"]}) ∪ _typing_imports w.
Proof.
  intros Hb Hg Hsplit Hl Hp Hps Hwf name Hn n scoped_name body t.
  pose proof (lookup_lt_Some _ _ _ Hps) as Hlt.
  set (heading := "class " +:+ name +:+ ":").
  set (w2 := opened name schema heading p ps w).
  set (child0 := Scope.mk name (Node.id schema) (Some p) (Some (scope w)) []).
  set (ps1 := Scope.add_lines [indented n heading] ps).
  assert (heap w2 = <[p := ps1]> (heap w) ++ [child0]) as Hh2 by reflexivity.
  assert (heap w2 !! length (heap w) = Some child0) as Hc
    by (apply (opened_child name schema heading p ps w); exact Hps).
  set (w3 := set_type_map (<[Node.id schema := t]> (type_map w2)) w2).
  assert (register_type (Node.id schema) schema name None w2 = Ret t w3) as Hreg.
  { unfold register_type.
    assert (String.eqb name "" = false) as -> by (apply String.eqb_neq; exact Hn).
    change (scope w2) with (length (heap w)). rewrite Hc. reflexivity. }
  assert (set_generic_params (Node.id schema) t [] w3 = Ret t w3) as Hsg.
  { unfold set_generic_params. subst w3. cbn [type_map set_type_map].
    rewrite insert_insert_eq. reflexivity. }
  assert (heap w3 !! scope w3 = Some child0) as Hc3 by exact Hc.
  assert (indent_spaces (heap w3) child0 = (n + INDENT_SPACES)%nat) as Hind
    by (apply (indent_opened name schema heading p ps w); assumption).
  destruct (gen_fields_primitive module module_registry graph
              (gen_struct module module_registry graph fuel) schema t
              w3 child0 ∅ Hc3 fields lines (mkLocals false [] []) [] Hl)
    as [b Hf].
  rewrite (wrote_nil w3 child0 Hc3) in Hf. cbn [app contructor_kwargs init_choices] in Hf.
  set (w4 := wrote w3 child0 lines ∅) in Hf.
  set (s4 := Scope.add_lines (map (indented (n + INDENT_SPACES)) lines) child0).
  assert (heap w4 = <[p := ps1]> (heap w) ++ [s4]) as Hh4.
  { subst w4. unfold wrote. cbn [heap set_heap set_typing_imports].
    rewrite Hind. fold s4. change (heap w3) with (heap w2). rewrite Hh2.
    change (scope w3) with (length (heap w)).
    rewrite <- (length_insert (heap w) p ps1) at 1.
    apply insert_snoc_last. }
  assert (scope w4 = length (heap w)) as Hsc4 by reflexivity.
  assert (heap w4 !! scope w4 = Some s4) as Hc4.
  { rewrite Hh4, Hsc4. rewrite <- (length_insert (heap w) p ps1) at 1.
    rewrite lookup_app_r by lia. rewrite Nat.sub_diag. reflexivity. }
  assert (heap w4 !! p = Some ps1) as Hp4.
  { rewrite Hh4. rewrite lookup_app_l by (rewrite length_insert; exact Hlt).
    apply list_lookup_insert_eq. exact Hlt. }
  assert (indent_spaces (heap w4) s4 = (n + INDENT_SPACES)%nat) as Hind4.
  { subst w4. unfold wrote. cbn [heap set_heap set_typing_imports].
    rewrite Hind. fold s4. rewrite <- Hind.
    apply indent_spaces_insert_lines; [exact Hc3 | reflexivity]. }
  assert (scope_repr (heap w4) p = scope_repr (heap w) p) as Hrepr.
  { unfold scope_repr, trace_as_str. f_equal.
    subst w4. unfold wrote. cbn [heap set_heap set_typing_imports].
    rewrite (trace_names_insert_lines _ _ _ _ _ Hc3).
    apply trace_names_opened; assumption. }
  destruct (gen_struct_end_run schema t name fields
              (mkLocals b lines []) w4 s4 p ps1 (scope w) ps1)
    as (ti & Hti & Hend);
    [exact Hc4 | reflexivity | reflexivity | exact Hp4
    | rewrite Hsc4; lia | exact Hp4 |].
  change (CapnpType.scope t) with p in Hend.
  rewrite Hrepr, Hind4 in Hend.
  change (is_root ps1) with (is_root ps) in Hend. fold scoped_name in Hend.
  eexists. split.
  - cbn [gen_struct]. unfold gen_struct_body, Node.which. rewrite Hb.
    cbn [String.eqb Ascii.eqb Bool.eqb CapnpElementType.STRUCT assert_].
    erewrite bind_Ret; [|reflexivity].
    rewrite (bind_Ret _ _ w None w (register_import_local _ _ _ _ _ Hsplit)).
    cbv zeta. fold name. rewrite Hg.
    erewrite bind_Ret; [|reflexivity].
    erewrite bind_Ret; [|apply (new_scope_eq _ _ _ p ps); assumption].
    fold heading. fold w2.
    rewrite (bind_Ret _ _ _ _ _ Hreg).
    rewrite (bind_Ret _ _ _ _ _ Hsg).
    unfold struct_fields. rewrite Hb.
    erewrite bind_Ret; [|reflexivity].
    rewrite (bind_Ret _ _ _ _ _ Hf).
    exact Hend.
  - assert (struct_tail schema scoped_name fields (mkLocals b lines [])
            = [ "@staticmethod";
                "def from_bytes(data: bytes) -> " +:+ scoped_name +:+ ": ...";
                "def to_bytes(self) -> bytes: ..." ]
              ++ (if Z.eqb dc 0 then [] else [which_line fields])
              ++ match lines with
                 | [] => []
                 | _ => [ "def __init__(self, *, "
                          +:+ Str.join ", "
                                (map (fun kwarg => kwarg +:+ " = ...") lines)
                          +:+ ") -> None: ..." ]
                 end) as Htail.
    { unfold struct_tail, struct_discriminantCount. rewrite Hb.
      cbn [contructor_kwargs init_choices]. rewrite app_nil_r.
      destruct lines; reflexivity. }
    rewrite Htail.
    set (tl := [ "@staticmethod";
                "def from_bytes(data: bytes) -> " +:+ scoped_name +:+ ": ...";
                "def to_bytes(self) -> bytes: ..." ]
              ++ (if Z.eqb dc 0 then [] else [which_line fields])
              ++ match lines with
                 | [] => []
                 | _ => [ "def __init__(self, *, "
                          +:+ Str.join ", "
                                (map (fun kwarg => kwarg +:+ " = ...") lines)
                          +:+ ") -> None: ..." ]
                 end) in *.
    assert (Scope.add_lines (map (indented (n + INDENT_SPACES)) tl) s4
            = Scope.mk name (Node.id schema) (Some p) (Some (scope w)) body)
      as Hsf.
    { subst s4 body. rewrite add_lines_app, <- map_app. reflexivity. }
    rewrite Hsf.
    split; [reflexivity|]. split.
    + unfold closed, wrote. cbn [heap set_scope set_heap set_typing_imports].
      rewrite Hind4, Hsf, Hh4, Hsc4.
      rewrite <- (length_insert (heap w) p ps1) at 1.
      rewrite insert_snoc_last.
      rewrite insert_app_l by (rewrite length_insert; exact Hlt).
      rewrite list_insert_insert_eq. subst ps1. rewrite add_lines_app.
      reflexivity.
    + split; [reflexivity|].
      unfold closed, wrote. cbn [_typing_imports set_scope set_heap set_typing_imports].
      rewrite Hti. unfold struct_tail_typing, struct_discriminantCount.
      rewrite Hb. cbn [init_choices].
      subst w4. unfold wrote. cbn [_typing_imports set_typing_imports set_heap].
      change (_typing_imports w3) with (_typing_imports w).
      rewrite !(left_id_L ∅ (∪)). reflexivity.
Qed.

End FlatStruct.

Lemma gen_struct_flat_witness :
  let w := opened "TestMap" Ex.test_map "class TestMap:" 0%nat
             (Scope.mk "" 1 None None []) Ex.dummy_writer in
  exists w',
    gen_struct Ex.dummy Ex.dummy_registry Ex.dummy_graph 1 Ex.inner "" w
    = Ret (CapnpType.mk Ex.inner "Inner" 1%nat []) w'
    /\ scope w' = 1%nat
    /\ (Scope.lines <$> heap w' !! 1%nat)
       = Some [ "    class Inner:";
                "        x: int";
                "        @staticmethod";
                "        def from_bytes(data: bytes) -> TestMap.Inner: ...";
                "        def to_bytes(self) -> bytes: ...";
                "        def __init__(self, *, x: int = ...) -> None: ..." ].
Proof.
  intros w.
  destruct (gen_struct_flat Ex.dummy Ex.dummy_registry Ex.dummy_graph 0
              Ex.inner "" "TestMap.Inner"
              [Field.mk "x" 65535 (FSlot TInt32)] 0 ["x: int"] 1%nat
              (Scope.mk "TestMap" 11 (Some 0%nat) (Some 0%nat) []) w)
    as (w' & H1 & H2 & H3 & _).
  - reflexivity.
  - reflexivity.
  - reflexivity.
  - reflexivity.
  - reflexivity.
  - reflexivity.
  - intros i s q Hi Hq. destruct i as [|[|i]]; cbn in Hi; [| |discriminate];
      injection Hi as <-; cbn in Hq; [discriminate|].
    injection Hq as <-. lia.
  - discriminate.
  - exists w'. split; [exact H1|]. split; [exact H2|].
    rewrite H3. reflexivity.
Defined.

(** ** The kinds of node that [generate_nested] meets *)

Section Kinds.

Variable module : Module_.t.
Variable module_registry : ModuleRegistryType.
Variable graph : list Node.t.

Lemma is_type_id_known_unknown i w :
  type_map w !! i = None -> is_type_id_known i w = Ret false w.
Proof.
  intros H. unfold is_type_id_known.
  rewrite bool_decide_eq_false_2; [reflexivity|].
  rewrite H. intros [x Hx]. discriminate.
Qed.

(** X9.  A constant that is not registered: for a primitive type, one line
    [name: type] goes to the scope that is current, whatever the scope of
    the constant's parent node, and the constant is still not registered
    afterwards; for any other type (a list, a struct, an enum, ...)
    the generation stops with [KeyError], nothing written. *)
Theorem generate_nested_const fuel schema ty s w :
  Node.body schema = NConst ty ->
  type_map w !! Node.id schema = None ->
  heap w !! scope w = Some s ->
  match dict_get (which ty) CAPNP_TYPE_TO_PYTHON with
  | Some python_type =>
      let line := indented (indent_spaces (heap w) s)
                    (get_display_name schema +:+ ": " +:+ python_type) in
      let w' := set_heap (<[scope w := Scope.add_lines [line] s]> (heap w)) w in
      generate_nested module module_registry graph fuel schema w = Ret tt w'
      /\ is_type_id_known (Node.id schema) w' = Ret false w'
  | None =>
      generate_nested module module_registry graph fuel schema w
      = Raise KeyError w
  end.
Proof.
  intros Hb Hu Hs.
  assert (generate_nested module module_registry graph fuel schema w
          = gen_const schema w) as ->.
  { unfold generate_nested, generate_nested_with.
    rewrite (bind_Ret _ _ _ _ _ (is_type_id_known_unknown _ _ Hu)).
    unfold Node.which. rewrite Hb. reflexivity. }
  unfold gen_const, Node.which. rewrite Hb.
  cbn [String.eqb Ascii.eqb Bool.eqb CapnpElementType.CONST assert_].
  erewrite bind_Ret; [|reflexivity]. cbv zeta.
  destruct (dict_get (which ty) CAPNP_TYPE_TO_PYTHON) as [py|].
  - cbn [from_option]. erewrite bind_Ret; [|reflexivity].
    split; [apply add_line_eq; exact Hs|].
    apply is_type_id_known_unknown. exact Hu.
  - reflexivity.
Qed.

(** X10.  A node that is already registered is left alone, whatever its kind;
    an interface is skipped; a file or an annotation is refused with
    [AssertionError].  None of these writes anything. *)
Theorem generate_nested_skips fuel schema w :
  (is_Some (type_map w !! Node.id schema) ->
   generate_nested module module_registry graph fuel schema w = Ret tt w)
  /\ (type_map w !! Node.id schema = None ->
      match Node.body schema with
      | NInterface =>
          generate_nested module module_registry graph fuel schema w = Ret tt w
      | NFile | NAnnotation =>
          generate_nested module module_registry graph fuel schema w
          = Raise AssertionError w
      | _ => True
      end).
Proof.
  split.
  - intros Hk. unfold generate_nested, generate_nested_with.
    erewrite bind_Ret; [|reflexivity].
    rewrite bool_decide_eq_true_2 by exact Hk. reflexivity.
  - intros Hu. unfold generate_nested, generate_nested_with.
    rewrite (bind_Ret _ _ _ _ _ (is_type_id_known_unknown _ _ Hu)).
    unfold Node.which. destruct (Node.body schema); try exact I; reflexivity.
Qed.

End Kinds.

Lemma generate_nested_const_witness :
  generate_nested Ex.dummy Ex.dummy_registry Ex.dummy_graph 0 Ex.answer
    Ex.dummy_writer
  = Ret tt (set_heap [Scope.mk "" 1 None None ["answer: int"]] Ex.dummy_writer)
  /\ is_type_id_known 13
       (set_heap [Scope.mk "" 1 None None ["answer: int"]] Ex.dummy_writer)
     = Ret false
         (set_heap [Scope.mk "" 1 None None ["answer: int"]] Ex.dummy_writer).
Proof.
  apply (generate_nested_const Ex.dummy Ex.dummy_registry Ex.dummy_graph 0
           Ex.answer TUint16 (Scope.mk "" 1 None None []) Ex.dummy_writer);
    reflexivity.
Defined.

Lemma generate_nested_skips_witness :
  generate_nested Ex.dummy Ex.dummy_registry Ex.dummy_graph 0 Ex.dummy_file
    Ex.dummy_writer
  = Raise AssertionError Ex.dummy_writer.
Proof.
  apply (proj2 (generate_nested_skips Ex.dummy Ex.dummy_registry Ex.dummy_graph
                  0 Ex.dummy_file Ex.dummy_writer)).
  reflexivity.
Defined.

(** ** Fields that hold a list *)

Section ListSlot.

Variable module : Module_.t.
Variable module_registry : ModuleRegistryType.
Variable graph : list Node.t.

(** X11.  A field that holds a list.  For elements of a primitive type the
    line is [<field>: List[<type>]], which also becomes a keyword
    argument of the constructor, and [List] is imported from [typing].
    For a list of lists, of interfaces or of pointers the generation
    stops with [TypeError], nothing written. *)
Theorem gen_slot_list fuel schema field element registered_type kwargs choices
    s w :
  Field.body field = FSlot (TList element) ->
  heap w !! scope w = Some s ->
  match element with
  | TList _ | TInterface _ | TAnyPointer _ =>
      gen_slot module module_registry graph fuel schema field registered_type
        kwargs choices w
      = Raise TypeError w
  | TStruct _ _ | TEnum _ => True
  | _ =>
      exists python_type,
        dict_get (which element) CAPNP_TYPE_TO_PYTHON = Some python_type
        /\ let code := Field.name field +:+ ": List[" +:+ python_type +:+ "]" in
           gen_slot module module_registry graph fuel schema field
             registered_type kwargs choices w
           = Ret (kwargs ++ [code], choices)
               (set_typing_imports ({["List"]} ∪ _typing_imports w)
                  (set_heap
                     (<[scope w := Scope.add_lines
                                     [indented (indent_spaces (heap w) s) code]
                                     s]> (heap w)) w))
  end.
Proof.
  intros Eb Hs.
  assert (forall code,
            (add_line code;; _add_typing_import "List";;
             mret (kwargs ++ [code])) w
            = Ret (kwargs ++ [code])
                (set_typing_imports ({["List"]} ∪ _typing_imports w)
                   (set_heap
                      (<[scope w := Scope.add_lines
                                      [indented (indent_spaces (heap w) s) code]
                                      s]> (heap w)) w))) as Hline.
  { intros code. rewrite (bind_Ret _ _ _ _ _ (add_line_eq code w s Hs)).
    reflexivity. }
  unfold gen_slot, gen_slot_with. rewrite Eb. cbv zeta.
  cbn [which String.eqb Ascii.eqb Bool.eqb CapnpSlotType.LIST].
  unfold gen_list_slot. rewrite Eb. cbv zeta.
  destruct element; try exact I;
    try (eexists; split; [reflexivity|]; cbv zeta;
         match goal with
         | |- (?m ≫= ?h) ?W = _ =>
             rewrite (bind_Ret m h W _ _ (Hline _)); reflexivity
         end);
    reflexivity.
Qed.

End ListSlot.

Lemma gen_slot_list_witness :
  gen_slot Ex.dummy Ex.dummy_registry Ex.dummy_graph 0 Ex.test_map
    (Field.mk "m" 65535 (FSlot (TList (TList TInt32))))
    (CapnpType.mk Ex.test_map "TestMap" 0%nat []) [] [] Ex.dummy_writer
  = Raise TypeError Ex.dummy_writer.
Proof.
  apply (gen_slot_list Ex.dummy Ex.dummy_registry Ex.dummy_graph 0 Ex.test_map
           (Field.mk "m" 65535 (FSlot (TList (TList TInt32)))) (TList TInt32)
           (CapnpType.mk Ex.test_map "TestMap" 0%nat []) [] []
           (Scope.mk "" 1 None None []) Ex.dummy_writer); reflexivity.
Defined.

(** ** Groups *)

Section Group.

Variable module : Module_.t.
Variable module_registry : ModuleRegistryType.
Variable graph : list Node.t.
Variable self_gen_struct : Node.t -> string -> M CapnpType.t.

Lemma struct_schema_state type_id w :
  match struct_schema graph type_id w with
  | Ret _ w' => w' = w
  | Raise _ w' => w' = w
  end.
Proof.
  unfold struct_schema, get_schema. rewrite bind_eq.
  destruct (find _ graph) as [n|]; cbn [from_option]; [|reflexivity].
  cbn. destruct (String.eqb (Node.which n) "struct"); reflexivity.
Qed.

(** X12.  A group field.  The class of the group is named after the field,
    with the first letter in upper case; a field whose name starts with
    an ASCII character other than a lower-case letter [a]-[z] is refused
    with [AssertionError], and an empty name with [IndexError], before
    anything is generated.  Otherwise the struct of the group is
    generated under that name, and the field's line, the keyword argument
    and the [init] choice all use the name that the generation
    returned, without any scope before it. *)
Theorem gen_field_group schema registered_type field type_id l w :
  Field.body field = FGroup type_id ->
  match Field.name field with
  | EmptyString =>
      gen_field module module_registry graph self_gen_struct schema
        registered_type field l w
      = Raise IndexError w
  | String c rest =>
      if ((97 <=? nat_of_ascii c) && (nat_of_ascii c <=? 122))%nat then
        forall raw t w1 s1,
          struct_schema graph type_id w = Ret raw w ->
          self_gen_struct raw (String (ascii_of_nat (nat_of_ascii c - 32)) rest) w
          = Ret t w1 ->
          heap w1 !! scope w1 = Some s1 ->
          let code := Field.name field +:+ ": " +:+ CapnpType.name t in
          gen_field module module_registry graph self_gen_struct schema
            registered_type field l w
          = Ret (mkLocals true (contructor_kwargs l ++ [code])
                   (init_choices l ++ [(Field.name field, CapnpType.name t)]))
              (set_heap
                 (<[scope w1 := Scope.add_lines
                                  [indented (indent_spaces (heap w1) s1) code]
                                  s1]> (heap w1)) w1)
      else if (nat_of_ascii c <? 128)%nat then
        gen_field module module_registry graph self_gen_struct schema
          registered_type field l w
        = Raise AssertionError w
      else True
  end.
Proof.
  intros Eb. unfold gen_field, Field.which. rewrite Eb.
  cbn [String.eqb Ascii.eqb Bool.eqb CapnpFieldType.SLOT CapnpFieldType.GROUP].
  destruct (Field.name field) as [|c rest] eqn:En; [reflexivity|].
  unfold group_type_name, Str.upper_char. cbv zeta.
  destruct ((97 <=? nat_of_ascii c) && (nat_of_ascii c <=? 122))%nat eqn:Elow;
    lazy beta iota.
  - intros raw t w1 s1 Hraw Hself Hs1.
    erewrite bind_Ret; [|reflexivity].
    assert (String.eqb (String (ascii_of_nat (nat_of_ascii c - 32)) rest)
              (String c rest) = false) as ->.
    { apply String.eqb_neq. intros H. injection H as H.
      apply (f_equal nat_of_ascii) in H.
      apply andb_prop in Elow as [H1 H2].
      apply Nat.leb_le in H1. apply Nat.leb_le in H2.
      rewrite nat_ascii_embedding in H by lia. lia. }
    cbn [negb assert_]. erewrite bind_Ret; [|reflexivity].
    rewrite (bind_Ret _ _ _ _ _ Hraw).
    rewrite (bind_Ret _ _ _ _ _ Hself).
    rewrite (bind_Ret _ _ _ _ _ (add_line_eq _ w1 s1 Hs1)).
    reflexivity.
  - destruct (nat_of_ascii c <? 128)%nat; [|exact I].
    erewrite bind_Ret; [|reflexivity].
    rewrite String.eqb_refl. reflexivity.
Qed.

End Group.

Lemma gen_field_group_witness :
  gen_field Ex.dummy Ex.dummy_registry Ex.dummy_graph
    (gen_struct Ex.dummy Ex.dummy_registry Ex.dummy_graph 1) Ex.test_map
    (CapnpType.mk Ex.test_map "TestMap" 0%nat [])
    (Field.mk "Address" 65535 (FGroup 12)) (mkLocals false [] [])
    Ex.dummy_writer
  = Raise AssertionError Ex.dummy_writer.
Proof.
  apply (gen_field_group Ex.dummy Ex.dummy_registry Ex.dummy_graph
           (gen_struct Ex.dummy Ex.dummy_registry Ex.dummy_graph 1) Ex.test_map
           (CapnpType.mk Ex.test_map "TestMap" 0%nat [])
           (Field.mk "Address" 65535 (FGroup 12)) 12 (mkLocals false [] [])
           Ex.dummy_writer).
  reflexivity.
Defined.

(** ** The registry of types *)

(** X13.  Registering and looking up.  A type that [register_type] returns is
    what [get_type_by_id] finds under the same id, also when the id was
    registered before; the other ids and the scopes are untouched.  The
    registration fails, with [ValueError] and without any change, exactly
    when no scope is given and the current scope has no parent.  An id
    that is not registered makes [get_type_by_id] raise [KeyError]. *)
Theorem register_type_round_trip type_id schema name scope_arg w :
  match register_type type_id schema name scope_arg w with
  | Ret t w' =>
      get_type_by_id type_id w' = Ret t w'
      /\ is_type_id_known type_id w' = Ret true w'
      /\ (forall j, j <> type_id -> get_type_by_id j w' =
            match get_type_by_id j w with
            | Ret t' _ => Ret t' w'
            | Raise e _ => Raise e w'
            end)
      /\ heap w' = heap w /\ scope w' = scope w
      /\ CapnpType.name t
         = (if String.eqb name "" then get_display_name schema else name)
      /\ Some (CapnpType.scope t)
         = match scope_arg with
           | Some r => Some r
           | None => heap w !! scope w ≫= Scope.parent
           end
  | Raise e w' =>
      e = ValueError /\ w' = w /\ scope_arg = None
      /\ (heap w !! scope w ≫= Scope.parent) = None
  end
  /\ (type_map w !! type_id = None -> get_type_by_id type_id w = Raise KeyError w).
Proof.
  split.
  - unfold register_type. cbv zeta.
    set (sc := match scope_arg with
               | Some r => Some r
               | None => heap w !! scope w ≫= Scope.parent
               end).
    destruct sc as [r|] eqn:E.
    + unfold get_type_by_id, is_type_id_known. cbn [type_map set_type_map heap scope].
      rewrite lookup_insert_eq.
      split; [reflexivity|].
      split; [rewrite bool_decide_eq_true_2 by eauto; reflexivity|].
      split; [|repeat split].
      intros j Hj. rewrite lookup_insert_ne by auto.
      destruct (type_map w !! j); reflexivity.
    + subst sc. destruct scope_arg; [discriminate|].
      repeat split. exact E.
  - intros H. unfold get_type_by_id. rewrite H. reflexivity.
Qed.

Lemma register_type_round_trip_witness :
  get_type_by_id 12
    (set_type_map (<[12 := CapnpType.mk Ex.inner "Inner" 0%nat []]> ∅)
       Ex.nested_writer)
  = Ret (CapnpType.mk Ex.inner "Inner" 0%nat [])
      (set_type_map (<[12 := CapnpType.mk Ex.inner "Inner" 0%nat []]> ∅)
         Ex.nested_writer).
Proof.
  exact (proj1 (proj1 (register_type_round_trip 12 Ex.inner "" None
                         Ex.nested_writer))).
Defined.

(** ** A module without nested nodes *)

Section EmptyModule.

Variable module : Module_.t.
Variable module_registry : ModuleRegistryType.
Variable graph : list Node.t.
Variable set_iter : gset string -> list string.

(** X14.  The writer can be made exactly for a module with a file name that is
    not empty; otherwise [ValueError].  For a module without nested
    nodes the pass over the nodes changes nothing, the stub consists of
    the docstring, the import of [annotations] and an empty line, and the
    loader module of its six fixed lines. *)
Theorem empty_module_stub fuel :
  (init module = inl ValueError <->
   Module_.file module = None \/ Module_.file module = Some "")
  /\ forall w,
       init module = inr w ->
       Node.nestedNodes (Module_.schema module) = [] ->
       set_iter {["from __future__ import annotations"]}
       = ["from __future__ import annotations"] ->
       generate_recursive module module_registry graph fuel w = Ret tt w
       /\ dumps_pyi set_iter w
          = inr (docstring w +:+ newline
                 +:+ "from __future__ import annotations" +:+ newline)
       /\ dumps_py module w
          = inr (Str.join newline
                   [ docstring w; "import os"; "import capnp";
                     "capnp.remove_import_hook()";
                     "here = os.path.dirname(os.path.abspath(__file__))";
                     "module_file = os.path.abspath(os.path.join(here, "
                       +:+ quote +:+ Node.displayName (Module_.schema module)
                       +:+ quote +:+ "))" ]).
Proof.
  split.
  - unfold init. destruct (Module_.file module) as [f|].
    + destruct (String.eqb f "") eqn:E.
      * apply String.eqb_eq in E. subst f. split; auto.
      * apply String.eqb_neq in E. split; [discriminate|].
        intros [H|H]; [discriminate|]. injection H as ->. contradiction.
    + split; auto.
  - intros w Hi Hn Hset. unfold init in Hi.
    destruct (Module_.file module) as [f|]; [|discriminate].
    destruct (String.eqb f ""); [discriminate|]. injection Hi as <-.
    split; [|split].
    + unfold generate_recursive. rewrite Hn. reflexivity.
    + unfold dumps_pyi, root_is_current, dumps_pyi_lines, imports.
      cbn [heap scope lookup list_lookup is_root Scope.parent _imports
           _typing_imports type_vars docstring Scope.lines].
      rewrite Hset.
      rewrite !bool_decide_eq_true_2 by reflexivity.
      cbn [app Str.join String.concat].
      rewrite append_nil_r. reflexivity.
    + unfold dumps_py, root_is_current, dumps_py_lines.
      cbn [heap scope lookup list_lookup is_root Scope.parent scopes_by_id
           omap list_omap docstring Scope.lines mbind option_bind].
      reflexivity.
Qed.

End EmptyModule.

Module ExEmpty.

(** [empty.capnp]: a file without declarations. *)
Definition empty : Module_.t :=
  Module_.mk (Some "/a/empty.capnp") (Node.mk 70 "empty.capnp" 0 0 false [] [] NFile).

Definition writer : Writer :=
  match init empty with
  | inr w => w
  | inl _ => Ex.empty_writer
  end.

End ExEmpty.

Lemma empty_module_stub_witness :
  generate_recursive ExEmpty.empty [] [] 0 ExEmpty.writer = Ret tt ExEmpty.writer
  /\ dumps_pyi elements ExEmpty.writer
     = inr (quote +:+ quote +:+ quote
            +:+ "This is an automatically generated stub for `empty.capnp`."
            +:+ quote +:+ quote +:+ quote +:+ newline
            +:+ "from __future__ import annotations" +:+ newline).
Proof.
  destruct (proj2 (empty_module_stub ExEmpty.empty [] [] elements 0)
              ExEmpty.writer) as (H1 & H2 & _).
  - reflexivity.
  - reflexivity.
  - apply elements_singleton.
  - split; [exact H1 | exact H2].
Defined.

(** ** What the loader module exports *)

Lemma idict_set_fresh {V} (k : Z) (v : V) (d : list (Z * V)) :
  idict_get k d = None -> idict_set k v d = d ++ [(k, v)].
Proof.
  induction d as [|[k' v'] d IH]; intros H; [reflexivity|].
  cbn [idict_get idict_set] in *. destruct (Z.eqb k k'); [discriminate|].
  rewrite IH by exact H. reflexivity.
Qed.

(** The references of the dictionary of scopes are scope objects. *)
Definition refs_ok (w : Writer) : Prop :=
  forall k (r : nat), (k, r) ∈ scopes_by_id w -> (r < length (heap w))%nat.

Section Exports.

Variable module : Module_.t.

(** The line of the loader module for the scope at [r]. *)
Definition export_line (h : list Scope.t) (r : nat) : option string :=
  s ← h !! r;
  p ← Scope.parent s;
  ps ← h !! p;
  if is_root ps
  then Some (Scope.name s +:+ " = capnp.load(module_file)." +:+ Scope.name s)
  else None.

Lemma export_line_opened name node heading p ps w (r : nat) :
  wf_heap (heap w) ->
  heap w !! p = Some ps ->
  (r < length (heap w))%nat ->
  export_line (heap (opened name node heading p ps w)) r
  = export_line (heap w) r.
Proof.
  intros Hwf Hps Hr. pose proof (lookup_lt_Some _ _ _ Hps) as Hlt.
  set (ps' := Scope.add_lines [indented (indent_spaces (heap w) ps) heading] ps).
  set (child := Scope.mk name (Node.id node) (Some p) (Some (scope w)) []).
  assert (heap (opened name node heading p ps w)
          = <[p := ps']> (heap w) ++ [child]) as -> by reflexivity.
  assert (forall i : nat, (i < length (heap w))%nat ->
            exists s s', heap w !! i = Some s
              /\ (<[p := ps']> (heap w) ++ [child]) !! i = Some s'
              /\ Scope.parent s' = Scope.parent s
              /\ Scope.name s' = Scope.name s) as Hsame.
  { intros i Hi. destruct (lookup_lt_is_Some_2 (heap w) i Hi) as [s Es].
    rewrite lookup_app_l by (rewrite length_insert; exact Hi).
    destruct (decide (i = p)) as [->|Hne].
    - rewrite list_lookup_insert_eq by exact Hlt.
      exists ps, ps'. repeat split; first [exact Hps | reflexivity].
    - rewrite list_lookup_insert_ne by auto. exists s, s. auto. }
  unfold export_line.
  destruct (Hsame r Hr) as (s & s' & E & E' & Hp' & Hn'). rewrite E, E'.
  cbn [mbind option_bind]. rewrite Hp', Hn'.
  destruct (Scope.parent s) as [q|] eqn:Eq; [|reflexivity].
  cbn [mbind option_bind].
  assert (q < length (heap w))%nat as Hq.
  { specialize (Hwf r s q E Eq). lia. }
  destruct (Hsame q Hq) as (a & a' & Ea & Ea' & Hpa & _). rewrite Ea, Ea'.
  cbn [mbind option_bind]. unfold is_root. rewrite Hpa. reflexivity.
Qed.

(** X15.  Every scope that is opened directly below the root, and no other,
    adds one line to the loader module, after the lines that were there:
    the classes of the top level are exported in the order of their
    generation, nested classes are not. *)
Theorem new_scope_exports name node heading w w' :
  wf_heap (heap w) ->
  refs_ok w ->
  idict_get (Node.id node) (scopes_by_id w) = None ->
  new_scope name node heading w = Ret tt w' ->
  refs_ok w'
  /\ exists p ps,
       idict_get (Node.scopeId node) (scopes_by_id w) = Some p
       /\ heap w !! p = Some ps
       /\ dumps_py_lines module w'
          = dumps_py_lines module w
            ++ (if is_root ps
                then [name +:+ " = capnp.load(module_file)." +:+ name]
                else []).
Proof.
  intros Hwf Hok Hfresh H.
  destruct (new_scope_inv _ _ _ _ _ H) as (p & ps & Hp & Hps & Hn & ->).
  pose proof (lookup_lt_Some _ _ _ Hps) as Hlt.
  assert (scopes_by_id (opened name node heading p ps w)
          = scopes_by_id w ++ [(Node.id node, length (heap w))]) as Hd.
  { cbn [scopes_by_id opened set_scopes_by_id set_scope set_heap].
    apply idict_set_fresh. exact Hfresh. }
  assert (length (heap (opened name node heading p ps w))
          = S (length (heap w))) as Hlen.
  { cbn [heap opened set_scopes_by_id set_scope set_heap].
    rewrite length_app, length_insert. cbn [length]. lia. }
  split.
  - intros k r Hr. rewrite Hd in Hr. rewrite Hlen.
    apply elem_of_app in Hr as [Hr|Hr].
    + specialize (Hok k r Hr). lia.
    + apply list_elem_of_singleton in Hr. injection Hr as _ ->. lia.
  - exists p, ps. split; [exact Hp|]. split; [exact Hps|].
    unfold dumps_py_lines. rewrite Hd. rewrite <- app_assoc. f_equal.
    change (docstring (opened name node heading p ps w)) with (docstring w).
    f_equal.
    rewrite omap_app. f_equal.
    + apply omap_ext_elem. intros [k r] Hr.
      apply (export_line_opened name node heading p ps w r Hwf Hps).
      exact (Hok k r Hr).
    + cbn [omap list_omap].
      rewrite (opened_child name node heading p ps w Hps).
      cbn [mbind option_bind Scope.parent Scope.name].
      assert (heap (opened name node heading p ps w) !! p
              = Some (Scope.add_lines
                        [indented (indent_spaces (heap w) ps) heading] ps)) as ->.
      { cbn [heap opened set_scopes_by_id set_scope set_heap].
        rewrite lookup_app_l by (rewrite length_insert; exact Hlt).
        apply list_lookup_insert_eq. exact Hlt. }
      cbn [mbind option_bind]. change (is_root (Scope.add_lines _ ps))
        with (is_root ps).
      destruct (is_root ps); reflexivity.
Qed.

End Exports.

Lemma new_scope_exports_witness :
  exists w',
    new_scope "TestMap" Ex.test_map "class TestMap:" Ex.dummy_writer = Ret tt w'
    /\ dumps_py_lines Ex.dummy w'
       = dumps_py_lines Ex.dummy Ex.dummy_writer
         ++ ["TestMap = capnp.load(module_file).TestMap"].
Proof.
  eexists. split; [reflexivity|].
  destruct (new_scope_exports Ex.dummy "TestMap" Ex.test_map "class TestMap:"
              Ex.dummy_writer
              (opened "TestMap" Ex.test_map "class TestMap:" 0%nat
                 (Scope.mk "" 1 None None []) Ex.dummy_writer)
              (wf_heap_root _ _ _ _)) as (_ & p & ps & Hp & Hps & H).
  - intros k r Hr. apply list_elem_of_singleton in Hr. injection Hr as _ ->.
    cbn. lia.
  - reflexivity.
  - reflexivity.
  - injection Hp as <-. injection Hps as <-. exact H.
Defined.

(** ** Types of other modules *)

Section Imported.

Variable module : Module_.t.
Variable module_registry : ModuleRegistryType.
Variable graph : list Node.t.

(** What an import leaves behind, whether it returns or raises. *)
Definition import_outcome (schema : Node.t) (definition_name : string)
    (w : Writer) (o : outcome (option CapnpType.t)) : Prop :=
  match o with
  | Ret None _ => False
  | Ret (Some t) w' =>
      heap w' = heap w /\ scope w' = scope w
      /\ scopes_by_id w' = scopes_by_id w
      /\ t = CapnpType.mk schema
               (if String.eqb definition_name "" then get_display_name schema
                else definition_name)
               (root (heap w) (scope w)) []
      /\ type_map w' = <[Node.id schema := t]> (type_map w)
      /\ exists line, _imports w' = {[line]} ∪ _imports w
  | Raise e w' => w' = w /\ (e = AssertionError \/ e = ValueError)
  end.

Lemma register_import_outcome schema module_name definition_name w :
  Str.split ":" (Node.displayName schema) = [module_name; definition_name] ->
  module_name <> base_module_name module ->
  import_outcome schema definition_name w
    (register_import module module_registry schema w).
Proof.
  intros Hs Hm. unfold register_import. rewrite Hs.
  apply String.eqb_neq in Hm. rewrite Hm.
  destruct (find_matching_path module_registry (Node.id schema)) as [mp|];
    cbn [from_option]; [|split; auto].
  erewrite bind_Ret; [|reflexivity].
  erewrite bind_Ret; [|reflexivity].
  unfold commonpath, relative_to.
  destruct (Bool.eqb (Path.is_absolute (_module_path w)) (Path.is_absolute mp));
    [|split; auto].
  erewrite bind_Ret; [|reflexivity]. cbn [Path.root Path.parts].
  destruct (String.eqb (Path.root (_module_path w)) _); [|split; auto].
  destruct (strip_prefix _ (Path.parts (_module_path w))) as [r1|];
    [|split; auto].
  erewrite bind_Ret; [|reflexivity].
  destruct (String.eqb (Path.root mp) _); [|split; auto].
  destruct (strip_prefix _ (Path.parts mp)) as [r2|]; [|split; auto].
  erewrite bind_Ret; [|reflexivity].
  erewrite bind_Ret; [|reflexivity].
  erewrite bind_Ret; [|reflexivity].
  unfold register_type. cbv zeta.
  cbn. repeat split. eexists. reflexivity.
Qed.

(** X16.  A struct or an enum that another module declares is not declared
    again: [gen_struct] and [gen_enum] open no scope and write no line
    for it.  When they return, the type is registered under its name in
    the other module with the root as its scope, and one import line was
    added; when they raise, it is [AssertionError] or [ValueError], and
    nothing has changed.  [gen_enum] returns the type here, not [None]. *)
Theorem imported_not_declared fuel schema type_name module_name
    definition_name w :
  Str.split ":" (Node.displayName schema) = [module_name; definition_name] ->
  module_name <> base_module_name module ->
  (Node.which schema = "struct" ->
   import_outcome schema definition_name w
     match gen_struct module module_registry graph (S fuel) schema type_name w with
     | Ret t w' => Ret (Some t) w'
     | Raise e w' => Raise e w'
     end)
  /\ (Node.which schema = "enum" ->
      import_outcome schema definition_name w
        (gen_enum module module_registry schema w)).
Proof.
  intros Hs Hm.
  pose proof (register_import_outcome schema module_name definition_name w
                Hs Hm) as H.
  split; intros Hw.
  - cbn [gen_struct]. unfold gen_struct_body. rewrite Hw.
    cbn [String.eqb Ascii.eqb Bool.eqb CapnpElementType.STRUCT assert_].
    erewrite bind_Ret; [|reflexivity]. rewrite bind_eq.
    destruct (register_import module module_registry schema w)
      as [[t|] w'|e w']; [exact H | contradiction | exact H].
  - unfold gen_enum. rewrite Hw.
    cbn [String.eqb Ascii.eqb Bool.eqb CapnpElementType.ENUM assert_].
    erewrite bind_Ret; [|reflexivity]. rewrite bind_eq.
    destruct (register_import module module_registry schema w)
      as [[t|] w'|e w']; [exact H | contradiction | exact H].
Qed.

End Imported.

Lemma imported_not_declared_witness :
  exists t w',
    gen_struct ExImport.app ExImport.registry [] 1 ExImport.thing ""
      ExImport.app_writer = Ret t w'
    /\ heap w' = heap ExImport.app_writer
    /\ CapnpType.name t = "Thing".
Proof.
  assert ("other.capnp" <> base_module_name ExImport.app) as Hne
    by discriminate.
  pose proof (proj1 (imported_not_declared ExImport.app ExImport.registry []
                       0 ExImport.thing "" "other.capnp" "Thing"
                       ExImport.app_writer eq_refl Hne) eq_refl) as H.
  destruct (gen_struct ExImport.app ExImport.registry [] 1 ExImport.thing ""
              ExImport.app_writer) as [t w'|e w'] eqn:E.
  - exists t, w'. destruct H as (H1 & _ & _ & -> & _).
    split; [reflexivity|]. split; [exact H1 | reflexivity].
  - exfalso. vm_compute in E. discriminate E.
Defined.

(** ** The suffix of a schema file *)

(** Every dot that is followed by [capnp] becomes an underscore. *)
Fixpoint underscore_capnp (s : string) : string :=
  match s with
  | EmptyString => EmptyString
  | String c s' =>
      String (if Ascii.eqb c "." && Str.startswith "capnp" s' then "_"%char else c)
             (underscore_capnp s')
  end.

Lemma startswith_app p : forall s,
  Str.startswith p s = true -> exists t, s = p +:+ t.
Proof.
  induction p as [|a p IH]; intros s H.
  - exists s. reflexivity.
  - destruct s as [|b s]; [discriminate|]. cbn [Str.startswith] in H.
    apply andb_prop in H as [Hab Hp]. apply Ascii.eqb_eq in Hab. subst b.
    destruct (IH s Hp) as [t ->]. exists t. reflexivity.
Qed.

Lemma replace_underscore n : forall s,
  (String.length s <= n)%nat ->
  Str.replace_from ".capnp" "_capnp" 0 s = underscore_capnp s.
Proof.
  induction n as [|n IH]; intros s Hn.
  - destruct s; [reflexivity | cbn in Hn; lia].
  - destruct s as [|c s']; [reflexivity|].
    cbn [String.length] in Hn.
    cbn [Str.replace_from].
    destruct (Str.startswith ".capnp" (String c s')) eqn:E.
    + destruct (startswith_app _ _ E) as [t Ht].
      rewrite append_cons in Ht. injection Ht as -> ->.
      rewrite !append_cons, append_nil_l.
      rewrite !append_cons, append_nil_l in Hn. cbn [String.length] in Hn.
      cbn [String.length Nat.sub Str.replace_from underscore_capnp
           Ascii.eqb Bool.eqb andb Str.startswith].
      rewrite ?append_nil_l. rewrite IH by lia. reflexivity.
    + cbn [underscore_capnp]. rewrite IH by lia.
      change (Str.startswith ".capnp" (String c s'))
        with (Ascii.eqb "." c && Str.startswith "capnp" s') in E.
      rewrite Ascii.eqb_sym in E. rewrite E.
      reflexivity.
Qed.

Lemma length_underscore_capnp s :
  String.length (underscore_capnp s) = String.length s.
Proof.
  induction s as [|c s IH]; [reflexivity|]. cbn. rewrite IH. reflexivity.
Qed.

(** X17.  [replace_capnp_suffix] touches only a string that ends in [.capnp],
    and there it replaces not just the suffix: every dot that [capnp]
    follows becomes an underscore, all other characters stay, so the
    length is kept. *)
Theorem replace_capnp_suffix_every original :
  replace_capnp_suffix original
  = (if Str.endswith original ".capnp" then underscore_capnp original
     else original)
  /\ String.length (replace_capnp_suffix original) = String.length original.
Proof.
  assert (replace_capnp_suffix original
          = if Str.endswith original ".capnp" then underscore_capnp original
            else original) as H.
  { unfold replace_capnp_suffix, Str.replace.
    destruct (Str.endswith original ".capnp"); [|reflexivity].
    apply (replace_underscore (String.length original)). lia. }
  split; [exact H|].
  rewrite H. destruct (Str.endswith original ".capnp"); [|reflexivity].
  apply length_underscore_capnp.
Qed.

Lemma replace_capnp_suffix_every_witness :
  replace_capnp_suffix "a.capnp.b.capnp" = "a_capnp.b_capnp"
  /\ String.length (replace_capnp_suffix "a.capnp.b.capnp") = 15%nat.
Proof. exact (replace_capnp_suffix_every "a.capnp.b.capnp"). Defined.

(** * The scopes form a tree *)

(** A writer is sound when its scope objects form a tree below the root
    scope at position 0 (the parent of a scope and the scope to return to
    are older objects, and exactly the root has no parent) and every
    reference that the writer holds is to a scope object. *)
Record sound (w : Writer) : Prop := mkSound {
  sound_parent : wf_heap (heap w);
  sound_return : forall (i : nat) s,
    heap w !! i = Some s ->
    match Scope.return_scope s with
    | Some r => (r < i)%nat
    | None => Scope.parent s = None
    end;
  sound_root : forall (i : nat) s,
    heap w !! i = Some s -> (Scope.parent s = None <-> i = 0%nat);
  sound_scope : (scope w < length (heap w))%nat;
  sound_refs : refs_ok w;
  sound_types : forall i t,
    type_map w !! i = Some t -> (CapnpType.scope t < length (heap w))%nat }.

(** The shape of a heap: what soundness depends on. *)
Definition same_shape (h h' : list Scope.t) : Prop :=
  length h' = length h
  /\ forall (i : nat) s, h !! i = Some s ->
       exists s', h' !! i = Some s'
                  /\ Scope.parent s' = Scope.parent s
                  /\ Scope.return_scope s' = Scope.return_scope s.

Lemma same_shape_insert_lines (h : list Scope.t) (r : nat) s extra :
  h !! r = Some s -> same_shape h (<[r := Scope.add_lines extra s]> h).
Proof.
  intros Hr. pose proof (lookup_lt_Some _ _ _ Hr) as Hlt.
  split; [apply length_insert|]. intros i x Hi.
  destruct (decide (i = r)) as [->|Hne].
  - rewrite list_lookup_insert_eq by exact Hlt. rewrite Hr in Hi.
    injection Hi as <-. eexists. repeat split.
  - rewrite list_lookup_insert_ne by auto. exists x. auto.
Qed.

Lemma same_shape_lookup (h h' : list Scope.t) (i : nat) s' :
  same_shape h h' -> h' !! i = Some s' ->
  exists s, h !! i = Some s
            /\ Scope.parent s' = Scope.parent s
            /\ Scope.return_scope s' = Scope.return_scope s.
Proof.
  intros [Hl Hs] Hi. pose proof (lookup_lt_Some _ _ _ Hi) as Hlt.
  rewrite Hl in Hlt. destruct (lookup_lt_is_Some_2 h i Hlt) as [s Es].
  destruct (Hs i s Es) as (x & Ex & Hp & Hr). rewrite Hi in Ex.
  injection Ex as <-. exists s. auto.
Qed.

Lemma sound_same_shape w w' :
  sound w ->
  same_shape (heap w) (heap w') ->
  scope w' = scope w ->
  scopes_by_id w' = scopes_by_id w ->
  type_map w' = type_map w ->
  sound w'.
Proof.
  intros [H1 H2 H3 H4 H5 H6] Hsh Hsc Hd Ht.
  pose proof (proj1 Hsh) as Hl.
  split.
  - intros i s' q Hi Hq.
    destruct (same_shape_lookup _ _ _ _ Hsh Hi) as (s & Es & Hp & _).
    rewrite Hp in Hq. exact (H1 i s q Es Hq).
  - intros i s' Hi.
    destruct (same_shape_lookup _ _ _ _ Hsh Hi) as (s & Es & Hp & Hr).
    rewrite Hp, Hr. exact (H2 i s Es).
  - intros i s' Hi.
    destruct (same_shape_lookup _ _ _ _ Hsh Hi) as (s & Es & Hp & _).
    rewrite Hp. exact (H3 i s Es).
  - rewrite Hsc, Hl. exact H4.
  - intros k r Hr. rewrite Hd in Hr. rewrite Hl. exact (H5 k r Hr).
  - intros i t Hi. rewrite Ht in Hi. rewrite Hl. exact (H6 i t Hi).
Qed.

Lemma sound_insert_lines w (r : nat) s extra :
  sound w -> heap w !! r = Some s ->
  sound (set_heap (<[r := Scope.add_lines extra s]> (heap w)) w).
Proof.
  intros Hw Hr. apply (sound_same_shape w); try reflexivity; [exact Hw|].
  apply same_shape_insert_lines. exact Hr.
Qed.

Lemma sound_lookup_scope w : sound w -> is_Some (heap w !! scope w).
Proof. intros H. apply lookup_lt_is_Some_2, (sound_scope w H). Qed.

Lemma sound_lookup_parent w (i : nat) s q :
  sound w -> heap w !! i = Some s -> Scope.parent s = Some q ->
  (q < length (heap w))%nat.
Proof.
  intros H Hi Hq. pose proof (sound_parent w H i s q Hi Hq).
  pose proof (lookup_lt_Some _ _ _ Hi). lia.
Qed.

(** What a sound computation leaves, whether it returns or raises: a
    sound writer with no scope object lost, and never the error of a
    reference to no scope. *)
Definition outcome_ok {A} (w : Writer) (o : outcome A) : Prop :=
  match o with
  | Ret _ w' => sound w' /\ (length (heap w) <= length (heap w'))%nat
  | Raise e w' =>
      sound w' /\ (length (heap w) <= length (heap w'))%nat /\ e <> DanglingRef
  end.

Lemma outcome_ok_mono {A} w w1 (o : outcome A) :
  (length (heap w) <= length (heap w1))%nat -> outcome_ok w1 o -> outcome_ok w o.
Proof.
  intros Hl. destruct o as [a w'|e w']; cbn.
  - intros [H1 H2]. split; [exact H1 | lia].
  - intros (H1 & H2 & H3). split; [exact H1|]. split; [lia | exact H3].
Qed.

(** [safe_at r m]: [m] is sound wherever [r] is a scope object. *)
Definition safe_at {A} (r : nat) (m : M A) : Prop :=
  forall w, sound w -> (r < length (heap w))%nat -> outcome_ok w (m w).

Lemma safe_ret {A} r (a : A) : safe_at r (mret a).
Proof. intros w H _. split; [exact H | reflexivity]. Qed.

Lemma safe_raise {A} r e : e <> DanglingRef -> safe_at r (@raise A e).
Proof. intros He w H _. split; [exact H|]. split; [reflexivity | exact He]. Qed.

Lemma safe_bind {A B} r (m : M A) (f : A -> M B) :
  safe_at r m -> (forall a, safe_at r (f a)) -> safe_at r (m ≫= f).
Proof.
  intros Hm Hf w Hw Hr. rewrite bind_eq. specialize (Hm w Hw Hr).
  destruct (m w) as [a w1|e w1]; [|exact Hm].
  destruct Hm as [H1 Hl1].
  assert (r < length (heap w1))%nat as Hr1 by lia.
  specialize (Hf a w1 H1 Hr1).
  destruct (f a w1) as [b w2|e w2].
  - destruct Hf as [H2 Hl2]. split; [exact H2 | lia].
  - destruct Hf as (H2 & Hl2 & He). split; [exact H2|]. split; [lia | exact He].
Qed.

Lemma safe_from_option {A} r e (o : option A) :
  e <> DanglingRef -> safe_at r (from_option e o).
Proof. intros He. destruct o; [apply safe_ret | apply safe_raise, He]. Qed.

Lemma safe_assert r b : safe_at r (assert_ b).
Proof. destruct b; [apply safe_ret | apply safe_raise; discriminate]. Qed.

(** A step that returns a state of the same shape. *)
Lemma safe_step {A} r (m : M A) :
  (forall w, sound w ->
     match m w with
     | Ret _ w' => sound w' /\ length (heap w') = length (heap w)
     | Raise e w' => w' = w /\ e <> DanglingRef
     end) ->
  safe_at r m.
Proof.
  intros H w Hw _. specialize (H w Hw). destruct (m w) as [a w'|e w'].
  - destruct H as [H1 H2]. split; [exact H1 | lia].
  - destruct H as [-> He]. split; [exact Hw|]. split; [reflexivity | exact He].
Qed.

Lemma safe_is_type_id_known r i : safe_at r (is_type_id_known i).
Proof. apply safe_step. intros w H. split; [exact H | reflexivity]. Qed.

Lemma safe_get_type_by_id r i : safe_at r (get_type_by_id i).
Proof.
  apply safe_step. intros w H. unfold get_type_by_id.
  destruct (type_map w !! i); [split; [exact H | reflexivity]|].
  split; [reflexivity | discriminate].
Qed.

Lemma sound_set_typing_imports w x : sound w -> sound (set_typing_imports x w).
Proof.
  intros H. apply (sound_same_shape w); try reflexivity; [exact H|].
  split; [reflexivity|]. intros i s Hi. exists s. auto.
Qed.

Lemma sound_set_imports w x : sound w -> sound (set_imports x w).
Proof.
  intros H. apply (sound_same_shape w); try reflexivity; [exact H|].
  split; [reflexivity|]. intros i s Hi. exists s. auto.
Qed.

Lemma sound_set_type_vars w x : sound w -> sound (set_type_vars x w).
Proof.
  intros H. apply (sound_same_shape w); try reflexivity; [exact H|].
  split; [reflexivity|]. intros i s Hi. exists s. auto.
Qed.

Lemma sound_register w i t :
  sound w -> (CapnpType.scope t < length (heap w))%nat ->
  sound (set_type_map (<[i := t]> (type_map w)) w).
Proof.
  intros [H1 H2 H3 H4 H5 H6] Ht. split; try assumption.
  intros j t' Hj. cbn [type_map set_type_map heap] in *.
  destruct (decide (j = i)) as [->|Hne].
  - rewrite lookup_insert_eq in Hj. injection Hj as <-. exact Ht.
  - rewrite lookup_insert_ne in Hj by auto. exact (H6 j t' Hj).
Qed.

Lemma safe_add_typing_import r n : safe_at r (_add_typing_import n).
Proof.
  apply safe_step. intros w H.
  split; [apply sound_set_typing_imports, H | reflexivity].
Qed.

Lemma safe_add_import r l : safe_at r (_add_import l).
Proof.
  apply safe_step. intros w H.
  split; [apply sound_set_imports, H | reflexivity].
Qed.

Lemma safe_register_type_var r n : safe_at r (register_type_var n).
Proof.
  apply safe_step. intros w H.
  split; [apply sound_set_type_vars, H | reflexivity].
Qed.

Lemma safe_add_line r line : safe_at r (add_line line).
Proof.
  apply safe_step. intros w H.
  destruct (sound_lookup_scope w H) as [s Hs].
  rewrite (add_line_eq line w s Hs).
  split; [apply sound_insert_lines; assumption|].
  cbn [heap set_heap]. apply length_insert.
Qed.

Lemma safe_add_lines r ls : safe_at r (add_lines ls).
Proof.
  induction ls as [|l ls IH]; [apply safe_ret|].
  cbn [add_lines]. apply safe_bind; [apply safe_add_line|]. intros _. exact IH.
Qed.

Lemma safe_add_overloads r cs : safe_at r (add_overloads cs).
Proof.
  induction cs as [|c cs IH]; [apply safe_ret|].
  cbn [add_overloads].
  apply safe_bind; [apply safe_add_line|]. intros _.
  apply safe_bind; [apply safe_add_line|]. intros _. exact IH.
Qed.

Lemma idict_get_elem {V} (k : Z) (d : list (Z * V)) v :
  idict_get k d = Some v -> exists k', (k', v) ∈ d.
Proof.
  induction d as [|[k' v'] d IH]; intros H; [discriminate|].
  cbn [idict_get] in H. destruct (Z.eqb k k').
  - injection H as ->. exists k'. apply elem_of_cons. left. reflexivity.
  - destruct (IH H) as [k'' Hk]. exists k''. apply elem_of_cons. right. exact Hk.
Qed.

Lemma idict_set_elem {V} (k : Z) (v : V) (d : list (Z * V)) x :
  x ∈ idict_set k v d -> x = (k, v) \/ x ∈ d.
Proof.
  induction d as [|[k' v'] d IH]; intros H; cbn [idict_set] in H.
  - apply list_elem_of_singleton in H. left. exact H.
  - destruct (Z.eqb k k').
    + apply elem_of_cons in H as [H|H]; [left; exact H|].
      right. apply elem_of_cons. right. exact H.
    + apply elem_of_cons in H as [H|H].
      * right. apply elem_of_cons. left. exact H.
      * destruct (IH H) as [H'|H']; [left; exact H'|].
        right. apply elem_of_cons. right. exact H'.
Qed.

Lemma sound_opened name node heading p ps w :
  sound w -> heap w !! p = Some ps ->
  sound (opened name node heading p ps w).
Proof.
  intros Hw Hps. pose proof (lookup_lt_Some _ _ _ Hps) as Hlt.
  set (ps' := Scope.add_lines [indented (indent_spaces (heap w) ps) heading] ps).
  set (child := Scope.mk name (Node.id node) (Some p) (Some (scope w)) []).
  pose proof (sound_insert_lines w p ps
                [indented (indent_spaces (heap w) ps) heading] Hw Hps) as H1.
  destruct H1 as [H1 H2 H3 H4 H5 H6]. cbn [heap set_heap scope type_map] in *.
  fold ps' in H1, H2, H3, H4, H5, H6.
  assert (length (<[p := ps']> (heap w)) = length (heap w)) as Hl
    by apply length_insert.
  assert (heap (opened name node heading p ps w)
          = <[p := ps']> (heap w) ++ [child]) as Hh by reflexivity.
  assert (forall (i : nat) s,
            (<[p := ps']> (heap w) ++ [child]) !! i = Some s ->
            (i < length (heap w))%nat /\ <[p := ps']> (heap w) !! i = Some s
            \/ i = length (heap w) /\ s = child) as Hcase.
  { intros i s Hi. destruct (decide (i < length (heap w))%nat) as [Hlti|Hge].
    - left. split; [exact Hlti|]. rewrite lookup_app_l in Hi by lia. exact Hi.
    - right. rewrite lookup_app_r in Hi by lia. rewrite Hl in Hi.
      destruct (i - length (heap w))%nat as [|k] eqn:Ek;
        [|destruct k; discriminate].
      injection Hi as <-. split; [lia | reflexivity]. }
  split; rewrite ?Hh.
  - apply wf_heap_snoc; [exact H1|]. intros q Hq. injection Hq as <-. lia.
  - intros i s Hi. destruct (Hcase i s Hi) as [[_ Hi']|[-> ->]].
    + exact (H2 i s Hi').
    + cbn [Scope.return_scope child]. rewrite Hl in H4. exact H4.
  - intros i s Hi. destruct (Hcase i s Hi) as [[_ Hi']|[-> ->]].
    + exact (H3 i s Hi').
    + cbn [Scope.parent child]. split; [discriminate|]. lia.
  - cbn [scope opened set_scopes_by_id set_scope set_heap].
    rewrite length_app, Hl. cbn [length]. lia.
  - intros k r Hr.
    cbn [scopes_by_id opened set_scopes_by_id set_scope set_heap] in Hr.
    rewrite Hh, length_app, Hl. cbn [length].
    apply idict_set_elem in Hr as [Hr|Hr].
    + injection Hr as _ ->. lia.
    + specialize (H5 k r Hr). cbn [heap set_heap] in H5. lia.
  - intros i t Hi. rewrite ?Hh, length_app, Hl. cbn [length].
    specialize (H6 i t Hi). lia.
Qed.

Lemma safe_new_scope r name node heading : safe_at r (new_scope name node heading).
Proof.
  intros w Hw _.
  destruct (idict_get (Node.scopeId node) (scopes_by_id w)) as [p|] eqn:Hp.
  2:{ rewrite (new_scope_no_parent _ _ _ _ Hp).
      split; [exact Hw|]. split; [reflexivity | discriminate]. }
  destruct (idict_get_elem _ _ _ Hp) as [k Hk].
  pose proof (sound_refs w Hw k p Hk) as Hlt.
  destruct (lookup_lt_is_Some_2 (heap w) p Hlt) as [ps Hps].
  destruct (decide (name = "")) as [->|Hn].
  - unfold new_scope. rewrite (bind_Ret _ _ w w w) by reflexivity.
    rewrite Hp. cbn [from_option]. erewrite bind_Ret; [|reflexivity].
    erewrite bind_Ret; [|unfold add_line_at; rewrite Hps; reflexivity].
    unfold new_Scope. cbn. rewrite bind_eq.
    split; [apply sound_insert_lines; assumption|].
    cbn [heap set_heap]. rewrite length_insert.
    split; [reflexivity | discriminate].
  - rewrite (new_scope_eq name node heading p ps w Hp Hps Hn) .
    split; [apply sound_opened; assumption|].
    cbn [heap opened set_scopes_by_id set_scope set_heap].
    rewrite length_app, length_insert. lia.
Qed.

Lemma safe_return_from_scope r : safe_at r return_from_scope.
Proof.
  intros w Hw _.
  destruct (sound_lookup_scope w Hw) as [s Hs].
  destruct (Scope.parent s) as [p|] eqn:Hp.
  - pose proof (sound_lookup_parent w _ s p Hw Hs Hp) as Hlt.
    destruct (lookup_lt_is_Some_2 (heap w) p Hlt) as [ps Hps].
    pose proof (sound_return w Hw _ s Hs) as Hret.
    destruct (Scope.return_scope s) as [r'|] eqn:Hr; [|congruence].
    rewrite (return_from_scope_eq s p ps r' w Hs Hp Hps Hr).
    pose proof (sound_insert_lines w p ps (Scope.lines s) Hw Hps) as H1.
    unfold closed. split.
    + destruct H1 as [H1 H2 H3 H4 H5 H6]. split; try assumption.
      cbn [scope set_scope heap set_heap] in *. rewrite length_insert in *.
      pose proof (lookup_lt_Some _ _ _ Hs). lia.
    + cbn [heap set_scope set_heap]. rewrite length_insert. reflexivity.
  - unfold return_from_scope.
    rewrite (bind_Ret _ _ w w w) by reflexivity.
    rewrite Hs. cbn [from_option]. erewrite bind_Ret; [|reflexivity].
    unfold is_root. rewrite Hp. cbn.
    split; [exact Hw|]. split; [reflexivity | discriminate].
Qed.

Lemma safe_register_type_here r i schema name :
  safe_at r (register_type i schema name None).
Proof.
  apply safe_step. intros w Hw. unfold register_type. cbv zeta.
  destruct (sound_lookup_scope w Hw) as [s Hs]. rewrite Hs.
  cbn [mbind option_bind].
  destruct (Scope.parent s) as [p|] eqn:Hp.
  - split; [|reflexivity]. apply sound_register; [exact Hw|].
    cbn [CapnpType.scope]. exact (sound_lookup_parent w _ s p Hw Hs Hp).
  - split; [reflexivity | discriminate].
Qed.

Lemma safe_set_generic_params i t params :
  safe_at (CapnpType.scope t) (set_generic_params i t params).
Proof.
  intros w Hw Hr. unfold set_generic_params.
  split; [|reflexivity]. apply sound_register; [exact Hw|]. exact Hr.
Qed.

Lemma safe_scoped_name_of t n : safe_at (CapnpType.scope t) (scoped_name_of t n).
Proof.
  intros w Hw Hr. unfold scoped_name_of.
  rewrite (bind_Ret _ _ w w w) by reflexivity.
  destruct (lookup_lt_is_Some_2 (heap w) _ Hr) as [s Hs]. rewrite Hs.
  cbn [from_option]. erewrite bind_Ret; [|reflexivity].
  destruct (negb (is_root s)); split; first [exact Hw | reflexivity].
Qed.

(** [quiet_at r m]: [m] leaves a sound writer as it is. *)
Definition quiet_at {A} (r : nat) (m : M A) : Prop :=
  forall w, sound w -> (r < length (heap w))%nat ->
    match m w with
    | Ret _ w' => w' = w
    | Raise e w' => w' = w /\ e <> DanglingRef
    end.

Lemma quiet_safe {A} r (m : M A) : quiet_at r m -> safe_at r m.
Proof.
  intros H w Hw Hr. specialize (H w Hw Hr). destruct (m w) as [a w'|e w'].
  - subst w'. split; [exact Hw | reflexivity].
  - destruct H as [-> He]. split; [exact Hw|]. split; [reflexivity | exact He].
Qed.

Lemma quiet_ret {A} r (a : A) : quiet_at r (mret a).
Proof. intros w _ _. reflexivity. Qed.

Lemma quiet_raise {A} r e : e <> DanglingRef -> quiet_at r (@raise A e).
Proof. intros He w _ _. split; [reflexivity | exact He]. Qed.

Lemma quiet_bind {A B} r (m : M A) (f : A -> M B) :
  quiet_at r m -> (forall a, quiet_at r (f a)) -> quiet_at r (m ≫= f).
Proof.
  intros Hm Hf w Hw Hr. rewrite bind_eq. specialize (Hm w Hw Hr).
  destruct (m w) as [a w1|e w1]; [|exact Hm]. subst w1. apply Hf; assumption.
Qed.

Lemma quiet_from_option {A} r e (o : option A) :
  e <> DanglingRef -> quiet_at r (from_option e o).
Proof. intros He. destruct o; [apply quiet_ret | apply quiet_raise, He]. Qed.

Lemma quiet_scoped_name_of t n :
  quiet_at (CapnpType.scope t) (scoped_name_of t n).
Proof.
  intros w Hw Hr. unfold scoped_name_of.
  rewrite (bind_Ret _ _ w w w) by reflexivity.
  destruct (lookup_lt_is_Some_2 (heap w) _ Hr) as [s Hs]. rewrite Hs.
  cbn [from_option]. erewrite bind_Ret; [|reflexivity].
  destruct (negb (is_root s)); reflexivity.
Qed.

(** A registered type, and what is done with it. *)
Lemma quiet_get_type {B} r i (k : CapnpType.t -> M B) :
  (forall t, quiet_at (CapnpType.scope t) (k t)) ->
  quiet_at r (get_type_by_id i ≫= k).
Proof.
  intros Hk w Hw _. rewrite bind_eq. unfold get_type_by_id.
  destruct (type_map w !! i) as [t|] eqn:E.
  - apply Hk; [exact Hw|]. exact (sound_types w Hw i t E).
  - split; [reflexivity | discriminate].
Qed.

Lemma quiet_weaken {A} r (m : M A) : quiet_at 0 m -> quiet_at r m.
Proof.
  intros H w Hw _. apply H; [exact Hw|].
  pose proof (sound_scope w Hw). lia.
Qed.

Lemma safe_weaken {A} r (m : M A) : safe_at 0 m -> safe_at r m.
Proof.
  intros H w Hw _. apply H; [exact Hw|].
  pose proof (sound_scope w Hw). lia.
Qed.

Lemma quiet_get_type_name : forall t, quiet_at 0 (get_type_name t).
Proof.
  fix IH 1. intros t.
  destruct t as [| | | | | | | | | | | | | |e|i|i brand|i|a];
    try (apply quiet_ret); try (apply quiet_raise; discriminate).
  - cbn [get_type_name which dict_get CAPNP_TYPE_TO_PYTHON String.eqb Ascii.eqb Bool.eqb].
    apply quiet_get_type. intros et. apply quiet_scoped_name_of.
  - cbn [get_type_name which dict_get CAPNP_TYPE_TO_PYTHON String.eqb Ascii.eqb Bool.eqb].
    apply quiet_get_type. intros et.
    apply quiet_bind; [apply quiet_weaken|intros gp; apply quiet_scoped_name_of].
    match goal with
    | |- quiet_at 0 (?f brand []) =>
        cut (forall acc, quiet_at 0 (f brand acc)); [intros H; apply H|]
    end.
    induction brand as [|b bs IHbs]; intros acc; [apply quiet_ret|].
    destruct b as [sid|sid binds].
    + apply quiet_get_type. intros ps. apply quiet_weaken. apply IHbs.
    + apply quiet_bind; [|intros acc'; apply IHbs].
      revert acc. induction binds as [|bd l IHl]; intros acc; [apply quiet_ret|].
      destruct bd as [|t']; [apply quiet_raise; discriminate|].
      apply quiet_bind; [apply IH|]. intros n. apply IHl.
Qed.

Lemma safe_get_type_name r t : safe_at r (get_type_name t).
Proof. apply quiet_safe, quiet_weaken, quiet_get_type_name. Qed.

Lemma safe_try_except_pass r e body :
  safe_at r body -> safe_at r (try_except_pass e body).
Proof.
  intros H w Hw Hr. specialize (H w Hw Hr). unfold try_except_pass.
  destruct (body w) as [a w'|e' w']; [exact H|].
  destruct H as (H1 & H2 & H3).
  destruct (decide (e' = e)); [split; assumption|].
  split; [exact H1|]. split; assumption.
Qed.

Lemma root_valid (h : list Scope.t) (r : nat) :
  (r < length h)%nat -> (root h r < length h)%nat.
Proof.
  intros Hr. unfold root. destruct (h !! r) as [s|]; [|exact Hr].
  destruct (parents h s) as [|p l] eqn:E; [exact Hr|].
  assert (p ∈ parents h s) as Hp by (rewrite E; apply elem_of_cons; left; reflexivity).
  unfold parents in Hp. apply list_elem_of_In, in_rev, list_elem_of_In in Hp.
  apply parent_chain_valid in Hp. apply lookup_lt_is_Some_1. exact Hp.
Qed.

Section SoundGeneration.

Variable module : Module_.t.
Variable module_registry : ModuleRegistryType.
Variable graph : list Node.t.

Lemma safe_get_schema r i : safe_at r (get_schema graph i).
Proof. apply safe_from_option. discriminate. Qed.

Lemma safe_struct_schema r i : safe_at r (struct_schema graph i).
Proof.
  apply safe_bind; [apply safe_get_schema|]. intros s.
  destruct (String.eqb _ _); [apply safe_ret | apply safe_raise; discriminate].
Qed.

Lemma safe_enum_schema r i : safe_at r (enum_schema graph i).
Proof.
  apply safe_bind; [apply safe_get_schema|]. intros s.
  destruct (String.eqb _ _); [apply safe_ret | apply safe_raise; discriminate].
Qed.

Lemma safe_get_nested r name : safe_at r (get_nested module graph name).
Proof.
  unfold get_nested. destruct (find _ _) as [[n i]|];
    [apply safe_get_schema | apply safe_raise; discriminate].
Qed.

Lemma safe_struct_fields r schema : safe_at r (struct_fields schema).
Proof.
  unfold struct_fields.
  destruct (Node.body schema);
    first [apply safe_ret | apply safe_raise; discriminate].
Qed.

Lemma safe_gen_const r schema : safe_at r (gen_const schema).
Proof.
  unfold gen_const.
  apply safe_bind; [apply safe_assert|]. intros _. cbv zeta.
  destruct (Node.body schema); try (apply safe_raise; discriminate).
  apply safe_bind; [apply safe_from_option; discriminate|]. intros py.
  apply safe_add_line.
Qed.

Lemma safe_register_at_root r i schema name :
  safe_at r (w ← get_state;
             t ← register_type i schema name (Some (root (heap w) (scope w)));
             mret (Some t)).
Proof.
  intros w Hw _. rewrite (bind_Ret _ _ w w w) by reflexivity.
  unfold register_type. cbv zeta. cbn.
  split; [|reflexivity]. apply sound_register; [exact Hw|].
  cbn [CapnpType.scope]. apply root_valid, (sound_scope w Hw).
Qed.

Lemma safe_get_state r : safe_at r get_state.
Proof. apply safe_step. intros w Hw. split; [exact Hw | reflexivity]. Qed.

Lemma safe_commonpath r p q : safe_at r (commonpath p q).
Proof.
  unfold commonpath.
  destruct (Bool.eqb _ _); [apply safe_ret | apply safe_raise; discriminate].
Qed.

Lemma safe_relative_to r p q : safe_at r (relative_to p q).
Proof.
  unfold relative_to. destruct (String.eqb _ _); [|apply safe_raise; discriminate].
  destruct (strip_prefix _ _); [apply safe_ret | apply safe_raise; discriminate].
Qed.

Lemma safe_register_import r schema :
  safe_at r (register_import module module_registry schema).
Proof.
  unfold register_import.
  destruct (Str.split ":" (Node.displayName schema)) as [|a [|b [|c l]]];
    try (apply safe_raise; discriminate).
  destruct (String.eqb a _); [apply safe_ret|].
  apply safe_bind; [apply safe_from_option; discriminate|]. intros mp.
  apply safe_bind; [apply safe_get_state|]. intros w1.
  apply safe_bind; [apply safe_commonpath|]. intros cp.
  apply safe_bind; [apply safe_relative_to|]. intros rm.
  apply safe_bind; [apply safe_relative_to|]. intros ri.
  apply safe_bind; [apply safe_add_import|]. intros _.
  apply safe_register_at_root.
Qed.

Lemma safe_gen_enum r schema :
  safe_at r (gen_enum module module_registry schema).
Proof.
  unfold gen_enum.
  apply safe_bind; [apply safe_assert|]. intros _.
  apply safe_bind; [apply safe_register_import|].
  intros [t|]; [apply safe_ret|]. cbv zeta.
  apply safe_bind; [apply safe_add_import|]. intros _.
  apply safe_bind; [apply safe_new_scope|]. intros _.
  apply safe_bind; [apply safe_register_type_here|]. intros _.
  apply safe_bind.
  { destruct (Node.body schema);
      first [apply safe_add_lines | apply safe_raise; discriminate]. }
  intros _. apply safe_bind; [apply safe_return_from_scope|]. intros _.
  apply safe_ret.
Qed.

Section Rec.

Variable self_gen_struct : Node.t -> string -> M CapnpType.t.
Hypothesis safe_self : forall r schema name, safe_at r (self_gen_struct schema name).

Lemma safe_generate_nested_with r schema :
  safe_at r (generate_nested_with module module_registry self_gen_struct schema).
Proof.
  unfold generate_nested_with.
  apply safe_bind; [apply safe_is_type_id_known|]. intros [|]; [apply safe_ret|].
  cbv zeta.
  destruct (String.eqb _ "const"); [apply safe_gen_const|].
  destruct (String.eqb _ "struct").
  { apply safe_bind; [apply safe_self|]. intros _. apply safe_ret. }
  destruct (String.eqb _ "enum").
  { apply safe_bind; [apply safe_gen_enum|]. intros _. apply safe_ret. }
  destruct (String.eqb _ "interface");
    [apply safe_ret | apply safe_raise; discriminate].
Qed.

Lemma safe_ensure_nested r i raw :
  safe_at r raw ->
  safe_at r (ensure_nested module module_registry self_gen_struct i raw).
Proof.
  intros Hraw. unfold ensure_nested.
  apply safe_bind; [apply safe_is_type_id_known|]. intros [|]; [apply safe_ret|].
  apply safe_bind; [exact Hraw|]. intros s. apply safe_generate_nested_with.
Qed.

Lemma safe_gen_slot_with r schema field registered_type kw ch :
  safe_at r (gen_slot_with module module_registry graph self_gen_struct schema
               field registered_type kw ch).
Proof.
  unfold gen_slot_with.
  destruct (Field.body field) as [ty|] eqn:Eb; [|apply safe_raise; discriminate].
  cbv zeta.
  destruct (String.eqb _ CapnpSlotType.LIST).
  { apply safe_bind; [|intros x; apply safe_ret].
    unfold gen_list_slot. rewrite Eb.
    destruct ty; try (apply safe_raise; discriminate).
    cbv zeta. apply safe_bind.
    { destruct (String.eqb _ CapnpElementType.STRUCT).
      { destruct ty; try (apply safe_raise; discriminate).
        apply safe_ensure_nested, safe_struct_schema. }
      destruct (String.eqb _ CapnpElementType.ENUM); [|apply safe_ret].
      destruct ty; try (apply safe_raise; discriminate).
      apply safe_ensure_nested, safe_enum_schema. }
    intros _. apply safe_bind; [apply safe_get_type_name|]. intros tn.
    cbv zeta.
    apply safe_bind; [apply safe_add_line|]. intros _.
    apply safe_bind; [apply safe_add_typing_import|]. intros _.
    apply safe_ret. }
  destruct (bool_decide _).
  { apply safe_bind; [|intros x; apply safe_ret].
    unfold gen_python_type_slot.
    apply safe_bind; [apply safe_from_option; discriminate|]. intros n.
    cbv zeta. apply safe_bind; [apply safe_add_line|]. intros _. apply safe_ret. }
  destruct (String.eqb _ CapnpSlotType.ENUM).
  { apply safe_bind; [|intros x; apply safe_ret].
    unfold gen_enum_slot. rewrite Eb.
    destruct ty; try (apply safe_raise; discriminate).
    apply safe_bind; [apply safe_is_type_id_known|]. intros known.
    apply safe_bind.
    { destruct known; [apply safe_ret|]. apply safe_try_except_pass.
      apply safe_bind; [apply safe_enum_schema|]. intros s.
      apply safe_generate_nested_with. }
    intros _. apply safe_bind; [apply safe_get_type_name|]. intros tn.
    cbv zeta. apply safe_bind; [apply safe_add_line|]. intros _. apply safe_ret. }
  destruct (String.eqb _ CapnpSlotType.STRUCT).
  { unfold gen_struct_slot. rewrite Eb.
    destruct ty; try (apply safe_raise; discriminate).
    apply safe_bind; [apply safe_struct_schema|]. intros et.
    apply safe_bind; [apply safe_is_type_id_known|]. intros known.
    apply safe_bind.
    { destruct known; [apply safe_ret|].
      apply safe_bind; [apply safe_self|]. intros _. apply safe_ret. }
    intros _. apply safe_bind; [apply safe_get_type_name|]. intros tn.
    cbv zeta. apply safe_bind; [apply safe_add_line|]. intros _. apply safe_ret. }
  destruct (String.eqb _ CapnpSlotType.ANY_POINTER);
    [|apply safe_raise; discriminate].
  apply safe_bind; [|intros x; apply safe_ret].
  unfold gen_any_pointer_slot. rewrite Eb.
  destruct ty as [| | | | | | | | | | | | | |e|i|i brand|i|a];
    try (apply safe_raise; discriminate).
  destruct a; try (apply safe_raise; discriminate).
  apply safe_bind; [apply safe_from_option; discriminate|]. intros tn.
  cbv zeta. apply safe_bind; [apply safe_add_line|]. intros _. apply safe_ret.
Qed.

Lemma safe_gen_field r schema registered_type field l :
  safe_at r (gen_field module module_registry graph self_gen_struct schema
               registered_type field l).
Proof.
  unfold gen_field. cbv zeta.
  destruct (String.eqb _ CapnpFieldType.SLOT).
  { apply safe_bind; [apply safe_gen_slot_with|]. intros [kw ch]. apply safe_ret. }
  destruct (String.eqb _ CapnpFieldType.GROUP); [|apply safe_raise; discriminate].
  destruct (Field.body field); [apply safe_raise; discriminate|].
  apply safe_bind.
  { unfold group_type_name.
    destruct (Field.name field); [apply safe_raise; discriminate | apply safe_ret]. }
  intros gn. apply safe_bind; [apply safe_assert|]. intros _.
  apply safe_bind; [apply safe_struct_schema|]. intros raw.
  apply safe_bind; [apply safe_self|]. intros t. cbv zeta.
  apply safe_bind; [apply safe_add_line|]. intros _. apply safe_ret.
Qed.

Lemma safe_gen_fields r schema registered_type fields : forall l,
  safe_at r (gen_fields module module_registry graph self_gen_struct schema
               registered_type fields l).
Proof.
  induction fields as [|f fields IH]; intros l; [apply safe_ret|].
  cbn [gen_fields]. apply safe_bind; [apply safe_gen_field|]. exact IH.
Qed.

Lemma safe_gen_struct_end schema registered_type type_name fields l :
  safe_at (CapnpType.scope registered_type)
    (gen_struct_end schema registered_type type_name fields l).
Proof.
  unfold gen_struct_end.
  apply safe_bind; [apply safe_scoped_name_of|]. intros sn.
  apply safe_bind; [apply safe_add_line|]. intros _.
  apply safe_bind; [apply safe_add_line|]. intros _.
  apply safe_bind; [apply safe_add_line|]. intros _. cbv zeta.
  apply safe_bind.
  { destruct (negb _); [|apply safe_ret].
    apply safe_bind; [apply safe_add_typing_import|]. intros _.
    apply safe_bind; [apply safe_add_typing_import|]. intros _.
    apply safe_add_line. }
  intros _. apply safe_bind.
  { destruct (contructor_kwargs l); [apply safe_ret | apply safe_add_line]. }
  intros _. apply safe_bind.
  { destruct (1 <? _)%nat.
    - apply safe_bind; [apply safe_add_typing_import|]. intros _.
      apply safe_bind; [apply safe_add_typing_import|]. intros _.
      apply safe_add_overloads.
    - destruct (init_choices l) as [|c [|c' cs]]; try apply safe_ret.
      apply safe_bind; [apply safe_add_typing_import|]. intros _.
      apply safe_add_line. }
  intros _. apply safe_bind.
  { change (negb true) with false. cbv iota. apply safe_ret. }
  intros _. apply safe_bind; [apply safe_return_from_scope|]. intros _.
  apply safe_ret.
Qed.

(** The registration of the struct in its new scope, and what follows. *)
Lemma safe_registered {B} r i schema name (k : CapnpType.t -> M B) :
  (forall t, safe_at (CapnpType.scope t) (k t)) ->
  safe_at r (register_type i schema name None ≫= k).
Proof.
  intros Hk w Hw _. rewrite bind_eq.
  pose proof (safe_register_type_here 0 i schema name w Hw) as H.
  unfold register_type in *. cbv zeta in *.
  destruct (sound_lookup_scope w Hw) as [s Hs]. rewrite Hs in *.
  cbn [mbind option_bind] in *.
  destruct (Scope.parent s) as [p|] eqn:Hp.
  - pose proof (sound_lookup_parent w _ s p Hw Hs Hp) as Hlt.
    destruct (H ltac:(pose proof (sound_scope w Hw); lia)) as [H1 _].
    eapply outcome_ok_mono; [|apply (Hk _ _ H1); exact Hlt]. reflexivity.
  - split; [exact Hw|]. split; [reflexivity | discriminate].
Qed.

Lemma safe_generic_params {B} i t params (k : CapnpType.t -> M B) :
  (forall t', CapnpType.scope t' = CapnpType.scope t ->
              safe_at (CapnpType.scope t) (k t')) ->
  safe_at (CapnpType.scope t) (set_generic_params i t params ≫= k).
Proof.
  intros Hk w Hw Hr. rewrite bind_eq. unfold set_generic_params.
  assert (sound (set_type_map
                   (<[i := CapnpType.mk (CapnpType.schema t) (CapnpType.name t)
                            (CapnpType.scope t) params]> (type_map w)) w)) as H1
    by (apply sound_register; assumption).
  eapply outcome_ok_mono;
    [|apply (Hk (CapnpType.mk (CapnpType.schema t) (CapnpType.name t)
                   (CapnpType.scope t) params) eq_refl _ H1); exact Hr].
  reflexivity.
Qed.

Lemma safe_gen_struct_body r schema name :
  safe_at r (gen_struct_body module module_registry graph self_gen_struct
               schema name).
Proof.
  unfold gen_struct_body.
  apply safe_bind; [apply safe_assert|]. intros _.
  apply safe_bind; [apply safe_register_import|].
  intros [t|]; [apply safe_ret|]. cbv zeta.
  apply safe_bind.
  { destruct (Node.isGeneric schema);
      [apply safe_raise; discriminate | apply safe_ret]. }
  intros rp. apply safe_bind; [apply safe_new_scope|]. intros _.
  apply safe_registered. intros t.
  apply safe_generic_params. intros t' Ht'.
  apply safe_bind; [apply safe_struct_fields|]. intros fields.
  apply safe_bind; [apply safe_gen_fields|]. intros l.
  rewrite <- Ht'. apply safe_gen_struct_end.
Qed.

End Rec.

Lemma safe_gen_struct fuel : forall r schema name,
  safe_at r (gen_struct module module_registry graph fuel schema name).
Proof.
  induction fuel as [|fuel IH]; intros r schema name.
  - apply safe_raise. discriminate.
  - apply safe_gen_struct_body. exact IH.
Qed.

Lemma safe_generate_each fuel nodes :
  safe_at 0 (generate_each module module_registry graph fuel nodes).
Proof.
  induction nodes as [|[n i] nodes IH]; [apply safe_ret|].
  cbn [generate_each].
  apply safe_bind; [apply safe_get_nested|]. intros s.
  apply safe_bind; [|intros _; exact IH].
  apply safe_generate_nested_with, safe_gen_struct.
Qed.

Lemma sound_init w : init module = inr w -> sound w.
Proof.
  unfold init. destruct (Module_.file module) as [f|]; [|discriminate].
  destruct (String.eqb f ""); [discriminate|]. intros H. injection H as <-.
  split; cbn [heap scope scopes_by_id type_map].
  - apply wf_heap_root.
  - intros i s Hi. destruct i as [|[|i]]; try discriminate.
    injection Hi as <-. reflexivity.
  - intros i s Hi. destruct i as [|[|i]]; try discriminate.
    injection Hi as <-. split; reflexivity.
  - cbn. lia.
  - intros k r Hr. apply list_elem_of_singleton in Hr. injection Hr as _ ->.
    cbn. lia.
  - intros i t Hi. rewrite lookup_empty in Hi. discriminate.
Qed.

(** X18.  Whatever the schema, the scopes of the writer form a tree below the
    root scope of the module, during and after a pass over the nested
    nodes, whether the pass returns or raises: the parent of a scope and
    the scope to return to are older scopes, only the root has no
    parent, and the current scope, the scopes of the dictionary and the
    scopes of the registered types all exist.  No scope is ever
    dropped, and a reference to no scope is never followed. *)
Theorem generation_sound fuel w :
  init module = inr w ->
  sound w
  /\ match generate_recursive module module_registry graph fuel w with
     | Ret _ w' => sound w' /\ (length (heap w) <= length (heap w'))%nat
     | Raise e w' =>
         sound w' /\ (length (heap w) <= length (heap w'))%nat
         /\ e <> DanglingRef
     end.
Proof.
  intros Hi. pose proof (sound_init w Hi) as Hw. split; [exact Hw|].
  apply (safe_generate_each fuel _ w Hw).
  pose proof (sound_scope w Hw). lia.
Qed.

End SoundGeneration.

Lemma generation_sound_witness :
  sound Ex.dummy_writer
  /\ match generate_recursive Ex.dummy Ex.dummy_registry Ex.dummy_graph 3
           Ex.dummy_writer with
     | Ret _ w' =>
         sound w' /\ (length (heap Ex.dummy_writer) <= length (heap w'))%nat
     | Raise e w' =>
         sound w' /\ (length (heap Ex.dummy_writer) <= length (heap w'))%nat
         /\ e <> DanglingRef
     end.
Proof.
  apply (generation_sound Ex.dummy Ex.dummy_registry Ex.dummy_graph 3
           Ex.dummy_writer).
  reflexivity.
Defined.

(** ** Where the classes met on the way are written *)

Section HeadingFirst.

Variable module : Module_.t.
Variable module_registry : ModuleRegistryType.
Variable graph : list Node.t.

(** X19.  The heading of a struct is written to the parent scope when the
    struct is opened, its body when it is closed.  So what the
    generation of the fields writes to the parent scope in between (the
    classes of the types of the parent scope that a field is the first
    to use) comes after the heading of the struct and before its body,
    which is never empty. *)
Theorem gen_struct_heading_first fuel schema type_name definition_name fields
    dc p ps w :
  Node.body schema = NStruct fields dc ->
  Node.isGeneric schema = false ->
  Str.split ":" (Node.displayName schema)
  = [base_module_name module; definition_name] ->
  idict_get (Node.scopeId schema) (scopes_by_id w) = Some p ->
  heap w !! p = Some ps ->
  let name :=
    if String.eqb type_name "" then get_display_name schema else type_name in
  name <> "" ->
  let heading :=
    indented (indent_spaces (heap w) ps) ("class " +:+ name +:+ ":") in
  match gen_struct module module_registry graph (S fuel) schema type_name w with
  | Ret t w' =>
      exists between body,
        heap w' !! p = Some (Scope.add_lines (heading :: between ++ body) ps)
        /\ heap w' !! length (heap w)
           = Some (Scope.mk name (Node.id schema) (Some p) (Some (scope w)) body)
        /\ body <> []
        /\ scope w' = scope w
  | Raise _ _ => True
  end.
Proof.
  intros Hb Hg Hsplit Hp Hps name Hn heading.
  pose proof (lookup_lt_Some _ _ _ Hps) as Hlt.
  set (w2 := opened name schema ("class " +:+ name +:+ ":") p ps w).
  set (child0 := Scope.mk name (Node.id schema) (Some p) (Some (scope w)) []).
  set (ps1 := Scope.add_lines [heading] ps).
  set (t := CapnpType.mk schema name p []).
  assert (heap w2 !! length (heap w) = Some child0) as Hc
    by (apply (opened_child name schema _ p ps w); exact Hps).
  assert (heap w2 !! p = Some ps1) as Hp2.
  { cbn [w2 heap opened set_scopes_by_id set_scope set_heap].
    rewrite lookup_app_l by (rewrite length_insert; exact Hlt).
    apply list_lookup_insert_eq. exact Hlt. }
  set (w3 := set_type_map (<[Node.id schema := t]> (type_map w2)) w2).
  assert (register_type (Node.id schema) schema name None w2 = Ret t w3) as Hreg.
  { unfold register_type.
    assert (String.eqb name "" = false) as -> by (apply String.eqb_neq; exact Hn).
    change (scope w2) with (length (heap w)). rewrite Hc. reflexivity. }
  assert (set_generic_params (Node.id schema) t [] w3 = Ret t w3) as Hsg.
  { unfold set_generic_params. subst w3. cbn [type_map set_type_map].
    rewrite insert_insert_eq. reflexivity. }
  cbn [gen_struct]. unfold gen_struct_body, Node.which. rewrite Hb.
  cbn [String.eqb Ascii.eqb Bool.eqb CapnpElementType.STRUCT assert_].
  erewrite bind_Ret; [|reflexivity].
  rewrite (bind_Ret _ _ w None w (register_import_local _ _ _ _ _ Hsplit)).
  cbv zeta. fold name. rewrite Hg.
  erewrite bind_Ret; [|reflexivity].
  erewrite bind_Ret; [|apply (new_scope_eq _ _ _ p ps); assumption].
  fold w2.
  rewrite (bind_Ret _ _ _ _ _ Hreg).
  rewrite (bind_Ret _ _ _ _ _ Hsg).
  unfold struct_fields. rewrite Hb.
  erewrite bind_Ret; [|reflexivity].
  rewrite bind_eq.
  pose proof (keeps_gen_fields module module_registry graph
                (gen_struct module module_registry graph fuel)
                (keeps_gen_struct module module_registry graph fuel)
                schema t fields (mkLocals false [] []) w3 w3
                (extends_refl w3)) as K.
  unfold post in K.
  destruct (gen_fields module module_registry graph
              (gen_struct module module_registry graph fuel) schema t fields
              (mkLocals false [] []) w3) as [l w4|e w4]; [|exact I].
  destruct K as [Hsc4 G].
  destruct (grows_heap _ _ G _ _ Hc) as [own Hc4].
  destruct (grows_heap _ _ G _ _ Hp2) as [between Hp4].
  change (scope w3) with (length (heap w)) in Hsc4.
  rewrite <- Hsc4 in Hc4.
  destruct (gen_struct_end_run schema t name fields l w4
              (Scope.add_lines own child0) p (Scope.add_lines between ps1)
              (scope w) (Scope.add_lines between ps1))
    as (ti & _ & Hend);
    [exact Hc4 | reflexivity | reflexivity | exact Hp4
    | rewrite Hsc4; lia | exact Hp4 |].
  change (CapnpType.name t) with name. rewrite Hend.
  set (tail := map (indented (indent_spaces (heap w4) (Scope.add_lines own child0)))
                 (struct_tail schema
                    (if is_root (Scope.add_lines between ps1) then name
                     else scope_repr (heap w4) (CapnpType.scope t)
                          +:+ "." +:+ name) fields l)).
  exists between, (own ++ tail).
  unfold closed, wrote. cbn [heap scope set_scope set_heap set_typing_imports].
  fold tail.
  assert (Scope.add_lines tail (Scope.add_lines own child0)
          = Scope.mk name (Node.id schema) (Some p) (Some (scope w)) (own ++ tail))
    as Hsf by (rewrite add_lines_app; reflexivity).
  rewrite Hsf. rewrite Hsc4.
  pose proof (lookup_lt_Some _ _ _ Hp4) as Hlt4.
  pose proof (lookup_lt_Some _ _ _ Hc4) as Hltc. rewrite Hsc4 in Hltc.
  split; [|split; [|split]].
  - rewrite list_lookup_insert_eq by (rewrite length_insert; exact Hlt4).
    subst ps1. rewrite !add_lines_app. reflexivity.
  - rewrite list_lookup_insert_ne by lia.
    apply list_lookup_insert_eq. exact Hltc.
  - subst tail. unfold struct_tail. cbn [app map].
    destruct own; discriminate.
  - reflexivity.
Qed.

End HeadingFirst.

Lemma gen_struct_heading_first_witness :
  match gen_struct Ex.dummy Ex.dummy_registry Ex.dummy_graph 3 Ex.test_map ""
          Ex.dummy_writer with
  | Ret t w' =>
      exists between body,
        heap w' !! 0%nat
        = Some (Scope.add_lines ("class TestMap:" :: between ++ body)
                  (Scope.mk "" 1 None None []))
        /\ heap w' !! 1%nat
           = Some (Scope.mk "TestMap" 11 (Some 0%nat) (Some 0%nat) body)
        /\ body <> []
        /\ scope w' = 0%nat
  | Raise _ _ => True
  end
  /\ (take 3 ∘ Scope.lines)
     <$> heap (Ex.final (gen_struct Ex.dummy Ex.dummy_registry Ex.dummy_graph 3
                           Ex.test_map "" Ex.dummy_writer)) !! 0%nat
     = Some [ "class TestMap:"; "class TestEnum(str, Enum):";
              "    foo: str = " +:+ quote +:+ "foo" +:+ quote ].
Proof.
  split.
  - apply (gen_struct_heading_first Ex.dummy Ex.dummy_registry Ex.dummy_graph 2
             Ex.test_map "" "TestMap"
             [ Field.mk "a" 0 (FSlot TText);
               Field.mk "e" 1 (FSlot (TEnum 10));
               Field.mk "i" 65535 (FSlot (TStruct 12 []));
               Field.mk "l" 65535 (FSlot (TList (TStruct 12 []))) ] 2
             0%nat (Scope.mk "" 1 None None []) Ex.dummy_writer);
      first [reflexivity | discriminate].
  - vm_compute. reflexivity.
Defined.

(** ** The names of registered types *)

(** The Python type of a primitive type. *)
Definition primitive_name (ty : Ty) : option string :=
  dict_get (which ty) CAPNP_TYPE_TO_PYTHON.

Lemma get_type_name_primitive ty n w :
  primitive_name ty = Some n -> get_type_name ty w = Ret n w.
Proof.
  unfold primitive_name. intros H.
  destruct ty; vm_compute in H; try discriminate H;
    injection H as <-; reflexivity.
Qed.

Lemma get_type_name_binds tys names acc w :
  mapM primitive_name tys = Some names ->
  (fix binds (l : list Binding) (acc : list string) : M (list string) :=
     match l with
     | [] => mret acc
     | BType t :: l' => n ← get_type_name t; binds l' (acc ++ [n])
     | BUnbound :: _ => raise CapnpError
     end) (map BType tys) acc w
  = Ret (acc ++ names) w.
Proof.
  intros H. apply mapM_Some in H. revert acc.
  induction H as [|ty n tys names E _ IH]; intros acc.
  - rewrite app_nil_r. reflexivity.
  - cbn [map].
    rewrite (bind_Ret _ _ _ _ _ (get_type_name_primitive ty n w E)).
    rewrite (IH (acc ++ [n])).
    rewrite <- app_assoc. reflexivity.
Qed.

(** X20.  How a registered struct or enum is referred to: by its registered
    name when its scope is the root, otherwise with the names of the
    scopes from the root down, joined by dots, before it; a struct whose
    parameters are bound to primitive types gets them in brackets after
    its name.  The writer is not changed.  A type that is not registered
    raises [KeyError]. *)
Theorem get_type_name_registered type_id t rs w :
  type_map w !! type_id = Some t ->
  heap w !! CapnpType.scope t = Some rs ->
  let scoped n :=
    if is_root rs then n
    else scope_repr (heap w) (CapnpType.scope t) +:+ "." +:+ n in
  get_type_name (TEnum type_id) w = Ret (scoped (CapnpType.name t)) w
  /\ get_type_name (TStruct type_id []) w = Ret (scoped (CapnpType.name t)) w
  /\ (forall scope_id tys names,
        mapM primitive_name tys = Some names ->
        names <> [] ->
        get_type_name (TStruct type_id [BBind scope_id (map BType tys)]) w
        = Ret (scoped (CapnpType.name t +:+ "[" +:+ Str.join ", " names +:+ "]"))
            w)
  /\ (forall other,
        type_map w !! other = None ->
        get_type_name (TEnum other) w = Raise KeyError w
        /\ get_type_name (TStruct other []) w = Raise KeyError w).
Proof.
  intros Ht Hrs scoped.
  assert (get_type_by_id type_id w = Ret t w) as Hget
    by (unfold get_type_by_id; rewrite Ht; reflexivity).
  assert (forall n, scoped_name_of t n w = Ret (scoped n) w) as Hsc
    by (intros n; apply scoped_name_of_eq; exact Hrs).
  split; [|split; [|split]].
  - cbn [get_type_name which dict_get CAPNP_TYPE_TO_PYTHON String.eqb Ascii.eqb Bool.eqb].
    rewrite (bind_Ret _ _ _ _ _ Hget). apply Hsc.
  - cbn [get_type_name which dict_get CAPNP_TYPE_TO_PYTHON String.eqb Ascii.eqb Bool.eqb].
    rewrite (bind_Ret _ _ _ _ _ Hget).
    erewrite bind_Ret; [|reflexivity]. apply Hsc.
  - intros scope_id tys names Hn Hne.
    cbn [get_type_name which dict_get CAPNP_TYPE_TO_PYTHON String.eqb Ascii.eqb Bool.eqb].
    rewrite (bind_Ret _ _ _ _ _ Hget).
    erewrite bind_Ret.
    2:{ erewrite bind_Ret; [|apply (get_type_name_binds tys names [] w Hn)].
        reflexivity. }
    cbn [app]. destruct names as [|n names]; [contradiction|]. apply Hsc.
  - intros other Ho.
    cbn [get_type_name which dict_get CAPNP_TYPE_TO_PYTHON String.eqb Ascii.eqb Bool.eqb].
    unfold get_type_by_id. rewrite !bind_eq, Ho. split; reflexivity.
Qed.

Lemma get_type_name_registered_witness :
  let w := set_type_map (<[12 := CapnpType.mk Ex.inner "Inner" 1%nat []]> ∅)
             (opened "TestMap" Ex.test_map "class TestMap:" 0%nat
                (Scope.mk "" 1 None None []) Ex.dummy_writer) in
  get_type_name (TStruct 12 []) w = Ret "TestMap.Inner" w
  /\ get_type_name (TStruct 12 [BBind 12 [BType TText; BType TInt8]]) w
     = Ret "TestMap.Inner[str, int]" w.
Proof.
  intros w.
  destruct (get_type_name_registered 12
              (CapnpType.mk Ex.inner "Inner" 1%nat [])
              (Scope.mk "TestMap" 11 (Some 0%nat) (Some 0%nat) []) w)
    as (_ & H2 & H3 & _).
  - reflexivity.
  - reflexivity.
  - split; [exact H2|].
    apply (H3 12 [TText; TInt8] ["str"; "int"]); [reflexivity | discriminate].
Defined.

(** ** What the scope operations refuse *)

(** X22.  Leaving the root scope is refused with [AssertionError], nothing
    changed.  Opening a scope below a node that has no scope raises
    [NoParentError], nothing changed.  Opening a scope with an empty
    name is refused with [AssertionError] by the check of the new scope
    object, after the heading has been written to the parent scope: the
    heading stays, no scope is opened and the current scope is kept. *)
Theorem scope_operations_refuse name node heading w :
  (forall s, heap w !! scope w = Some s -> Scope.parent s = None ->
             return_from_scope w = Raise AssertionError w)
  /\ (idict_get (Node.scopeId node) (scopes_by_id w) = None ->
      new_scope name node heading w = Raise NoParentError w)
  /\ (forall (p : nat) ps,
        idict_get (Node.scopeId node) (scopes_by_id w) = Some p ->
        heap w !! p = Some ps ->
        new_scope "" node heading w
        = Raise AssertionError
            (set_heap
               (<[p := Scope.add_lines
                         [indented (indent_spaces (heap w) ps) heading] ps]>
                  (heap w)) w)).
Proof.
  split; [|split].
  - intros s Hs Hp. unfold return_from_scope.
    rewrite (bind_Ret _ _ w w w) by reflexivity.
    rewrite Hs. cbn [from_option]. erewrite bind_Ret; [|reflexivity].
    unfold is_root. rewrite Hp. reflexivity.
  - intros Hp. unfold new_scope.
    rewrite (bind_Ret _ _ w w w) by reflexivity.
    rewrite Hp. reflexivity.
  - intros p ps Hp Hps. unfold new_scope.
    rewrite (bind_Ret _ _ w w w) by reflexivity.
    rewrite Hp. cbn [from_option]. erewrite bind_Ret; [|reflexivity].
    erewrite bind_Ret; [|unfold add_line_at; rewrite Hps; reflexivity].
    reflexivity.
Qed.

Lemma scope_operations_refuse_witness :
  return_from_scope Ex.dummy_writer = Raise AssertionError Ex.dummy_writer
  /\ new_scope "" Ex.test_map "class :" Ex.dummy_writer
     = Raise AssertionError
         (set_heap [Scope.mk "" 1 None None ["class :"]] Ex.dummy_writer).
Proof.
  destruct (scope_operations_refuse "" Ex.test_map "class :" Ex.dummy_writer)
    as (H1 & _ & H3).
  split.
  - apply (H1 (Scope.mk "" 1 None None [])); reflexivity.
  - apply (H3 0%nat (Scope.mk "" 1 None None [])); reflexivity.
Defined.

(** ** The relative import of a module two directories away *)







Section ImportDepth.

Variable module : Module_.t.
Variable module_registry : ModuleRegistryType.


End ImportDepth.



(** * Type variables are never registered *)

(** The writer that a computation leaves, whether it returns or raises. *)
Definition state_of {A} (o : outcome A) : Writer :=
  match o with
  | Ret _ w => w
  | Raise _ w => w
  end.

(** A computation that leaves the set of type variables as it is. *)
Definition keeps_type_vars {A} (m : M A) : Prop :=
  forall w, type_vars (state_of (m w)) = type_vars w.

Lemma ktv_ret {A} (a : A) : keeps_type_vars (mret a).
Proof. intros w. reflexivity. Qed.

Lemma ktv_raise {A} e : keeps_type_vars (@raise A e).
Proof. intros w. reflexivity. Qed.

Lemma ktv_bind {A B} (m : M A) (f : A -> M B) :
  keeps_type_vars m -> (forall a, keeps_type_vars (f a)) ->
  keeps_type_vars (m ≫= f).
Proof.
  intros Hm Hf w. rewrite bind_eq. specialize (Hm w).
  destruct (m w) as [a w1|e w1]; [|exact Hm].
  cbn [state_of] in Hm. rewrite <- Hm. apply Hf.
Qed.

Lemma ktv_from_option {A} e (o : option A) : keeps_type_vars (from_option e o).
Proof. destruct o; [apply ktv_ret | apply ktv_raise]. Qed.

Lemma ktv_assert b : keeps_type_vars (assert_ b).
Proof. destruct b; [apply ktv_ret | apply ktv_raise]. Qed.

Lemma ktv_get_state : keeps_type_vars get_state.
Proof. intros w. reflexivity. Qed.

Lemma ktv_is_type_id_known i : keeps_type_vars (is_type_id_known i).
Proof. intros w. reflexivity. Qed.

Lemma ktv_get_type_by_id i : keeps_type_vars (get_type_by_id i).
Proof. intros w. unfold get_type_by_id. destruct (type_map w !! i); reflexivity. Qed.

Lemma ktv_add_typing_import n : keeps_type_vars (_add_typing_import n).
Proof. intros w. reflexivity. Qed.

Lemma ktv_add_import l : keeps_type_vars (_add_import l).
Proof. intros w. reflexivity. Qed.

Lemma ktv_add_line_at r line : keeps_type_vars (add_line_at r line).
Proof. intros w. unfold add_line_at. destruct (heap w !! r); reflexivity. Qed.

Lemma ktv_add_line line : keeps_type_vars (add_line line).
Proof. intros w. apply ktv_add_line_at. Qed.

Lemma ktv_add_lines ls : keeps_type_vars (add_lines ls).
Proof.
  induction ls as [|l ls IH]; [apply ktv_ret|].
  cbn [add_lines]. apply ktv_bind; [apply ktv_add_line|]. intros _. exact IH.
Qed.

Lemma ktv_add_overloads cs : keeps_type_vars (add_overloads cs).
Proof.
  induction cs as [|c cs IH]; [apply ktv_ret|].
  cbn [add_overloads].
  apply ktv_bind; [apply ktv_add_line|]. intros _.
  apply ktv_bind; [apply ktv_add_line|]. intros _. exact IH.
Qed.

Lemma ktv_modify f :
  (forall w, type_vars (f w) = type_vars w) -> keeps_type_vars (modify f).
Proof. intros H w. apply H. Qed.

Lemma ktv_register_type i schema name sc :
  keeps_type_vars (register_type i schema name sc).
Proof.
  intros w. unfold register_type. cbv zeta.
  destruct sc as [r|]; [reflexivity|].
  destruct (heap w !! scope w ≫= Scope.parent); reflexivity.
Qed.

Lemma ktv_set_generic_params i t ps : keeps_type_vars (set_generic_params i t ps).
Proof. intros w. reflexivity. Qed.

Lemma ktv_new_scope name node heading :
  keeps_type_vars (new_scope name node heading).
Proof.
  unfold new_scope.
  apply ktv_bind; [apply ktv_get_state|]. intros w1.
  apply ktv_bind; [apply ktv_from_option|]. intros p.
  apply ktv_bind; [apply ktv_add_line_at|]. intros _.
  apply ktv_bind.
  { intros w. unfold new_Scope. cbv zeta. destruct (Bool.eqb _ _); reflexivity. }
  intros c. apply ktv_bind; [apply ktv_modify; reflexivity|]. intros _.
  apply ktv_modify. reflexivity.
Qed.

Lemma ktv_return_from_scope : keeps_type_vars return_from_scope.
Proof.
  unfold return_from_scope.
  apply ktv_bind; [apply ktv_get_state|]. intros w1.
  apply ktv_bind; [apply ktv_from_option|]. intros s.
  apply ktv_bind; [apply ktv_assert|]. intros _.
  apply ktv_bind; [apply ktv_from_option|]. intros p.
  apply ktv_bind; [apply ktv_from_option|]. intros ps.
  apply ktv_bind; [apply ktv_modify; reflexivity|]. intros _.
  apply ktv_bind; [apply ktv_from_option|]. intros r.
  apply ktv_modify. reflexivity.
Qed.

Lemma ktv_scoped_name_of t n : keeps_type_vars (scoped_name_of t n).
Proof.
  unfold scoped_name_of.
  apply ktv_bind; [apply ktv_get_state|]. intros w1.
  apply ktv_bind; [apply ktv_from_option|]. intros s.
  destruct (negb _); apply ktv_ret.
Qed.

Lemma ktv_get_type_name : forall t, keeps_type_vars (get_type_name t).
Proof.
  fix IH 1. intros t.
  destruct t as [| | | | | | | | | | | | | |e|i|i brand|i|a];
    try (apply ktv_ret); try (apply ktv_raise).
  - cbn [get_type_name which dict_get CAPNP_TYPE_TO_PYTHON String.eqb Ascii.eqb Bool.eqb].
    apply ktv_bind; [apply ktv_get_type_by_id|]. intros et.
    apply ktv_scoped_name_of.
  - cbn [get_type_name which dict_get CAPNP_TYPE_TO_PYTHON String.eqb Ascii.eqb Bool.eqb].
    apply ktv_bind; [apply ktv_get_type_by_id|]. intros et.
    apply ktv_bind; [|intros gp; apply ktv_scoped_name_of].
    match goal with
    | |- keeps_type_vars (?f brand []) =>
        cut (forall acc, keeps_type_vars (f brand acc)); [intros H; apply H|]
    end.
    induction brand as [|b bs IHbs]; intros acc; [apply ktv_ret|].
    destruct b as [sid|sid binds].
    + apply ktv_bind; [apply ktv_get_type_by_id|]. intros ps. apply IHbs.
    + apply ktv_bind; [|intros acc'; apply IHbs].
      revert acc. induction binds as [|bd l IHl]; intros acc; [apply ktv_ret|].
      destruct bd as [|t']; [apply ktv_raise|].
      apply ktv_bind; [apply IH|]. intros n. apply IHl.
Qed.

Lemma ktv_try_except_pass e body :
  keeps_type_vars body -> keeps_type_vars (try_except_pass e body).
Proof.
  intros H w. specialize (H w). unfold try_except_pass.
  destruct (body w) as [a w'|e' w']; [exact H|].
  destruct (decide (e' = e)); exact H.
Qed.

Section NoTypeVar.

Variable module : Module_.t.
Variable module_registry : ModuleRegistryType.
Variable graph : list Node.t.

Lemma ktv_get_schema i : keeps_type_vars (get_schema graph i).
Proof. apply ktv_from_option. Qed.

Lemma ktv_struct_schema i : keeps_type_vars (struct_schema graph i).
Proof.
  apply ktv_bind; [apply ktv_get_schema|]. intros s.
  destruct (String.eqb _ _); [apply ktv_ret | apply ktv_raise].
Qed.

Lemma ktv_enum_schema i : keeps_type_vars (enum_schema graph i).
Proof.
  apply ktv_bind; [apply ktv_get_schema|]. intros s.
  destruct (String.eqb _ _); [apply ktv_ret | apply ktv_raise].
Qed.

Lemma ktv_get_nested name : keeps_type_vars (get_nested module graph name).
Proof.
  unfold get_nested. destruct (find _ _) as [[n i]|];
    [apply ktv_get_schema | apply ktv_raise].
Qed.

Lemma ktv_struct_fields schema : keeps_type_vars (struct_fields schema).
Proof.
  unfold struct_fields.
  destruct (Node.body schema); first [apply ktv_ret | apply ktv_raise].
Qed.

Lemma ktv_gen_const schema : keeps_type_vars (gen_const schema).
Proof.
  unfold gen_const.
  apply ktv_bind; [apply ktv_assert|]. intros _. cbv zeta.
  destruct (Node.body schema); try apply ktv_raise.
  apply ktv_bind; [apply ktv_from_option|]. intros py.
  apply ktv_add_line.
Qed.

Lemma ktv_commonpath p q : keeps_type_vars (commonpath p q).
Proof.
  unfold commonpath. destruct (Bool.eqb _ _); [apply ktv_ret | apply ktv_raise].
Qed.

Lemma ktv_relative_to p q : keeps_type_vars (relative_to p q).
Proof.
  unfold relative_to. destruct (String.eqb _ _); [|apply ktv_raise].
  destruct (strip_prefix _ _); [apply ktv_ret | apply ktv_raise].
Qed.

Lemma ktv_register_import schema :
  keeps_type_vars (register_import module module_registry schema).
Proof.
  unfold register_import.
  destruct (Str.split ":" (Node.displayName schema)) as [|a [|b [|c l]]];
    try apply ktv_raise.
  destruct (String.eqb a _); [apply ktv_ret|].
  apply ktv_bind; [apply ktv_from_option|]. intros mp.
  apply ktv_bind; [apply ktv_get_state|]. intros w1.
  apply ktv_bind; [apply ktv_commonpath|]. intros cp.
  apply ktv_bind; [apply ktv_relative_to|]. intros rm.
  apply ktv_bind; [apply ktv_relative_to|]. intros ri.
  apply ktv_bind; [apply ktv_add_import|]. intros _.
  apply ktv_bind; [apply ktv_get_state|]. intros w2.
  apply ktv_bind; [apply ktv_register_type|]. intros t. apply ktv_ret.
Qed.

Lemma ktv_gen_enum schema :
  keeps_type_vars (gen_enum module module_registry schema).
Proof.
  unfold gen_enum.
  apply ktv_bind; [apply ktv_assert|]. intros _.
  apply ktv_bind; [apply ktv_register_import|].
  intros [t|]; [apply ktv_ret|]. cbv zeta.
  apply ktv_bind; [apply ktv_add_import|]. intros _.
  apply ktv_bind; [apply ktv_new_scope|]. intros _.
  apply ktv_bind; [apply ktv_register_type|]. intros _.
  apply ktv_bind.
  { destruct (Node.body schema); first [apply ktv_add_lines | apply ktv_raise]. }
  intros _. apply ktv_bind; [apply ktv_return_from_scope|]. intros _.
  apply ktv_ret.
Qed.

Section Rec.

Variable self_gen_struct : Node.t -> string -> M CapnpType.t.
Hypothesis ktv_self : forall schema name,
  keeps_type_vars (self_gen_struct schema name).

Lemma ktv_generate_nested_with schema :
  keeps_type_vars
    (generate_nested_with module module_registry self_gen_struct schema).
Proof.
  unfold generate_nested_with.
  apply ktv_bind; [apply ktv_is_type_id_known|]. intros [|]; [apply ktv_ret|].
  cbv zeta.
  destruct (String.eqb _ "const"); [apply ktv_gen_const|].
  destruct (String.eqb _ "struct").
  { apply ktv_bind; [apply ktv_self|]. intros _. apply ktv_ret. }
  destruct (String.eqb _ "enum").
  { apply ktv_bind; [apply ktv_gen_enum|]. intros _. apply ktv_ret. }
  destruct (String.eqb _ "interface"); [apply ktv_ret | apply ktv_raise].
Qed.

Lemma ktv_ensure_nested i raw :
  keeps_type_vars raw ->
  keeps_type_vars (ensure_nested module module_registry self_gen_struct i raw).
Proof.
  intros Hraw. unfold ensure_nested.
  apply ktv_bind; [apply ktv_is_type_id_known|]. intros [|]; [apply ktv_ret|].
  apply ktv_bind; [exact Hraw|]. intros s. apply ktv_generate_nested_with.
Qed.

Lemma ktv_gen_slot_with schema field registered_type kw ch :
  keeps_type_vars
    (gen_slot_with module module_registry graph self_gen_struct schema
       field registered_type kw ch).
Proof.
  unfold gen_slot_with.
  destruct (Field.body field) as [ty|] eqn:Eb; [|apply ktv_raise].
  cbv zeta.
  destruct (String.eqb _ CapnpSlotType.LIST).
  { apply ktv_bind; [|intros x; apply ktv_ret].
    unfold gen_list_slot. rewrite Eb.
    destruct ty; try apply ktv_raise.
    cbv zeta. apply ktv_bind.
    { destruct (String.eqb _ CapnpElementType.STRUCT).
      { destruct ty; try apply ktv_raise.
        apply ktv_ensure_nested, ktv_struct_schema. }
      destruct (String.eqb _ CapnpElementType.ENUM); [|apply ktv_ret].
      destruct ty; try apply ktv_raise.
      apply ktv_ensure_nested, ktv_enum_schema. }
    intros _. apply ktv_bind; [apply ktv_get_type_name|]. intros tn.
    cbv zeta.
    apply ktv_bind; [apply ktv_add_line|]. intros _.
    apply ktv_bind; [apply ktv_add_typing_import|]. intros _.
    apply ktv_ret. }
  destruct (bool_decide _).
  { apply ktv_bind; [|intros x; apply ktv_ret].
    unfold gen_python_type_slot.
    apply ktv_bind; [apply ktv_from_option|]. intros n.
    cbv zeta. apply ktv_bind; [apply ktv_add_line|]. intros _. apply ktv_ret. }
  destruct (String.eqb _ CapnpSlotType.ENUM).
  { apply ktv_bind; [|intros x; apply ktv_ret].
    unfold gen_enum_slot. rewrite Eb.
    destruct ty; try apply ktv_raise.
    apply ktv_bind; [apply ktv_is_type_id_known|]. intros known.
    apply ktv_bind.
    { destruct known; [apply ktv_ret|]. apply ktv_try_except_pass.
      apply ktv_bind; [apply ktv_enum_schema|]. intros s.
      apply ktv_generate_nested_with. }
    intros _. apply ktv_bind; [apply ktv_get_type_name|]. intros tn.
    cbv zeta. apply ktv_bind; [apply ktv_add_line|]. intros _. apply ktv_ret. }
  destruct (String.eqb _ CapnpSlotType.STRUCT).
  { unfold gen_struct_slot. rewrite Eb.
    destruct ty; try apply ktv_raise.
    apply ktv_bind; [apply ktv_struct_schema|]. intros et.
    apply ktv_bind; [apply ktv_is_type_id_known|]. intros known.
    apply ktv_bind.
    { destruct known; [apply ktv_ret|].
      apply ktv_bind; [apply ktv_self|]. intros _. apply ktv_ret. }
    intros _. apply ktv_bind; [apply ktv_get_type_name|]. intros tn.
    cbv zeta. apply ktv_bind; [apply ktv_add_line|]. intros _. apply ktv_ret. }
  destruct (String.eqb _ CapnpSlotType.ANY_POINTER); [|apply ktv_raise].
  apply ktv_bind; [|intros x; apply ktv_ret].
  unfold gen_any_pointer_slot. rewrite Eb.
  destruct ty as [| | | | | | | | | | | | | |e|i|i brand|i|a];
    try apply ktv_raise.
  destruct a; try apply ktv_raise.
  apply ktv_bind; [apply ktv_from_option|]. intros tn.
  cbv zeta. apply ktv_bind; [apply ktv_add_line|]. intros _. apply ktv_ret.
Qed.

Lemma ktv_gen_field schema registered_type field l :
  keeps_type_vars
    (gen_field module module_registry graph self_gen_struct schema
       registered_type field l).
Proof.
  unfold gen_field. cbv zeta.
  destruct (String.eqb _ CapnpFieldType.SLOT).
  { apply ktv_bind; [apply ktv_gen_slot_with|]. intros [kw ch]. apply ktv_ret. }
  destruct (String.eqb _ CapnpFieldType.GROUP); [|apply ktv_raise].
  destruct (Field.body field); [apply ktv_raise|].
  apply ktv_bind.
  { unfold group_type_name.
    destruct (Field.name field); [apply ktv_raise | apply ktv_ret]. }
  intros gn. apply ktv_bind; [apply ktv_assert|]. intros _.
  apply ktv_bind; [apply ktv_struct_schema|]. intros raw.
  apply ktv_bind; [apply ktv_self|]. intros t. cbv zeta.
  apply ktv_bind; [apply ktv_add_line|]. intros _. apply ktv_ret.
Qed.

Lemma ktv_gen_fields schema registered_type fields : forall l,
  keeps_type_vars
    (gen_fields module module_registry graph self_gen_struct schema
       registered_type fields l).
Proof.
  induction fields as [|f fields IH]; intros l; [apply ktv_ret|].
  cbn [gen_fields]. apply ktv_bind; [apply ktv_gen_field|]. exact IH.
Qed.

Lemma ktv_gen_struct_end schema registered_type type_name fields l :
  keeps_type_vars (gen_struct_end schema registered_type type_name fields l).
Proof.
  unfold gen_struct_end.
  apply ktv_bind; [apply ktv_scoped_name_of|]. intros sn.
  apply ktv_bind; [apply ktv_add_line|]. intros _.
  apply ktv_bind; [apply ktv_add_line|]. intros _.
  apply ktv_bind; [apply ktv_add_line|]. intros _. cbv zeta.
  apply ktv_bind.
  { destruct (negb _); [|apply ktv_ret].
    apply ktv_bind; [apply ktv_add_typing_import|]. intros _.
    apply ktv_bind; [apply ktv_add_typing_import|]. intros _.
    apply ktv_add_line. }
  intros _. apply ktv_bind.
  { destruct (contructor_kwargs l); [apply ktv_ret | apply ktv_add_line]. }
  intros _. apply ktv_bind.
  { destruct (1 <? _)%nat.
    - apply ktv_bind; [apply ktv_add_typing_import|]. intros _.
      apply ktv_bind; [apply ktv_add_typing_import|]. intros _.
      apply ktv_add_overloads.
    - destruct (init_choices l) as [|c [|c' cs]]; try apply ktv_ret.
      apply ktv_bind; [apply ktv_add_typing_import|]. intros _.
      apply ktv_add_line. }
  intros _. apply ktv_bind.
  { change (negb true) with false. cbv iota. apply ktv_ret. }
  intros _. apply ktv_bind; [apply ktv_return_from_scope|]. intros _.
  apply ktv_ret.
Qed.

(** The call of [gen_generic] is the only way to [register_type_var],
    and it fails before [gen_generic] runs. *)
Lemma ktv_gen_struct_body schema name :
  keeps_type_vars
    (gen_struct_body module module_registry graph self_gen_struct schema name).
Proof.
  unfold gen_struct_body.
  apply ktv_bind; [apply ktv_assert|]. intros _.
  apply ktv_bind; [apply ktv_register_import|].
  intros [t|]; [apply ktv_ret|]. cbv zeta.
  apply ktv_bind.
  { destruct (Node.isGeneric schema); [apply ktv_raise | apply ktv_ret]. }
  intros rp. apply ktv_bind; [apply ktv_new_scope|]. intros _.
  apply ktv_bind; [apply ktv_register_type|]. intros t.
  apply ktv_bind; [apply ktv_set_generic_params|]. intros t'.
  apply ktv_bind; [apply ktv_struct_fields|]. intros fields.
  apply ktv_bind; [apply ktv_gen_fields|]. intros l.
  apply ktv_gen_struct_end.
Qed.

End Rec.

Lemma ktv_gen_struct fuel : forall schema name,
  keeps_type_vars (gen_struct module module_registry graph fuel schema name).
Proof.
  induction fuel as [|fuel IH]; intros schema name.
  - apply ktv_raise.
  - apply ktv_gen_struct_body. exact IH.
Qed.

Lemma ktv_generate_each fuel nodes :
  keeps_type_vars (generate_each module module_registry graph fuel nodes).
Proof.
  induction nodes as [|[n i] nodes IH]; [apply ktv_ret|].
  cbn [generate_each].
  apply ktv_bind; [apply ktv_get_nested|]. intros s.
  apply ktv_bind; [|intros _; exact IH].
  apply ktv_generate_nested_with, ktv_gen_struct.
Qed.

(** C2.  No generic parameter ever gets a type variable.  The only caller
    of [register_type_var] is [gen_generic], and [gen_struct] calls
    [gen_generic] without its argument: a generic struct of the module
    raises [TypeError] there, before its scope is opened, leaving the
    writer as it was.  So every pass, whether it returns or raises, leaves
    the set of type variables as it found it; from the writer that
    [Writer.__init__] builds the set is empty after [generate_recursive],
    and the [.pyi] lines hold no type-variable line between the imports
    and the lines of the root scope. *)
Theorem type_vars_never_registered fuel w0 :
  init module = inr w0 ->
  (forall w,
     type_vars (state_of (generate_recursive module module_registry graph fuel w))
     = type_vars w
     /\ (forall schema,
           type_vars
             (state_of (generate_nested module module_registry graph fuel schema w))
           = type_vars w)
     /\ (forall schema type_name,
           type_vars
             (state_of (gen_struct module module_registry graph fuel schema
                          type_name w))
           = type_vars w)
     /\ (forall schema type_name definition_name,
           Node.which schema = "struct" ->
           Str.split ":" (Node.displayName schema)
           = [base_module_name module; definition_name] ->
           Node.isGeneric schema = true ->
           gen_struct module module_registry graph (S fuel) schema type_name w
           = Raise TypeError w))
  /\ let w' := state_of (generate_recursive module module_registry graph fuel w0) in
     type_vars w' = ∅
     /\ forall set_iter,
          dumps_pyi_lines set_iter w'
          = [docstring w'] ++ imports set_iter w' ++ [""]
            ++ match heap w' !! scope w' with
               | Some s => Scope.lines s
               | None => []
               end.
Proof.
  intros Hinit.
  assert (type_vars w0 = ∅) as H0.
  { unfold init in Hinit. destruct (Module_.file module); [|discriminate].
    destruct (String.eqb _ _); [discriminate|].
    injection Hinit as <-. reflexivity. }
  assert (type_vars
            (state_of (generate_recursive module module_registry graph fuel w0))
          = ∅) as H1.
  { rewrite <- H0. apply ktv_generate_each. }
  split.
  - intros w. split; [apply ktv_generate_each|].
    split; [intros schema; apply ktv_generate_nested_with, ktv_gen_struct|].
    split; [intros schema type_name; apply ktv_gen_struct|].
    intros schema type_name definition_name Hw Hs Hg.
    cbn [gen_struct]. unfold gen_struct_body.
    rewrite Hw.
    cbn [String.eqb Ascii.eqb Bool.eqb CapnpElementType.STRUCT assert_].
    erewrite bind_Ret; [|reflexivity].
    erewrite bind_Ret;
      [|unfold register_import; rewrite Hs, String.eqb_refl; reflexivity].
    cbv zeta. rewrite Hg. reflexivity.
  - cbv zeta. split; [exact H1|].
    intros set_iter. unfold dumps_pyi_lines.
    rewrite bool_decide_eq_true_2 by exact H1. reflexivity.
Qed.

End NoTypeVar.

Lemma type_vars_never_registered_witness :
  init Ex.generics = inr Ex.generics_writer
  /\ generate_recursive Ex.generics Ex.generics_registry Ex.generics_graph 3
       Ex.generics_writer
     = Raise TypeError Ex.generics_writer
  /\ gen_struct Ex.generics Ex.generics_registry Ex.generics_graph 3 Ex.tag ""
       Ex.generics_writer
     = Raise TypeError Ex.generics_writer
  /\ type_vars
       (state_of (generate_recursive Ex.generics Ex.generics_registry
                    Ex.generics_graph 3 Ex.generics_writer))
     = ∅.
Proof.
  split; [reflexivity|]. split; [reflexivity|].
  destruct (type_vars_never_registered Ex.generics Ex.generics_registry
              Ex.generics_graph 2 Ex.generics_writer eq_refl) as [Hall _].
  destruct (type_vars_never_registered Ex.generics Ex.generics_registry
              Ex.generics_graph 3 Ex.generics_writer eq_refl) as [_ [H _]].
  destruct (Hall Ex.generics_writer) as (_ & _ & _ & Hg).
  split; [exact (Hg Ex.tag "" "Tag" eq_refl eq_refl eq_refl) | exact H].
Defined.

(** ** Fields of a registered type *)

(** A computation that only reads the writer: it leaves it as it was,
    whether it returns or raises. *)
Definition reads {A} (m : M A) : Prop := forall w, state_of (m w) = w.

Lemma reads_ret {A} (a : A) : reads (mret a).
Proof. intros w. reflexivity. Qed.

Lemma reads_raise {A} e : reads (@raise A e).
Proof. intros w. reflexivity. Qed.

Lemma reads_bind {A B} (m : M A) (f : A -> M B) :
  reads m -> (forall a, reads (f a)) -> reads (m ≫= f).
Proof.
  intros Hm Hf w. rewrite bind_eq. specialize (Hm w).
  destruct (m w) as [a w1|e w1]; [|exact Hm].
  cbn [state_of] in Hm. subst w1. apply Hf.
Qed.

Lemma reads_get_type_by_id i : reads (get_type_by_id i).
Proof. intros w. unfold get_type_by_id. destruct (type_map w !! i); reflexivity. Qed.

Lemma reads_scoped_name_of t n : reads (scoped_name_of t n).
Proof.
  unfold scoped_name_of.
  apply reads_bind; [intros w; reflexivity|]. intros w1.
  apply reads_bind; [destruct (heap w1 !! _); [apply reads_ret | apply reads_raise]|].
  intros s. destruct (negb _); apply reads_ret.
Qed.

Lemma reads_get_type_name : forall t, reads (get_type_name t).
Proof.
  fix IH 1. intros t.
  destruct t as [| | | | | | | | | | | | | |e|i|i brand|i|a];
    try (apply reads_ret); try (apply reads_raise).
  - cbn [get_type_name which dict_get CAPNP_TYPE_TO_PYTHON String.eqb Ascii.eqb Bool.eqb].
    apply reads_bind; [apply reads_get_type_by_id|]. intros et.
    apply reads_scoped_name_of.
  - cbn [get_type_name which dict_get CAPNP_TYPE_TO_PYTHON String.eqb Ascii.eqb Bool.eqb].
    apply reads_bind; [apply reads_get_type_by_id|]. intros et.
    apply reads_bind; [|intros gp; apply reads_scoped_name_of].
    match goal with
    | |- reads (?f brand []) =>
        cut (forall acc, reads (f brand acc)); [intros H; apply H|]
    end.
    induction brand as [|b bs IHbs]; intros acc; [apply reads_ret|].
    destruct b as [sid|sid binds].
    + apply reads_bind; [apply reads_get_type_by_id|]. intros ps. apply IHbs.
    + apply reads_bind; [|intros acc'; apply IHbs].
      revert acc. induction binds as [|bd l IHl]; intros acc; [apply reads_ret|].
      destruct bd as [|t']; [apply reads_raise|].
      apply reads_bind; [apply IH|]. intros n. apply IHl.
Qed.

Section KnownSlot.

Variable module : Module_.t.
Variable module_registry : ModuleRegistryType.
Variable graph : list Node.t.

(** X21.  A field whose enum or struct is already registered: nothing is
    generated.  For an enum the line is [<field>: <name of the type>],
    which also becomes a keyword argument of the constructor.  For a
    struct, whatever its brand, the name is the one that [get_type_name]
    gives: if it returns, the line is written and becomes a keyword
    argument and, for a struct only, a choice of [init]; if it raises,
    the field raises the same exception and nothing is written.  With an
    empty brand the name is the registered one, dotted below a scope
    other than the root; with a brand that first binds a parameter to a
    list, an interface or an any-pointer, [get_type_name] raises
    [TypeError]. *)
Theorem gen_slot_registered fuel schema field registered_type kwargs choices
    type_id t rs s w :
  type_map w !! type_id = Some t ->
  heap w !! CapnpType.scope t = Some rs ->
  heap w !! scope w = Some s ->
  let scoped type_name :=
    if is_root rs then type_name
    else scope_repr (heap w) (CapnpType.scope t) +:+ "." +:+ type_name in
  let code type_name := Field.name field +:+ ": " +:+ type_name in
  let written type_name :=
    set_heap
      (<[scope w := Scope.add_lines
                      [indented (indent_spaces (heap w) s) (code type_name)] s]>
         (heap w)) w in
  (Field.body field = FSlot (TEnum type_id) ->
   gen_slot module module_registry graph fuel schema field registered_type
     kwargs choices w
   = Ret (kwargs ++ [code (scoped (CapnpType.name t))], choices)
       (written (scoped (CapnpType.name t))))
  /\ (forall brand,
        Field.body field = FSlot (TStruct type_id brand) ->
        (exists node, struct_schema graph type_id w = Ret node w) ->
        gen_slot module module_registry graph fuel schema field registered_type
          kwargs choices w
        = match get_type_name (TStruct type_id brand) w with
          | Ret type_name _ =>
              Ret (kwargs ++ [code type_name],
                   choices ++ [(Field.name field, type_name)])
                (written type_name)
          | Raise e _ => Raise e w
          end)
  /\ get_type_name (TStruct type_id []) w = Ret (scoped (CapnpType.name t)) w
  /\ (forall scope_id ty binds brand,
        which ty = "list" \/ which ty = "interface" \/ which ty = "anyPointer" ->
        get_type_name
          (TStruct type_id (BBind scope_id (BType ty :: binds) :: brand)) w
        = Raise TypeError w).
Proof.
  intros Ht Hrs Hs scoped code written.
  assert (get_type_by_id type_id w = Ret t w) as Hget
    by (unfold get_type_by_id; rewrite Ht; reflexivity).
  assert (is_type_id_known type_id w = Ret true w) as Hk.
  { unfold is_type_id_known. rewrite bool_decide_eq_true_2 by (rewrite Ht; eauto).
    reflexivity. }
  split; [|split; [|split]].
  - intros Eb. unfold gen_slot, gen_slot_with. rewrite Eb. cbv zeta.
    cbn [which String.eqb Ascii.eqb Bool.eqb CapnpSlotType.LIST].
    rewrite bool_decide_eq_false_2 by (intros [x Hx]; discriminate Hx).
    cbn [String.eqb Ascii.eqb Bool.eqb CapnpSlotType.ENUM].
    unfold gen_enum_slot. rewrite Eb.
    match goal with
    | |- (?m ≫= ?h) ?W = _ =>
        assert (m W = Ret (kwargs ++ [code (scoped (CapnpType.name t))])
                        (written (scoped (CapnpType.name t)))) as H1;
        [| rewrite (bind_Ret m h W _ _ H1); reflexivity ]
    end.
    rewrite (bind_Ret _ _ _ _ _ Hk).
    erewrite bind_Ret; [|reflexivity].
    erewrite bind_Ret.
    2:{ cbn [get_type_name which dict_get CAPNP_TYPE_TO_PYTHON String.eqb
             Ascii.eqb Bool.eqb].
        rewrite (bind_Ret _ _ _ _ _ Hget). apply scoped_name_of_eq. exact Hrs. }
    cbv zeta.
    rewrite (bind_Ret _ _ _ _ _ (add_line_eq _ w s Hs)).
    reflexivity.
  - intros brand Eb [node Hnode]. unfold gen_slot, gen_slot_with. rewrite Eb.
    cbv zeta.
    cbn [which String.eqb Ascii.eqb Bool.eqb CapnpSlotType.LIST].
    rewrite bool_decide_eq_false_2 by (intros [x Hx]; discriminate Hx).
    cbn [String.eqb Ascii.eqb Bool.eqb CapnpSlotType.ENUM CapnpSlotType.STRUCT].
    unfold gen_struct_slot. rewrite Eb.
    rewrite (bind_Ret _ _ _ _ _ Hnode).
    assert (Node.id node = type_id) as Hid.
    { unfold struct_schema, get_schema in Hnode. rewrite bind_eq in Hnode.
      destruct (find _ graph) as [x|] eqn:Ef; cbn [from_option] in Hnode;
        [|discriminate Hnode].
      cbn in Hnode. destruct (String.eqb (Node.which x) "struct");
        [|discriminate Hnode].
      injection Hnode as <-. apply find_some in Ef as [_ Ef].
      apply Z.eqb_eq in Ef. exact Ef. }
    rewrite Hid. rewrite (bind_Ret _ _ _ _ _ Hk).
    erewrite bind_Ret; [|reflexivity].
    pose proof (reads_get_type_name (TStruct type_id brand) w) as Hpure.
    destruct (get_type_name (TStruct type_id brand) w) as [tn w1|e w1] eqn:Eg;
      cbn [state_of] in Hpure; subst w1.
    + rewrite (bind_Ret _ _ _ _ _ Eg). cbv zeta.
      rewrite (bind_Ret _ _ _ _ _ (add_line_eq _ w s Hs)).
      reflexivity.
    + rewrite (bind_Raise _ _ _ _ _ Eg). reflexivity.
  - cbn [get_type_name which dict_get CAPNP_TYPE_TO_PYTHON String.eqb
         Ascii.eqb Bool.eqb].
    rewrite (bind_Ret _ _ _ _ _ Hget).
    erewrite bind_Ret; [|reflexivity]. apply scoped_name_of_eq. exact Hrs.
  - intros scope_id ty binds brand Hty.
    cbn [get_type_name which dict_get CAPNP_TYPE_TO_PYTHON String.eqb
         Ascii.eqb Bool.eqb].
    rewrite (bind_Ret _ _ _ _ _ Hget).
    erewrite bind_Raise; [reflexivity|].
    erewrite bind_Raise; [reflexivity|].
    erewrite bind_Raise; [reflexivity|].
    destruct ty; cbn [which] in Hty;
      try (destruct Hty as [Hty|[Hty|Hty]]; discriminate Hty);
      reflexivity.
Qed.

End KnownSlot.

Lemma gen_slot_registered_witness :
  let w := set_type_map (<[12 := CapnpType.mk Ex.inner "Inner" 1%nat []]> ∅)
             (opened "TestMap" Ex.test_map "class TestMap:" 0%nat
                (Scope.mk "" 1 None None []) Ex.dummy_writer) in
  let i brand := Field.mk "i" 65535 (FSlot (TStruct 12 brand)) in
  (exists w',
     gen_slot Ex.dummy Ex.dummy_registry Ex.dummy_graph 0 Ex.test_map
       (i []) (CapnpType.mk Ex.test_map "TestMap" 0%nat []) ["a: str"] [] w
     = Ret (["a: str"; "i: TestMap.Inner"], [("i", "TestMap.Inner")]) w'
     /\ Scope.lines <$> heap w' !! 1%nat = Some ["    i: TestMap.Inner"])
  /\ (exists w',
        gen_slot Ex.dummy Ex.dummy_registry Ex.dummy_graph 0 Ex.test_map
          (i [BBind 12 [BType TText]])
          (CapnpType.mk Ex.test_map "TestMap" 0%nat []) ["a: str"] [] w
        = Ret (["a: str"; "i: TestMap.Inner[str]"],
               [("i", "TestMap.Inner[str]")]) w'
        /\ Scope.lines <$> heap w' !! 1%nat = Some ["    i: TestMap.Inner[str]"])
  /\ gen_slot Ex.dummy Ex.dummy_registry Ex.dummy_graph 0 Ex.test_map
       (i [BBind 12 [BType (TList TText)]])
       (CapnpType.mk Ex.test_map "TestMap" 0%nat []) ["a: str"] [] w
     = Raise TypeError w.
Proof.
  intros w i.
  pose proof (fun brand =>
    gen_slot_registered Ex.dummy Ex.dummy_registry Ex.dummy_graph
      0 Ex.test_map (i brand)
      (CapnpType.mk Ex.test_map "TestMap" 0%nat []) ["a: str"] []
      12 (CapnpType.mk Ex.inner "Inner" 1%nat [])
      (Scope.mk "TestMap" 11 (Some 0%nat) (Some 0%nat) [])
      (Scope.mk "TestMap" 11 (Some 0%nat) (Some 0%nat) []) w
      eq_refl eq_refl eq_refl) as H.
  split; [|split].
  - eexists. split.
    + destruct (H []) as (_ & Hs & _).
      exact (Hs [] eq_refl (ex_intro _ Ex.inner eq_refl)).
    + reflexivity.
  - eexists. split.
    + destruct (H [BBind 12 [BType TText]]) as (_ & Hs & _).
      exact (Hs _ eq_refl (ex_intro _ Ex.inner eq_refl)).
    + reflexivity.
  - destruct (H [BBind 12 [BType (TList TText)]]) as (_ & Hs & _).
    exact (Hs _ eq_refl (ex_intro _ Ex.inner eq_refl)).
Defined.

(** * A struct that completes generation *)

Section StructBody.

Variable module : Module_.t.
Variable module_registry : ModuleRegistryType.
Variable graph : list Node.t.





End StructBody.

Module ExBare.

(** [bare.capnp]: a struct without a field. *)
Definition nothing : Node.t :=
  Node.mk 71 "bare.capnp:Nothing" 11 70 false [] [] (NStruct [] 0).

Definition bare_file : Node.t :=
  Node.mk 70 "bare.capnp" 0 0 false [] [("Nothing", 71)] NFile.

Definition bare : Module_.t := Module_.mk (Some "/s/bare.capnp") bare_file.

Definition graph : list Node.t := [bare_file; nothing].

Definition registry : ModuleRegistryType := [(70, ("/s/bare.capnp", bare))].

Definition writer : Writer :=
  match init bare with
  | inr w => w
  | inl _ => Ex.empty_writer
  end.



End ExBare.



(** * An enum that completes generation *)

Section EnumBody.

Variable module : Module_.t.
Variable module_registry : ModuleRegistryType.

(** The run of [gen_enum] for an enum of this module whose enclosing
    scope [p] is registered. *)
Lemma gen_enum_run schema definition_name enumerants p ps w :
  Node.body schema = NEnum enumerants ->
  Str.split ":" (Node.displayName schema)
  = [base_module_name module; definition_name] ->
  get_display_name schema <> "" ->
  idict_get (Node.scopeId schema) (scopes_by_id w) = Some p ->
  heap w !! p = Some ps ->
  let name := get_display_name schema in
  let heading := "class " +:+ name +:+ "(str, Enum):" in
  let n :=
    indent_spaces
      (heap (opened name schema heading p ps w))
      (Scope.mk name (Node.id schema) (Some p) (Some (scope w)) []) in
  let members := map (indented n) (map enum_member_line enumerants) in
  exists w',
    gen_enum module module_registry schema w = Ret None w'
    /\ heap w'
       = <[p := Scope.add_lines
                  (indented (indent_spaces (heap w) ps) heading :: members) ps]>
           (heap w)
         ++ [Scope.mk name (Node.id schema) (Some p) (Some (scope w)) members].
Proof.
  intros Hb Hs Hn Hp Hps name heading n members.
  pose proof (lookup_lt_Some _ _ _ Hps) as Hlt.
  set (w1 := set_imports ({["from enum import Enum"]} ∪ _imports w) w).
  set (w2 := opened name schema heading p ps w1).
  set (child0 := Scope.mk name (Node.id schema) (Some p) (Some (scope w)) []).
  assert (heap w2 !! length (heap w) = Some child0) as Hc.
  { apply (opened_child name schema heading p ps w1). exact Hps. }
  set (t := CapnpType.mk schema name p []).
  set (w3 := set_type_map (<[Node.id schema := t]> (type_map w2)) w2).
  assert (register_type (Node.id schema) schema name None w2 = Ret t w3) as Hreg.
  { unfold register_type.
    assert (String.eqb name "" = false) as -> by (apply String.eqb_neq; exact Hn).
    change (scope w2) with (length (heap w)). rewrite Hc. reflexivity. }
  set (child := Scope.mk name (Node.id schema) (Some p) (Some (scope w)) members).
  set (w4 := set_heap (<[length (heap w) := child]> (heap w3)) w3).
  assert (add_lines (map enum_member_line enumerants) w3 = Ret tt w4) as Hadd.
  { rewrite (add_lines_eq _ w3 child0 Hc). reflexivity. }
  set (ps1 := Scope.add_lines [indented (indent_spaces (heap w) ps) heading] ps).
  assert (heap w4 = <[p := ps1]> (heap w) ++ [child]) as Hh4.
  { subst w4 w3. cbn [heap set_heap set_type_map].
    subst w2 w1. cbn [heap opened set_scopes_by_id set_scope set_heap set_imports].
    rewrite <- (length_insert (heap w) p ps1) at 1.
    apply insert_snoc_last. }
  assert (return_from_scope w4
          = Ret tt (closed child p ps1 (scope w) w4)) as Hret.
  { apply return_from_scope_eq.
    - rewrite Hh4. change (scope w4) with (length (heap w)).
      rewrite <- (length_insert (heap w) p ps1) at 1.
      rewrite lookup_app_r by lia. rewrite Nat.sub_diag. reflexivity.
    - reflexivity.
    - rewrite Hh4. rewrite lookup_app_l by (rewrite length_insert; exact Hlt).
      apply list_lookup_insert_eq. exact Hlt.
    - reflexivity. }
  exists (closed child p ps1 (scope w) w4). split.
  - unfold gen_enum. unfold Node.which. rewrite Hb.
    cbn [String.eqb Ascii.eqb Bool.eqb CapnpElementType.ENUM assert_].
    erewrite bind_Ret; [|reflexivity].
    rewrite (bind_Ret _ _ w None w
               (register_import_local module module_registry schema
                  definition_name w Hs)).
    erewrite bind_Ret; [|reflexivity].
    erewrite bind_Ret; [|apply (new_scope_eq _ _ _ p ps); assumption].
    rewrite (bind_Ret _ _ _ _ _ Hreg).
    rewrite (bind_Ret _ _ _ _ _ Hadd).
    rewrite (bind_Ret _ _ _ _ _ Hret). reflexivity.
  - unfold closed. cbn [heap set_scope set_heap]. rewrite Hh4.
    rewrite insert_app_l by (rewrite length_insert; exact Hlt).
    rewrite list_insert_insert_eq. subst ps1. rewrite add_lines_app.
    reflexivity.
Qed.

(** C5.  An enum of this module.  Generation completes whenever the
    scope that encloses the enum is registered, and whenever it
    completes, the lines of the scope of the enum (the object allocated
    at the end of the heap) are one member for each enumerant, in the
    declared order: the name, [: str = ] and the name between quotes as
    the value, where the name on the left is followed by one underscore
    exactly when the enumerant is a Python keyword.  The enclosing scope
    receives the heading [class <name>(str, Enum):] followed by those
    very members. *)
Theorem gen_enum_members schema definition_name enumerants w :
  Node.body schema = NEnum enumerants ->
  Str.split ":" (Node.displayName schema)
  = [base_module_name module; definition_name] ->
  let member e :=
    (if Str.mem e kwlist then e +:+ "_" else e)
    +:+ ": str = " +:+ quote +:+ e +:+ quote in
  (forall p ps,
     idict_get (Node.scopeId schema) (scopes_by_id w) = Some p ->
     heap w !! p = Some ps ->
     get_display_name schema <> "" ->
     exists w', gen_enum module module_registry schema w = Ret None w')
  /\ (forall r w',
        gen_enum module module_registry schema w = Ret r w' ->
        r = None
        /\ exists n k p ps,
             idict_get (Node.scopeId schema) (scopes_by_id w) = Some p
             /\ heap w !! p = Some ps
             /\ Scope.lines <$> heap w' !! length (heap w)
                = Some (map (fun e => indented n (member e)) enumerants)
             /\ Scope.lines <$> heap w' !! p
                = Some (Scope.lines ps
                        ++ indented k
                             ("class " +:+ get_display_name schema
                              +:+ "(str, Enum):")
                           :: map (fun e => indented n (member e)) enumerants)).
Proof.
  intros Hb Hs member. split.
  - intros p ps Hp Hps Hn.
    destruct (gen_enum_run schema definition_name enumerants p ps w
                Hb Hs Hn Hp Hps) as (w' & H & _).
    exists w'. exact H.
  - intros r w' H.
    assert (exists p ps,
              idict_get (Node.scopeId schema) (scopes_by_id w) = Some p
              /\ heap w !! p = Some ps /\ get_display_name schema <> "")
      as (p & ps & Hp & Hps & Hn).
    { unfold gen_enum, Node.which in H. rewrite Hb in H.
      cbn [String.eqb Ascii.eqb Bool.eqb CapnpElementType.ENUM assert_] in H.
      erewrite bind_Ret in H; [|reflexivity].
      rewrite (bind_Ret _ _ w None w
                 (register_import_local module module_registry schema
                    definition_name w Hs)) in H.
      erewrite bind_Ret in H; [|reflexivity].
      rewrite bind_eq in H.
      match type of H with
      | match new_scope ?a ?b ?c ?d with _ => _ end = _ =>
          destruct (new_scope a b c d) as [[] w2|e w2] eqn:Hnew;
          [|discriminate H]
      end.
      apply new_scope_inv in Hnew as (p & ps & Hp & Hps & Hn & _).
      cbn [set_imports scopes_by_id heap] in Hp, Hps.
      exists p, ps. auto. }
    destruct (gen_enum_run schema definition_name enumerants p ps w
                Hb Hs Hn Hp Hps) as (w1 & Hrun & Hheap).
    rewrite Hrun in H. injection H as <- <-.
    split; [reflexivity|].
    pose proof (lookup_lt_Some _ _ _ Hps) as Hlt.
    set (n := indent_spaces (heap (opened _ _ _ _ _ _)) _) in Hheap.
    set (ps' := Scope.add_lines _ ps) in Hheap.
    exists n, (indent_spaces (heap w) ps), p, ps.
    split; [exact Hp|]. split; [exact Hps|].
    rewrite Hheap. split.
    + rewrite <- (length_insert (heap w) p ps') at 1.
      rewrite lookup_app_r by lia. rewrite Nat.sub_diag.
      cbn [lookup list_lookup fmap option_fmap option_map Scope.lines].
      rewrite map_map. reflexivity.
    + rewrite lookup_app_l by (rewrite length_insert; exact Hlt).
      rewrite list_lookup_insert_eq by exact Hlt.
      subst ps'.
      cbn [fmap option_fmap option_map Scope.lines Scope.add_lines].
      rewrite map_map. reflexivity.
Qed.

End EnumBody.

Lemma gen_enum_members_witness :
  (exists w',
     gen_enum Ex.dummy Ex.dummy_registry Ex.test_enum Ex.dummy_writer
     = Ret None w')
  /\ gen_enum Ex.dummy Ex.dummy_registry Ex.test_enum Ex.dummy_writer
     = Ret None Ex.after_enum
  /\ Scope.lines <$> heap Ex.after_enum !! 0%nat
     = Some [ "class TestEnum(str, Enum):";
              "    foo: str = " +:+ quote +:+ "foo" +:+ quote;
              "    bar: str = " +:+ quote +:+ "bar" +:+ quote;
              "    class_: str = " +:+ quote +:+ "class" +:+ quote ]
  /\ exists n k p ps,
       idict_get (Node.scopeId Ex.test_enum) (scopes_by_id Ex.dummy_writer)
       = Some p
       /\ heap Ex.dummy_writer !! p = Some ps
       /\ Scope.lines <$> heap Ex.after_enum !! length (heap Ex.dummy_writer)
          = Some [ indented n ("foo: str = " +:+ quote +:+ "foo" +:+ quote);
                   indented n ("bar: str = " +:+ quote +:+ "bar" +:+ quote);
                   indented n ("class_: str = " +:+ quote +:+ "class" +:+ quote) ]
       /\ Scope.lines <$> heap Ex.after_enum !! p
          = Some (Scope.lines ps
                  ++ [ indented k "class TestEnum(str, Enum):";
                       indented n ("foo: str = " +:+ quote +:+ "foo" +:+ quote);
                       indented n ("bar: str = " +:+ quote +:+ "bar" +:+ quote);
                       indented n ("class_: str = " +:+ quote +:+ "class"
                                   +:+ quote) ]).
Proof.
  pose proof (gen_enum_members Ex.dummy Ex.dummy_registry Ex.test_enum
                "TestEnum" ["foo"; "bar"; "class"] Ex.dummy_writer
                eq_refl eq_refl) as [Htotal Hlines].
  split.
  { apply (Htotal 0%nat (Scope.mk "" 1 None None []));
      [reflexivity | reflexivity | discriminate]. }
  split; [vm_compute; reflexivity|].
  split; [vm_compute; reflexivity|].
  exact (proj2 (Hlines None Ex.after_enum ltac:(vm_compute; reflexivity))).
Defined.

(** * Where a missing enclosing scope is met *)

Section MissingAncestorSites.

Variable module : Module_.t.
Variable module_registry : ModuleRegistryType.
Variable graph : list Node.t.

(** A struct of this module whose enclosing scope is not registered:
    [new_scope] raises before anything is written. *)
Lemma gen_struct_missing_parent fuel schema type_name definition_name w :
  Node.which schema = "struct" ->
  Str.split ":" (Node.displayName schema)
  = [base_module_name module; definition_name] ->
  Node.isGeneric schema = false ->
  idict_get (Node.scopeId schema) (scopes_by_id w) = None ->
  gen_struct module module_registry graph (S fuel) schema type_name w
  = Raise NoParentError w.
Proof.
  intros Hk Hs Hg Hp. cbn [gen_struct]. unfold gen_struct_body. rewrite Hk.
  cbn [String.eqb Ascii.eqb Bool.eqb CapnpElementType.STRUCT assert_].
  erewrite bind_Ret; [|reflexivity].
  rewrite (bind_Ret _ _ w None w
             (register_import_local module module_registry schema
                definition_name w Hs)).
  cbv zeta. rewrite Hg.
  erewrite bind_Ret; [|reflexivity].
  erewrite bind_Raise; [reflexivity|].
  apply new_scope_no_parent. exact Hp.
Qed.

Lemma struct_schema_found type_id schema w :
  find (fun n => Z.eqb (Node.id n) type_id) graph = Some schema ->
  Node.which schema = "struct" ->
  struct_schema graph type_id w = Ret schema w.
Proof.
  intros Hf Hk. unfold struct_schema, get_schema. rewrite Hf.
  cbn [from_option]. erewrite bind_Ret; [|reflexivity].
  rewrite Hk. reflexivity.
Qed.

(** C8.  An enum and a struct of this module whose enclosing scopes were
    never registered, met from a field of another struct.  [new_scope]
    raises [NoParentError].  Only the enum slot catches it; but the enum
    is then still unknown, and the next statement, which looks up the
    name of its type, raises [KeyError]: the loop over the fields stops
    there, whatever fields remain.  From a list of the enum, from a
    struct slot, from a list of the struct and from a group the
    [NoParentError] propagates. *)
Theorem missing_ancestor_sites fuel owner registered_type l name discriminant
    c rest brand enum_id enum_node enum_name struct_id struct_node struct_name
    w :
  find (fun n => Z.eqb (Node.id n) enum_id) graph = Some enum_node ->
  Node.which enum_node = "enum" ->
  Str.split ":" (Node.displayName enum_node)
  = [base_module_name module; enum_name] ->
  idict_get (Node.scopeId enum_node) (scopes_by_id w) = None ->
  type_map w !! enum_id = None ->
  find (fun n => Z.eqb (Node.id n) struct_id) graph = Some struct_node ->
  Node.which struct_node = "struct" ->
  Str.split ":" (Node.displayName struct_node)
  = [base_module_name module; struct_name] ->
  Node.isGeneric struct_node = false ->
  idict_get (Node.scopeId struct_node) (scopes_by_id w) = None ->
  type_map w !! struct_id = None ->
  (97 <= nat_of_ascii c <= 122)%nat ->
  let slot ty := Field.mk name discriminant (FSlot ty) in
  let group := Field.mk (String c rest) discriminant (FGroup struct_id) in
  let run fields :=
    gen_fields module module_registry graph
      (gen_struct module module_registry graph (S fuel)) owner registered_type
      fields l w in
  (forall remaining,
     run (slot (TEnum enum_id) :: remaining)
     = Raise KeyError (with_enum_import w))
  /\ (forall remaining,
        run (slot (TList (TEnum enum_id)) :: remaining)
        = Raise NoParentError (with_enum_import w))
  /\ (forall remaining,
        run (slot (TStruct struct_id brand) :: remaining)
        = Raise NoParentError w)
  /\ (forall remaining,
        run (slot (TList (TStruct struct_id brand)) :: remaining)
        = Raise NoParentError w)
  /\ (forall remaining, run (group :: remaining) = Raise NoParentError w).
Proof.
  intros Hfe Hke Hse Hpe Hne Hfs Hks Hss Hgs Hps Hns Hc slot group run.
  pose proof (nested_enum_missing_parent module module_registry graph (S fuel)
                _ _ _ _ Hfe Hke Hse Hpe Hne) as N.
  pose proof (gen_struct_missing_parent fuel struct_node "" struct_name w
                Hks Hss Hgs Hps) as S0.
  assert (Node.id struct_node = struct_id) as Hid.
  { apply find_some in Hfs as [_ Hfs]. apply Z.eqb_eq in Hfs. exact Hfs. }
  assert (is_type_id_known struct_id w = Ret false w) as Hunknown.
  { unfold is_type_id_known. rewrite Hns.
    rewrite bool_decide_eq_false_2 by (intros [? ?]; discriminate).
    reflexivity. }
  assert (forall ty e w1 field remaining,
            Field.body field = FSlot ty ->
            gen_slot_with module module_registry graph
              (gen_struct module module_registry graph (S fuel)) owner field
              registered_type (contructor_kwargs l) (init_choices l) w
            = Raise e w1 ->
            run (field :: remaining) = Raise e w1) as Hrun.
  { intros ty e w1 field remaining Eb Hraise. unfold run.
    cbn [gen_fields]. erewrite bind_Raise; [reflexivity|].
    unfold gen_field, Field.which. rewrite Eb.
    cbn [String.eqb Ascii.eqb Bool.eqb CapnpFieldType.SLOT].
    erewrite bind_Raise; [reflexivity|]. exact Hraise. }
  subst slot group.
  split; [|split; [|split; [|split]]].
  - intros remaining.
    apply (Hrun (TEnum enum_id)); [reflexivity|].
    unfold gen_slot_with. cbn [Field.body which].
    cbn [String.eqb Ascii.eqb Bool.eqb CapnpSlotType.LIST CapnpSlotType.ENUM
         dict_get CAPNP_TYPE_TO_PYTHON].
    rewrite bool_decide_eq_false_2 by (intros [? ?]; discriminate).
    erewrite bind_Raise; [reflexivity|].
    unfold gen_enum_slot. cbn [Field.body].
    rewrite bind_eq. cbn [is_type_id_known]. rewrite Hne.
    rewrite bool_decide_eq_false_2 by (intros [? ?]; discriminate).
    rewrite bind_eq. unfold try_except_pass. rewrite N.
    rewrite decide_True by reflexivity.
    erewrite bind_Raise; [reflexivity|].
    cbn [get_type_name which dict_get CAPNP_TYPE_TO_PYTHON String.eqb Ascii.eqb
         Bool.eqb].
    erewrite bind_Raise; [reflexivity|].
    unfold get_type_by_id, with_enum_import. cbn [type_map set_imports].
    rewrite Hne. reflexivity.
  - intros remaining.
    apply (Hrun (TList (TEnum enum_id))); [reflexivity|].
    unfold gen_slot_with. cbn [Field.body which].
    cbn [String.eqb Ascii.eqb Bool.eqb CapnpSlotType.LIST].
    erewrite bind_Raise; [reflexivity|].
    unfold gen_list_slot. cbn [Field.body which].
    cbn [String.eqb Ascii.eqb Bool.eqb CapnpElementType.STRUCT
         CapnpElementType.ENUM].
    erewrite bind_Raise; [reflexivity|].
    unfold ensure_nested. rewrite bind_eq. cbn [is_type_id_known]. rewrite Hne.
    rewrite bool_decide_eq_false_2 by (intros [? ?]; discriminate).
    exact N.
  - intros remaining.
    apply (Hrun (TStruct struct_id brand)); [reflexivity|].
    unfold gen_slot_with. cbn [Field.body which].
    cbn [String.eqb Ascii.eqb Bool.eqb CapnpSlotType.LIST CapnpSlotType.ENUM
         CapnpSlotType.STRUCT dict_get CAPNP_TYPE_TO_PYTHON].
    rewrite bool_decide_eq_false_2 by (intros [? ?]; discriminate).
    unfold gen_struct_slot. cbn [Field.body].
    rewrite (bind_Ret _ _ _ _ _ (struct_schema_found _ _ w Hfs Hks)).
    rewrite Hid. rewrite (bind_Ret _ _ _ _ _ Hunknown).
    erewrite bind_Raise; [reflexivity|].
    erewrite bind_Raise; [reflexivity|]. exact S0.
  - intros remaining.
    apply (Hrun (TList (TStruct struct_id brand))); [reflexivity|].
    unfold gen_slot_with. cbn [Field.body which].
    cbn [String.eqb Ascii.eqb Bool.eqb CapnpSlotType.LIST].
    erewrite bind_Raise; [reflexivity|].
    unfold gen_list_slot. cbn [Field.body which].
    cbn [String.eqb Ascii.eqb Bool.eqb CapnpElementType.STRUCT].
    erewrite bind_Raise; [reflexivity|].
    unfold ensure_nested. rewrite (bind_Ret _ _ _ _ _ Hunknown).
    rewrite (bind_Ret _ _ _ _ _ (struct_schema_found _ _ w Hfs Hks)).
    unfold generate_nested_with. rewrite Hid.
    rewrite (bind_Ret _ _ _ _ _ Hunknown). cbv zeta. rewrite Hks.
    cbn [String.eqb Ascii.eqb Bool.eqb].
    erewrite bind_Raise; [reflexivity|]. exact S0.
  - intros remaining. unfold run. cbn [gen_fields].
    erewrite bind_Raise; [reflexivity|].
    unfold gen_field, Field.which. cbn [Field.body Field.name].
    cbn [String.eqb Ascii.eqb Bool.eqb CapnpFieldType.SLOT CapnpFieldType.GROUP].
    unfold group_type_name.
    erewrite bind_Ret; [|reflexivity].
    assert (String.eqb (String (Str.upper_char c) rest) (String c rest) = false)
      as ->.
    { apply String.eqb_neq. intros H. injection H as H.
      unfold Str.upper_char in H.
      replace ((97 <=? nat_of_ascii c) && (nat_of_ascii c <=? 122))%nat
        with true in H
        by (symmetry; apply andb_true_intro; split; apply Nat.leb_le; lia).
      apply (f_equal nat_of_ascii) in H.
      rewrite nat_ascii_embedding in H by lia. lia. }
    cbn [negb assert_]. erewrite bind_Ret; [|reflexivity].
    rewrite (bind_Ret _ _ _ _ _ (struct_schema_found _ _ w Hfs Hks)).
    erewrite bind_Raise; [reflexivity|].
    apply (gen_struct_missing_parent fuel struct_node _ struct_name w
             Hks Hss Hgs Hps).
Qed.

End MissingAncestorSites.

Module ExOrphans.

(** [orphans.capnp]: the struct [Holder] is declared before [Shelf], and
    its fields refer to the enum [Kind] and to the struct [Box], which
    are declared inside [Shelf]. *)
Definition kind : Node.t :=
  Node.mk 83 "orphans.capnp:Shelf.Kind" 20 82 false [] []
    (NEnum ["small"; "large"]).

Definition box : Node.t :=
  Node.mk 84 "orphans.capnp:Shelf.Box" 20 82 false [] []
    (NStruct [Field.mk "n" 65535 (FSlot TInt32)] 0).

Definition shelf : Node.t :=
  Node.mk 82 "orphans.capnp:Shelf" 14 80 false [] [("Kind", 83); ("Box", 84)]
    (NStruct [Field.mk "n" 65535 (FSlot TInt32)] 0).

Definition holder : Node.t :=
  Node.mk 81 "orphans.capnp:Holder" 14 80 false [] []
    (NStruct [ Field.mk "kind" 65535 (FSlot (TEnum 83));
               Field.mk "count" 65535 (FSlot TInt32) ] 0).

Definition orphans_file : Node.t :=
  Node.mk 80 "orphans.capnp" 0 0 false [] [("Holder", 81); ("Shelf", 82)] NFile.

Definition orphans : Module_.t :=
  Module_.mk (Some "/s/orphans.capnp") orphans_file.

Definition graph : list Node.t := [orphans_file; holder; shelf; kind; box].

Definition registry : ModuleRegistryType :=
  [(80, ("/s/orphans.capnp", orphans))].

Definition writer : Writer :=
  match init orphans with
  | inr w => w
  | inl _ => Ex.empty_writer
  end.

Definition holder_type : CapnpType.t := CapnpType.mk holder "Holder" 0%nat [].

(** The fields of a struct, generated from the initial writer. *)
Definition run (fields : list Field.t) : outcome StructLocals :=
  gen_fields orphans registry graph (gen_struct orphans registry graph 3)
    holder holder_type fields (mkLocals false [] []) writer.

End ExOrphans.

Lemma missing_ancestor_sites_witness :
  (exists w',
     generate_recursive ExOrphans.orphans ExOrphans.registry ExOrphans.graph 4
       ExOrphans.writer = Raise KeyError w'
     /\ type_map w' !! 82 = None)
  /\ (forall remaining,
        ExOrphans.run (Field.mk "kind" 65535 (FSlot (TEnum 83)) :: remaining)
        = Raise KeyError (with_enum_import ExOrphans.writer))
  /\ (forall remaining,
        ExOrphans.run
          (Field.mk "kind" 65535 (FSlot (TList (TEnum 83))) :: remaining)
        = Raise NoParentError (with_enum_import ExOrphans.writer))
  /\ (forall remaining,
        ExOrphans.run
          (Field.mk "kind" 65535 (FSlot (TStruct 84 [])) :: remaining)
        = Raise NoParentError ExOrphans.writer)
  /\ (forall remaining,
        ExOrphans.run
          (Field.mk "kind" 65535 (FSlot (TList (TStruct 84 []))) :: remaining)
        = Raise NoParentError ExOrphans.writer)
  /\ (forall remaining,
        ExOrphans.run (Field.mk "box" 65535 (FGroup 84) :: remaining)
        = Raise NoParentError ExOrphans.writer).
Proof.
  split.
  { eexists. split; [vm_compute; reflexivity|]. vm_compute. reflexivity. }
  apply (missing_ancestor_sites ExOrphans.orphans ExOrphans.registry
           ExOrphans.graph 2 ExOrphans.holder ExOrphans.holder_type
           (mkLocals false [] []) "kind" 65535 "b"%char "ox" []
           83 ExOrphans.kind "Shelf.Kind" 84 ExOrphans.box "Shelf.Box"
           ExOrphans.writer);
    try reflexivity.
  vm_compute. split; apply Nat.leb_le; reflexivity.
Defined.

(** * Two runs over the same input *)

Section Runs.

Variable module : Module_.t.
Variable module_registry : ModuleRegistryType.
Variable graph : list Node.t.




End Runs.






